(** * QA-Agents: plan compilation, vision-guided execution and orchestration

    A shallow embedding of the TypeScript sources
    - [src/QAOrchestrator.ts]            (module [Orchestrator]),
    - [src/agents/GherkinAgent.ts]       (modules [Text], [Placeholders],
                                          [Outline], [Heuristic], [Cache], [Compiler]),
    - [src/agents/WebExecutorAgent.ts]   (modules [Vision], [Executor]),
    together with the properties the design document states about them.

    Strings are Rocq strings (sequences of 8-bit characters); every pattern the
    sources search for is ASCII, so the embedding agrees with the JavaScript
    behaviour on ASCII text.  Asynchronous calls are sequential ([await] at
    every call), so they are modelled as ordinary state passing. *)

From Stdlib Require Import ZArith List String Ascii Bool Lia DecimalString DecimalZ.
From stdpp Require Import base gmap strings.
Import ListNotations.
Local Open Scope string_scope.
Local Open Scope list_scope.

(** ** Shared data model (interfaces [Step], [Scenario], [ExecutionPlan]) *)

(** A cell of a form table: [{ "selector": "", "value": "..." }] or a bare
    string; anything else the oracle may send is [FieldOther]. *)
Inductive Field :=
| FieldObj (fselector : string) (fvalue : string)
| FieldStr (s : string)
| FieldOther.

(** [step.data]: [null], a single string, an array of strings (what
    [extractData] yields) or a field map keyed by label. *)
Inductive Data :=
| DataNull
| DataStr (s : string)
| DataArr (items : list string)
| DataMap (fields : list (string * Field)).

Record Validation := { vtype : string; expected : string }.

Record Step := {
  gherkinStep : string;
  action : string;
  selector : option string;   (* [null] in [guessSelector]'s last case *)
  data : Data;
  description : string;
  validation : option Validation
}.

Record Scenario := { name : string; context : string; steps : list Step }.

Record ExecutionPlan := {
  feature : string;
  pdescription : string;
  scenarios : list Scenario;
  type : string;
  tags : list string;
  language : string
}.

(** ** QAOrchestrator.runScenario *)

Module Orchestrator.

Record Diagnostic := { category : string; severity : string }.

Record StepResult := {
  success : bool;
  step : string;
  raction : string;
  error : option string;
  diagnostic : option Diagnostic
}.

Inductive Status := running | passed | failed | errored.

Record ScenarioResult := {
  rname : string;
  rcontext : string;
  rsteps : list StepResult;
  status : Status;
  rerror : option string
}.

Record OverallStats := { totalSteps : nat; passedSteps : nat; failedSteps : nat }.

(** The executor and the diagnostic agent are external collaborators (the
    orchestrator holds them as [any]): they act on a state of the outside
    world (browser, network).  A call either returns a value or throws a
    message.  [analyzeFailure] is only called inside the try/catch of
    [analyzeFailed]: [None] stands for any exception raised in that block. *)
Class Collaborators (World : Type) := {
  executeStep : Step -> nat -> World -> (StepResult + string) * World;
  analyzeFailure : StepResult -> string -> World -> option Diagnostic * World
}.

Section RunScenario.

Context {World : Type} {agents : Collaborators World}.

(** [analyzeFailed]: the diagnostic, when one is produced, is stored on the
    step result object, which is the one already pushed on the scenario's
    list. *)
Definition analyzeFailed (r : StepResult) (sc : Scenario) (w : World)
  : StepResult * World :=
  match analyzeFailure r (name sc) w with
  | (Some d, w') =>
      ({| success := success r; step := step r; raction := raction r;
          error := error r; diagnostic := Some d |}, w')
  | (None, w') => (r, w')
  end.

(** State of the [for] loop of [runScenario].  [calls] is a ghost log of the
    [executeStep] invocations (index and step), oldest first. *)
Record LoopState := {
  results : list StepResult;
  lstatus : Status;
  lerror : option string;
  stats : OverallStats;
  calls : list (nat * Step);
  world : World
}.

Definition bump_total (s : OverallStats) :=
  {| totalSteps := S (totalSteps s); passedSteps := passedSteps s; failedSteps := failedSteps s |}.
Definition bump_passed (s : OverallStats) :=
  {| totalSteps := totalSteps s; passedSteps := S (passedSteps s); failedSteps := failedSteps s |}.
Definition bump_failed (s : OverallStats) :=
  {| totalSteps := totalSteps s; passedSteps := passedSteps s; failedSteps := S (failedSteps s) |}.

(** The loop [for (let i = 0; i < scenario.steps.length; i++)], started at
    index [i] on the remaining steps [todo]. *)
Fixpoint stepLoop (sc : Scenario) (todo : list Step) (i : nat) (st : LoopState)
  : LoopState :=
  match todo with
  | [] => st
  | s :: rest =>
      let stats1 := bump_total (stats st) in
      let log := calls st ++ [(i, s)] in
      match executeStep s i (world st) with
      | (inr msg, w1) =>
          (* caught by the catch of runScenario *)
          {| results := results st; lstatus := errored; lerror := Some msg;
             stats := bump_failed stats1; calls := log; world := w1 |}
      | (inl r, w1) =>
          if success r then
            stepLoop sc rest (S i)
              {| results := results st ++ [r]; lstatus := lstatus st;
                 lerror := lerror st; stats := bump_passed stats1;
                 calls := log; world := w1 |}
          else
            let '(r', w2) := analyzeFailed r sc w1 in
            (* scenarioResult.status = 'failed'; break *)
            {| results := results st ++ [r']; lstatus := failed;
               lerror := lerror st; stats := bump_failed stats1;
               calls := log; world := w2 |}
      end
  end.

Definition runLoop (sc : Scenario) (stats0 : OverallStats) (w : World) : LoopState :=
  stepLoop sc (steps sc) 0
    {| results := []; lstatus := running; lerror := None;
       stats := stats0; calls := []; world := w |}.

Definition runScenario (sc : Scenario) (stats0 : OverallStats) (w : World)
  : ScenarioResult :=
  let st := runLoop sc stats0 w in
  {| rname := name sc; rcontext := context sc; rsteps := results st;
     status := match lstatus st with running => passed | s => s end;
     rerror := lerror st |}.

End RunScenario.

Arguments LoopState World : clear implicits.

(** The steps of a scenario paired with their indices, from index [i]. *)
Fixpoint indexed (i : nat) (l : list Step) : list (nat * Step) :=
  match l with
  | [] => []
  | s :: rest => (i, s) :: indexed (S i) rest
  end.

(** A scripted executor for examples: the world is the list of outcomes still
    to be played ([Some b]: a result with [success = b]; [None]: a throw);
    the diagnostic agent is unreachable. *)
Definition scripted : Collaborators (list (option bool)) := {|
  executeStep := fun s i w =>
    match w with
    | Some b :: w' =>
        (inl {| success := b; step := description s; raction := action s;
                error := if b then None else Some "failed"; diagnostic := None |}, w')
    | None :: w' => (inr "boom", w')
    | [] => (inr "no browser", [])
    end;
  analyzeFailure := fun _ _ w => (None, w)
|}.

Definition mkStep (a d : string) : Step :=
  {| gherkinStep := d; action := a; selector := Some ""; data := DataNull;
     description := d; validation := None |}.

Definition threeSteps : Scenario :=
  {| name := "Login"; context := "web";
     steps := [mkStep "navigate" "open the login page";
               mkStep "click" "click Sign In";
               mkStep "validate" "see the dashboard"] |}.

Definition noStats : OverallStats :=
  {| totalSteps := 0; passedSteps := 0; failedSteps := 0 |}.

End Orchestrator.

(** ** String primitives of the JavaScript sources *)

Module Text.

Definition is_upper (c : ascii) : bool :=
  (65 <=? nat_of_ascii c)%nat && (nat_of_ascii c <=? 90)%nat.
Definition is_lower (c : ascii) : bool :=
  (97 <=? nat_of_ascii c)%nat && (nat_of_ascii c <=? 122)%nat.
Definition is_digit (c : ascii) : bool :=
  (48 <=? nat_of_ascii c)%nat && (nat_of_ascii c <=? 57)%nat.
Definition is_alnum (c : ascii) : bool := is_upper c || is_lower c || is_digit c.

(** [\s] restricted to ASCII: space, tab, line feed, vertical tab, form feed,
    carriage return. *)
Definition is_white (c : ascii) : bool :=
  (nat_of_ascii c =? 32)%nat ||
  ((9 <=? nat_of_ascii c)%nat && (nat_of_ascii c <=? 13)%nat).

Definition lower_char (c : ascii) : ascii :=
  if is_upper c then ascii_of_nat (nat_of_ascii c + 32) else c.

(** [String.prototype.toLowerCase] *)
Fixpoint toLowerCase (s : string) : string :=
  match s with
  | EmptyString => EmptyString
  | String c s' => String (lower_char c) (toLowerCase s')
  end.

(** Does [pat] occur at the head of [s]?  [ci] is the [i] flag of a regular
    expression made of literal characters. *)
Fixpoint matches_at (ci : bool) (pat s : string) : bool :=
  match pat, s with
  | EmptyString, _ => true
  | String _ _, EmptyString => false
  | String p pat', String c s' =>
      (if ci then Ascii.eqb (lower_char p) (lower_char c) else Ascii.eqb p c)
      && matches_at ci pat' s'
  end.

Definition startsWith (s pat : string) : bool := matches_at false pat s.

(** [pattern.test(s)] for a literal pattern; [s.includes(pat)] when [ci] is
    off. *)
Fixpoint occurs (ci : bool) (pat s : string) : bool :=
  matches_at ci pat s ||
  match s with
  | EmptyString => false
  | String _ s' => occurs ci pat s'
  end.

Definition includes (s pat : string) : bool := occurs false pat s.

(** [s.replace(/pat/g, repl)] for a non-empty literal pattern and a
    replacement without [$]: matches are taken left to right and do not
    overlap; replaced text is not scanned again.  [skip] counts the characters
    of the current match still to be dropped. *)
Fixpoint replace_from (ci : bool) (pat repl : string) (skip : nat) (s : string) : string :=
  match s with
  | EmptyString => EmptyString
  | String c s' =>
      match skip with
      | S k => replace_from ci pat repl k s'
      | O =>
          if matches_at ci pat s
          then repl +:+ replace_from ci pat repl (String.length pat - 1) s'
          else String c (replace_from ci pat repl 0 s')
      end
  end.

Definition replaceAll (ci : bool) (pat repl s : string) : string :=
  replace_from ci pat repl 0 s.

(** [s.substring(n)] *)
Fixpoint drop (n : nat) (s : string) : string :=
  match n, s with
  | O, _ => s
  | S k, String _ s' => drop k s'
  | S _, EmptyString => EmptyString
  end.

(** [s.replace(pat, repl)] with a string pattern: first occurrence only. *)
Fixpoint replaceFirst (pat repl s : string) : string :=
  if matches_at false pat s
  then repl +:+ drop (String.length pat) s
  else match s with
       | EmptyString => EmptyString
       | String c s' => String c (replaceFirst pat repl s')
       end.

Fixpoint dropWhile (p : ascii -> bool) (s : string) : string :=
  match s with
  | EmptyString => EmptyString
  | String c s' => if p c then dropWhile p s' else s
  end.

Fixpoint takeWhile (p : ascii -> bool) (s : string) : string :=
  match s with
  | EmptyString => EmptyString
  | String c s' => if p c then String c (takeWhile p s') else EmptyString
  end.

Definition dropWhileEnd (p : ascii -> bool) (s : string) : string :=
  String.rev (dropWhile p (String.rev s)).

(** [String.prototype.trim] *)
Definition trim (s : string) : string := dropWhileEnd is_white (dropWhile is_white s).

Fixpoint all_chars (p : ascii -> bool) (s : string) : bool :=
  match s with
  | EmptyString => true
  | String c s' => p c && all_chars p s'
  end.

Definition has_char (c : ascii) (s : string) : bool :=
  negb (all_chars (fun x => negb (Ascii.eqb x c)) s).

(** The double and the single quotation mark. *)
Definition dquote : ascii := ascii_of_nat 34.
Definition squote : ascii := ascii_of_nat 39.

(** [s] between double quotation marks. *)
Definition quoted (s : string) : string :=
  String dquote (s +:+ String dquote EmptyString).

(** Decimal rendering of an integer, as a template literal prints it. *)
Definition showZ (z : Z) : string := NilEmpty.string_of_int (Z.to_int z).
Definition showNat (n : nat) : string := showZ (Z.of_nat n).

End Text.

(** ** GherkinAgent: dynamic placeholders *)

Module Placeholders.
Import Text.

(** What one call of [generateRandomEmail] reads from its environment:
    [Date.now()], the six base-36 characters cut out of [Math.random()], and
    [Math.floor(Math.random() * domains.length)]. *)
Record Draw := { now : Z; randomStr : string; domainIdx : nat }.

(** The supply of draws; the state threaded through the substitution pass is
    the number of draws consumed so far. *)
Definition Entropy := nat -> Draw.

Definition domains : list string := ["test.com"; "example.com"; "random.test"; "qa.test"].

Definition generateRandomEmail (d : Draw) : string :=
  "user_" +:+ randomStr d +:+ "_" +:+ showZ (now d) +:+ "@"
    +:+ nth (domainIdx d) domains "undefined".

(** [/<email>/gi], [/<random_email>/gi], [/\{\{email\}\}/gi] *)
Definition emailPatterns : list string := ["<email>"; "<random_email>"; "{{email}}"].

(** The first pattern of the list that [test]s positive on the value. *)
Fixpoint firstMatching (pats : list string) (value : string) : option string :=
  match pats with
  | [] => None
  | p :: ps => if occurs true p value then Some p else firstMatching ps value
  end.

Definition replacePlaceholder (E : Entropy) (value : string) (n : nat) : string * nat :=
  match firstMatching emailPatterns value with
  | Some pat => (replaceAll true pat (generateRandomEmail (E n)) value, S n)
  | None => (value, n)
  end.

(** [forEach] with a threaded counter. *)
Fixpoint forEachSt {A : Type} (f : A -> nat -> A * nat) (l : list A) (n : nat)
  : list A * nat :=
  match l with
  | [] => ([], n)
  | x :: rest =>
      let '(x', n1) := f x n in
      let '(rest', n2) := forEachSt f rest n1 in
      (x' :: rest', n2)
  end.

Definition truthy (s : string) : bool := negb (String.eqb s "").

Definition processField (E : Entropy) (kf : string * Field) (n : nat)
  : (string * Field) * nat :=
  match kf with
  | (k, FieldObj sel v) =>
      if truthy v
      then let '(v', n') := replacePlaceholder E v n in ((k, FieldObj sel v'), n')
      else (kf, n)
  | (k, FieldStr s) =>
      let '(s', n') := replacePlaceholder E s n in ((k, FieldStr s'), n')
  | (k, FieldOther) => (kf, n)
  end.

(** The body of the inner [forEach] of [processDynamicPlaceholders] on
    [step.data]; a field map lists its entries in [Object.keys] order. *)
Definition processData (E : Entropy) (d : Data) (n : nat) : Data * nat :=
  match d with
  | DataNull => (DataNull, n)
  | DataStr s =>
      if truthy s
      then let '(s', n') := replacePlaceholder E s n in (DataStr s', n')
      else (d, n)
  | DataArr items =>
      let '(items', n') := forEachSt (replacePlaceholder E) items n in (DataArr items', n')
  | DataMap fields =>
      let '(fields', n') := forEachSt (processField E) fields n in (DataMap fields', n')
  end.

Definition processStep (E : Entropy) (s : Step) (n : nat) : Step * nat :=
  let '(d, n') := processData E (data s) n in
  ({| gherkinStep := gherkinStep s; action := action s; selector := selector s;
      data := d; description := description s; validation := validation s |}, n').

Definition processScenario (E : Entropy) (sc : Scenario) (n : nat) : Scenario * nat :=
  let '(ss, n') := forEachSt (processStep E) (steps sc) n in
  ({| name := name sc; context := context sc; steps := ss |}, n').

Definition processDynamicPlaceholders (E : Entropy) (p : ExecutionPlan) (n : nat)
  : ExecutionPlan * nat :=
  let '(scs, n') := forEachSt (processScenario E) (scenarios p) n in
  ({| feature := feature p; pdescription := pdescription p; scenarios := scs;
      type := type p; tags := tags p; language := language p |}, n').

(** Syntactic validity of an address [local@domain]: a non-empty local part
    of letters, digits, [.], [_], [-] and [+]; exactly one [@]; a domain of
    letters, digits, [.] and [-] that holds a dot and neither starts nor ends
    with one. *)
Definition local_char (c : ascii) : bool :=
  is_alnum c || Ascii.eqb c "." || Ascii.eqb c "_" || Ascii.eqb c "-" || Ascii.eqb c "+".
Definition domain_char (c : ascii) : bool :=
  is_alnum c || Ascii.eqb c "." || Ascii.eqb c "-".
Definition not_at (c : ascii) : bool := negb (Ascii.eqb c "@").

Definition valid_domain (d : string) : bool :=
  all_chars domain_char d && has_char "." d
  && negb (startsWith d ".") && negb (startsWith (String.rev d) ".").

Definition valid_email (s : string) : bool :=
  let loc := takeWhile not_at s in
  match dropWhile not_at s with
  | String _ dom => truthy loc && all_chars local_char loc && valid_domain dom
  | EmptyString => false
  end.

(** A well-formed draw: [toString(36)] yields digits and lower-case letters,
    at most six of them are kept, and the index is within [domains]. *)
Definition base36_char (c : ascii) : bool := is_digit c || is_lower c.
Definition wf_draw (d : Draw) : bool :=
  all_chars base36_char (randomStr d) && (String.length (randomStr d) <=? 6)%nat
  && (domainIdx d <? 4)%nat.

Definition same_draw (a b : Draw) : Prop :=
  now a = now b /\ randomStr a = randomStr b /\ domainIdx a = domainIdx b.

End Placeholders.

(** ** GherkinAgent: the Gherkin document and scenario-outline expansion *)

Module Outline.
Import Text.

(** The part of the [@cucumber/messages] syntax tree the agent reads. *)
Record GStep := {
  keyword : string;
  text : string;
  dataTable : option (list (list string))
}.

(** [tableBody] is always an array; [tableHeader] is absent for an
    [Examples:] block without a table. *)
Record Examples := {
  tableHeader : option (list string);
  tableBody : list (list string)
}.

Record GScenario := {
  sname : string;
  ssteps : list GStep;
  examples : list Examples
}.

(** A child of the feature: a scenario, or a background or rule (whose
    [scenario] member is undefined). *)
Inductive Child :=
| ChildScenario (s : GScenario)
| ChildOther.

Record Feature := {
  fname : string;
  fdescription : string;
  flanguage : string;
  ftags : list string;
  children : list Child
}.

Record GherkinDocument := { dfeature : option Feature }.

(** The entries of the [scenarios] array that [buildInterpretationPrompt]
    serialises into the request. *)
Record PromptStep := {
  pkeyword : string;
  ptext : string;
  pdataTable : option (list (list string))
}.
Record PromptScenario := { psname : string; pssteps : list PromptStep }.

(** The variable parts of the request text. *)
Record Prompt := {
  prFeature : string;
  prDescription : string;
  prScenarios : list PromptScenario
}.

(** Characters with a meaning of their own in a regular expression source. *)
Definition metachar (c : ascii) : bool :=
  existsb (Ascii.eqb c)
    ["\"; "^"; "$"; "."; "*"; "+"; "?"; "("; ")"; "["; "]"; "{"; "}"; "|"]%char.
Definition literal_source (src : string) : bool :=
  all_chars (fun c => negb (metachar c)) src.
Definition dollar_free (s : string) : bool :=
  all_chars (fun c => negb (Ascii.eqb c "$")) s.

(** [subject.replace(new RegExp(source, 'g'), replacement)].  [None] is the
    [SyntaxError] of the constructor.  The regular-expression engine is an
    interface; all that is used of it is its behaviour on sources without
    metacharacters and replacements without [$]. *)
Class RegExpEngine := {
  replace_g : string -> string -> string -> option string;
  replace_g_literal : forall source replacement subject,
    literal_source source = true -> dollar_free replacement = true ->
    source <> EmptyString ->
    replace_g source replacement subject
      = Some (replaceAll false source replacement subject)
}.

(** The own properties of [paramMap], in insertion order: a new key goes
    last, an existing key keeps its place. *)
Fixpoint define (k v : string) (m : list (string * string)) : list (string * string) :=
  match m with
  | [] => [(k, v)]
  | (k', v') :: rest =>
      if String.eqb k k' then (k, v) :: rest else (k', v') :: define k v rest
  end.

(** [paramMap[header] = values[i]] on an object literal.  The key
    [__proto__] is the accessor inherited from [Object.prototype]: its setter
    ignores a value that is neither an object nor [null], so the assignment
    of a cell value (a string or [undefined]) leaves the object as it was.
    Every other key becomes an own property of [paramMap]. *)
Definition assign (k v : string) (m : list (string * string)) : list (string * string) :=
  if String.eqb k "__proto__" then m else define k v m.

Fixpoint buildParamMap (headers : list string) (values : list string) (i : nat)
  (m : list (string * string)) : list (string * string) :=
  match headers with
  | [] => m
  | h :: hs => buildParamMap hs values (S i) (assign h (nth i values "undefined") m)
  end.

Definition paramMap (headers values : list string) : list (string * string) :=
  buildParamMap headers values 0 [].

(** A key that is an array index: a canonical decimal numeral below
    [2^32 - 1]. *)
Definition canonicalNumeral (k : string) : bool :=
  all_chars is_digit k && negb (String.eqb k "")
  && (String.eqb k "0" || negb (startsWith k "0")).

Definition arrayIndex (k : string) : option N :=
  if canonicalNumeral k
  then match NilEmpty.uint_of_string k with
       | Some u => let n := N.of_uint u in
                   if (n <? 4294967295)%N then Some n else None
       | None => None
       end
  else None.

Fixpoint insertIndex (e : N * string) (l : list (N * string)) : list (N * string) :=
  match l with
  | [] => [e]
  | e' :: rest => if (fst e <=? fst e')%N then e :: l else e' :: insertIndex e rest
  end.

(** [Object.keys]: array-index keys in ascending numeric order, then the other
    keys in insertion order. *)
Definition objectKeys (m : list (string * string)) : list string :=
  let ks := map fst m in
  let idx := fold_right
               (fun k acc => match arrayIndex k with
                             | Some n => insertIndex (n, k) acc
                             | None => acc
                             end) [] ks in
  map snd idx
  ++ List.filter (fun k => match arrayIndex k with Some _ => false | None => true end) ks.

Fixpoint lookupParam (k : string) (m : list (string * string)) : string :=
  match m with
  | [] => "undefined"
  | (k', v) :: rest => if String.eqb k k' then v else lookupParam k rest
  end.

(** The [forEach] over [Object.keys(paramMap)] that rewrites one step text. *)
Fixpoint expandParams {engine : RegExpEngine} (m : list (string * string)) (keys : list string)
  (txt : string) : option string :=
  match keys with
  | [] => Some txt
  | param :: rest =>
      match replace_g ("<" +:+ param +:+ ">") (lookupParam param m) txt with
      | Some txt' => expandParams m rest txt'
      | None => None
      end
  end.

Definition expandText {engine : RegExpEngine} (m : list (string * string)) (txt : string)
  : option string :=
  expandParams m (objectKeys m) txt.

(** [map] whose callback may throw. *)
Fixpoint mapM {A B : Type} (f : A -> option B) (l : list A) : option (list B) :=
  match l with
  | [] => Some []
  | x :: rest =>
      match f x with
      | Some y => match mapM f rest with
                  | Some ys => Some (y :: ys)
                  | None => None
                  end
      | None => None
      end
  end.

Definition expandStep {engine : RegExpEngine} (m : list (string * string)) (s : GStep)
  : option PromptStep :=
  match expandText m (text s) with
  | Some t => Some {| pkeyword := trim (keyword s); ptext := t; pdataTable := dataTable s |}
  | None => None
  end.

Definition exampleName (scenarioName : string) (index : nat) : string :=
  scenarioName +:+ " (Example " +:+ showNat (index + 1) +:+ ")".

(** [exampleTable.tableBody.forEach((row, index) => ...)] from row [index]. *)
Fixpoint expandRows {engine : RegExpEngine} (sc : GScenario) (headers : list string)
  (rows : list (list string)) (index : nat) : option (list PromptScenario) :=
  match rows with
  | [] => Some []
  | row :: rest =>
      match mapM (expandStep (paramMap headers row)) (ssteps sc) with
      | Some ss =>
          match expandRows sc headers rest (S index) with
          | Some more =>
              Some ({| psname := exampleName (sname sc) index; pssteps := ss |} :: more)
          | None => None
          end
      | None => None
      end
  end.

Definition expandTable {engine : RegExpEngine} (sc : GScenario) (t : Examples)
  : option (list PromptScenario) :=
  match tableHeader t with
  | Some headers => expandRows sc headers (tableBody t) 0
  | None => Some []
  end.

Definition plainStep (s : GStep) : PromptStep :=
  {| pkeyword := trim (keyword s); ptext := text s; pdataTable := dataTable s |}.

(** What one scenario contributes to the request. *)
Definition promptScenario {engine : RegExpEngine} (sc : GScenario) : option (list PromptScenario) :=
  match examples sc with
  | [] => Some [{| psname := sname sc; pssteps := map plainStep (ssteps sc) |}]
  | tables =>
      match mapM (expandTable sc) tables with
      | Some parts => Some (concat parts)
      | None => None
      end
  end.

Definition scenariosOf (f : Feature) : list GScenario :=
  flat_map (fun c => match c with ChildScenario s => [s] | ChildOther => [] end) (children f).

(** [buildInterpretationPrompt]; [None] when a [RegExp] constructor throws. *)
Definition buildInterpretationPrompt {engine : RegExpEngine} (f : Feature) : option Prompt :=
  match mapM promptScenario (scenariosOf f) with
  | Some parts =>
      Some {| prFeature := fname f; prDescription := fdescription f;
              prScenarios := concat parts |}
  | None => None
  end.












(** The engine that reads every source as literal text. *)
Definition literalEngine : RegExpEngine :=
  {| replace_g := fun source replacement subject =>
       Some (replaceAll false source replacement subject);
     replace_g_literal := fun source replacement subject _ _ _ => eq_refl |}.

End Outline.

(** ** GherkinAgent: the keyword heuristic (fallback interpretation) *)

Module Heuristic.
Import Text Outline.

Definition guessAction (keyword text : string) : string :=
  let lowerText := toLowerCase text in
  if String.eqb (trim keyword) "Given" then
    if includes lowerText "navig" || includes lowerText "visit" || includes lowerText "open"
    then "navigate" else "setup"
  else if String.eqb (trim keyword) "When" then
    if includes lowerText "click" || includes lowerText "press" then "click"
    else if includes lowerText "type" || includes lowerText "enter" || includes lowerText "fill"
    then "type"
    else if includes lowerText "select" then "select"
    else "action"
  else if String.eqb (trim keyword) "Then" then "validate"
  else "action".

(** The group of [q([^q]+)q] when the opening quote has just been read: a
    non-empty run without [q], closed by [q]. *)
Definition quotedAt (q : ascii) (s : string) : option string :=
  let run := takeWhile (fun c => negb (Ascii.eqb c q)) s in
  match run, dropWhile (fun c => negb (Ascii.eqb c q)) s with
  | String _ _, String _ _ => Some run
  | _, _ => None
  end.

(** [text.match(/q([^q]+)q/)]: the leftmost match. *)
Fixpoint firstQuoted (q : ascii) (s : string) : option string :=
  match s with
  | EmptyString => None
  | String c s' =>
      if Ascii.eqb c q then
        match quotedAt q s' with
        | Some run => Some run
        | None => firstQuoted q s'
        end
      else firstQuoted q s'
  end.

(** One-or-more characters of class [cls] after [prefix], as matched at the
    head of [s]. *)
Definition prefixedRun (prefix : string) (cls : ascii -> bool) (s : string) : option string :=
  if startsWith s prefix then
    match takeWhile cls (drop (String.length prefix) s) with
    | EmptyString => None
    | run => Some (prefix +:+ run)
    end
  else None.

Definition non_white (c : ascii) : bool := negb (is_white c).
Definition path_char (c : ascii) : bool :=
  is_alnum c || Ascii.eqb c "/" || Ascii.eqb c "_" || Ascii.eqb c "-".

(** [(https?:\/\/[^\s]+|\/cls+)] at the head of [s]: alternatives in order,
    the optional [s] of [https] first taken, then left out. *)
Definition urlAt (cls : ascii -> bool) (s : string) : option string :=
  match prefixedRun "https://" non_white s with
  | Some m => Some m
  | None =>
      match prefixedRun "http://" non_white s with
      | Some m => Some m
      | None => prefixedRun "/" cls s
      end
  end.

Fixpoint firstUrl (cls : ascii -> bool) (s : string) : option string :=
  match urlAt cls s with
  | Some m => Some m
  | None => match s with
            | EmptyString => None
            | String _ s' => firstUrl cls s'
            end
  end.

Definition guessSelector (text : string) : option string :=
  match firstQuoted dquote text with
  | Some g => Some g
  | None =>
      match firstQuoted squote text with
      | Some g => Some g
      | None => firstUrl non_white text
      end
  end.

Definition is_quote (c : ascii) : bool := Ascii.eqb c dquote || Ascii.eqb c squote.

Fixpoint stripQuotes (s : string) : string :=
  match s with
  | EmptyString => EmptyString
  | String c s' => if is_quote c then stripQuotes s' else String c (stripQuotes s')
  end.

(** [text.match(/"([^"]+)"|'([^']+)'/g)] followed by
    [m.replace(/['"]/g, '')] on every match; [skip] counts the characters of
    the current match still to be passed over. *)
Fixpoint quotedAll (skip : nat) (s : string) : list string :=
  match s with
  | EmptyString => []
  | String c s' =>
      match skip with
      | S k => quotedAll k s'
      | O =>
          if is_quote c then
            match quotedAt c s' with
            | Some run => stripQuotes run :: quotedAll (String.length run + 1) s'
            | None => quotedAll 0 s'
            end
          else quotedAll 0 s'
      end
  end.

Definition extractData (text : string) : Data :=
  match quotedAll 0 text with
  | [] =>
      match firstUrl path_char text with
      | Some u => DataStr u
      | None => DataNull
      end
  | ms => DataArr ms
  end.

Record Interpretation := { testType : string; iscenarios : list Scenario }.

Definition basicStep (s : GStep) : Step :=
  {| gherkinStep := keyword s +:+ text s;
     action := guessAction (keyword s) (text s);
     selector := guessSelector (text s);
     data := extractData (text s);
     description := text s;
     validation := None |}.

Definition basicScenario (sc : GScenario) : Scenario :=
  {| name := sname sc; context := "web"; steps := map basicStep (ssteps sc) |}.

Definition basicInterpretation (f : Feature) : Interpretation :=
  {| testType := "web"; iscenarios := map basicScenario (scenariosOf f) |}.

End Heuristic.

(** ** GherkinAgent: the plan cache *)

Module Cache.

(** The content of a cache file, [{ featureFile, contentHash, timestamp,
    plan }]; [timestamp] is the instant [toISOString] recorded, in
    milliseconds since the epoch. *)
Record CacheData := {
  featureFile : string;
  contentHash : string;
  timestamp : Z;
  plan : ExecutionPlan
}.

(** A file of the cache directory: one that [JSON.parse] rejects, or an
    entry. *)
Inductive CacheFile :=
| Corrupt
| Stored (d : CacheData).

(** The cache directory, by file path; [readOnly] makes [writeFileSync]
    throw. *)
Record FileSystem := {
  files : gmap string CacheFile;
  readOnly : bool
}.

(** Library functions of the agent: [crypto]'s MD5 digest and the path
    computation [path.join(cacheDir, basename + '.cache.json')]. *)
Class Library := {
  generateHash : string -> string;
  getCacheFilePath : string -> string;
  basename : string -> string
}.

(** [7 * 24 * 60 * 60 * 1000] *)
Definition maxAge : Z := 7 * 24 * 60 * 60 * 1000.

Definition getCachedPlan {lib : Library} (fs : FileSystem) (featureFilePath content : string)
  (now : Z) : option ExecutionPlan :=
  match files fs !! getCacheFilePath featureFilePath with
  | None => None                       (* existsSync is false *)
  | Some Corrupt => None               (* the catch block *)
  | Some (Stored cached) =>
      if negb (String.eqb (contentHash cached) (generateHash content)) then None
      else
        let cacheAge := (now - timestamp cached)%Z in
        if (cacheAge >? maxAge)%Z then None
        else Some (plan cached)
  end.

Definition saveToCache {lib : Library} (fs : FileSystem) (featureFilePath content : string)
  (p : ExecutionPlan) (now : Z) : FileSystem :=
  if readOnly fs then fs               (* the catch block: a warning only *)
  else
    {| files := <[ getCacheFilePath featureFilePath :=
                   Stored {| featureFile := basename featureFilePath;
                             contentHash := generateHash content;
                             timestamp := now;
                             plan := p |} ]> (files fs);
       readOnly := readOnly fs |}.

End Cache.

(** ** GherkinAgent.parseAndPlan *)

Module Compiler.
Import Text Placeholders Outline Heuristic Cache.

(** A reply of [openai.chat.completions.create]: a thrown error, or the
    message content ([null] allowed). *)
Inductive OracleReply :=
| OracleThrows (msg : string)
| OracleContent (content : option string).

(** The collaborators of one agent: the Gherkin parser (a document, or the
    message of the error it throws), the reasoning oracle, [JSON.parse] on
    its reply, and the supply of random draws.  The reply is read as an
    interpretation, the object the system prompt asks for, whose [scenarios]
    are an array of scenarios with their [steps]; [None] is a [SyntaxError].
    A reply that parses to a value of another shape is outside this
    model. *)
Class Services := {
  parser_parse : string -> GherkinDocument + string;
  complete : Prompt -> OracleReply;
  JSON_parse : string -> option Interpretation;
  entropy : Entropy
}.

Record Config := { enableCache : bool; forceRegenerate : bool }.

(** Mutable state across calls: the cache directory and the number of random
    draws consumed. *)
Record State := { fs : FileSystem; drawn : nat }.

(** Instants read from the clock during one call: at the cache lookup and at
    the cache write. *)
Record Clock := { lookupTime : Z; saveTime : Z }.

Section Agent.

Context {engine : RegExpEngine} {lib : Library} {svc : Services}.

(** [parseGherkinFile]: a feature, or the thrown message.  Whatever is
    thrown inside the try block, by the parser or for the missing feature,
    is thrown again with its message behind a fixed prefix. *)
Definition parseGherkinFile (content : string) : Feature + string :=
  match parser_parse content with
  | inl {| dfeature := Some f |} => inl f
  | inl {| dfeature := None |} =>
      inr ("Failed to parse Gherkin: " +:+ "No feature found in Gherkin document")
  | inr msg => inr ("Failed to parse Gherkin: " +:+ msg)
  end.

(** The outcome of the try block of [interpretWithAI]. *)
Definition oracleInterpretation (p : Prompt) : option Interpretation :=
  match complete p with
  | OracleThrows _ => None
  | OracleContent None => None
  | OracleContent (Some content) =>
      if truthy content then JSON_parse content else None
  end.

(** [interpretWithAI]: the prompt is built outside the try block, so an error
    there escapes (the [SyntaxError] of a [RegExp] constructor, given here by
    the first words of its message); any error inside the try block leads to
    [basicInterpretation]. *)
Definition interpretWithAI (f : Feature) : Interpretation + string :=
  match buildInterpretationPrompt f with
  | None => inr "Invalid regular expression"
  | Some prompt =>
      match oracleInterpretation prompt with
      | Some interpretation => inl interpretation
      | None => inl (basicInterpretation f)
      end
  end.

Definition freshPlan (f : Feature) (i : Interpretation) : ExecutionPlan :=
  {| feature := fname f; pdescription := fdescription f;
     scenarios := iscenarios i; type := testType i;
     tags := ftags f; language := flanguage f |}.

Definition cacheLookup (cfg : Config) (st : State) (featureFilePath content : string)
  (clk : Clock) : option ExecutionPlan :=
  if enableCache cfg && negb (forceRegenerate cfg)
  then getCachedPlan (fs st) featureFilePath content (lookupTime clk)
  else None.

(** [parseAndPlan] on the text read from [featureFilePath].  The generated
    Playwright file is written inside a try/catch of its own, next to the
    cache files, and has no bearing on the returned plan. *)
Definition parseAndPlan (cfg : Config) (featureFilePath content : string) (clk : Clock)
  (st : State) : (ExecutionPlan + string) * State :=
  match cacheLookup cfg st featureFilePath content clk with
  | Some cachedPlan =>
      let '(p, n) := processDynamicPlaceholders entropy cachedPlan (drawn st) in
      (inl p, {| fs := fs st; drawn := n |})
  | None =>
      match parseGherkinFile content with
      | inr msg => (inr msg, st)
      | inl f =>
          match interpretWithAI f with
          | inr msg => (inr msg, st)
          | inl executionPlan =>
              let plan := freshPlan f executionPlan in
              let fs' := if enableCache cfg
                         then saveToCache (fs st) featureFilePath content plan (saveTime clk)
                         else fs st in
              let '(p, n) := processDynamicPlaceholders entropy plan (drawn st) in
              (inl p, {| fs := fs'; drawn := n |})
          end
      end
  end.

End Agent.

(** The target selectors of a list of scenarios, step by step. *)
Definition selectorsOf (l : list Scenario) : list (list (option string)) :=
  map (fun sc => map selector (steps sc)) l.

Definition actionsOf (l : list Scenario) : list (list string) :=
  map (fun sc => map action (steps sc)) l.

End Compiler.

(** ** WebExecutorAgent: sessions with the page and the vision oracle *)

Module Vision.
Import Text.

Record VField := { label : string; fieldSelector : string; fieldValue : string }.

(** Interface [VisionResult]; every member is optional. *)
Record VisionResult := {
  strategy : option string;
  vselector : option string;
  dropdownSelector : option string;
  actualText : option string;
  reasoning : option string;
  confidence : option string;
  fields : option (list VField);
  found : option bool
}.

(** The calls made on the Playwright page.  A locator is named by its
    selector ([None]: [undefined]).  [waitForTimeout] takes a number:
    [WaitForTimeout] for a finite one, [WaitForTimeoutInfinity] for
    [Infinity] and [-Infinity]. *)
Inductive PageOp :=
| Screenshot
| Goto (url : string)
| Locator (sel : option string)
| WaitFor (sel : option string) (state : string) (timeout : Z)
| LocatorAll (sel : string)
| IsVisible (sel : string)
| ScrollIntoView (sel : option string)
| HumanDelay
| Click (sel : option string)
| EvaluateClick (sel : option string)
| Fill (sel : option string) (txt : option string)
| TypeText (sel : option string) (txt : option string)
| TagName (sel : option string)
| SelectOption (sel : option string) (by_ : string) (val : option string)
| Hover (sel : string)
| WaitForTimeout (ms : Z)
| WaitForTimeoutInfinity (negative : bool)
| WaitForLoadState (state : string) (timeout : option Z)
| RaceLoadStates
| AngularStable
| TextContent (sel : string)
| PageUrl
| PageTitle
| PageContent.

(** The page answers a call according to the calls made before it (oldest
    first).  [acts] gives [None] when the call completes and the thrown
    message otherwise; queries give a value or a thrown message. *)
Class Page := {
  acts : list PageOp -> PageOp -> option string;
  isVisible : list PageOp -> string -> bool + string;
  allCount : list PageOp -> string -> nat + string;
  textContent : list PageOp -> string -> option string + string;
  tagName : list PageOp -> option string -> string + string
}.

(** A request to the oracle: the instruction, the action type that selects
    the prompt, and the data quoted in it. *)
Record Query := { instruction : string; actionType : string; dataToType : Data }.

Inductive OracleReply :=
| OracleThrows (msg : string)
| OracleContent (content : option string).

(** The outside of the executor: the page, the vision oracle (answering the
    query made after the queries [asked] so far), [JSON.parse] read as a
    [VisionResult] ([None]: it throws), and the environment: [USE_VISION],
    [WEB_APP_URL] and [new URL(...).origin] ([None]: it throws). *)
Class World := {
  page :: Page;
  vision : list Query -> Query -> OracleReply;
  JSON_parse : string -> option VisionResult;
  useVision : bool;
  webAppUrl : option string;
  originOf : string -> option string
}.

(** What a run has done so far: page calls and oracle queries, oldest
    first. *)
Record Session := { ops : list PageOp; asked : list Query }.

(** A computation reads and extends the session, writes console lines, and
    returns a value or throws a message. *)
Record Outcome (A : Type) := {
  value : A + string;
  session : Session;
  console : list string
}.
Arguments value {A}.
Arguments session {A}.
Arguments console {A}.

Definition M (A : Type) : Type := Session -> Outcome A.

Definition ret {A : Type} (a : A) : M A :=
  fun s => {| value := inl a; session := s; console := [] |}.

Definition throw {A : Type} (msg : string) : M A :=
  fun s => {| value := inr msg; session := s; console := [] |}.

Definition bind {A B : Type} (m : M A) (k : A -> M B) : M B :=
  fun s =>
    let r := m s in
    match value r with
    | inl a =>
        let r' := k a (session r) in
        {| value := value r'; session := session r'; console := console r ++ console r' |}
    | inr msg => {| value := inr msg; session := session r; console := console r |}
    end.

(** [try { m } catch (e) { ... }]: the thrown message becomes a value. *)
Definition attempt {A : Type} (m : M A) : M (A + string) :=
  fun s =>
    let r := m s in
    {| value := inl (value r); session := session r; console := console r |}.

Definition log (line : string) : M unit :=
  fun s => {| value := inl tt; session := s; console := [line] |}.

Declare Scope exec_scope.
Delimit Scope exec_scope with exec.
Notation "'let*' x ':=' m 'in' k" := (bind m (fun x => k))
  (at level 10, x name, m at level 100, k at level 200) : exec_scope.
Notation "m ';;' k" := (bind m (fun _ => k))
  (at level 100, k at level 200, right associativity) : exec_scope.
Local Open Scope exec_scope.

Section Primitives.

Context {pg : Page}.

Definition record (op : PageOp) (s : Session) : Session :=
  {| ops := ops s ++ [op]; asked := asked s |}.

Definition act (op : PageOp) : M unit :=
  fun s =>
    {| value := match acts (ops s) op with
                | None => inl tt
                | Some msg => inr msg
                end;
       session := record op s; console := [] |}.

Definition visible (sel : string) : M bool :=
  fun s => {| value := isVisible (ops s) sel;
              session := record (IsVisible sel) s; console := [] |}.

Definition countAll (sel : string) : M nat :=
  fun s => {| value := allCount (ops s) sel;
              session := record (LocatorAll sel) s; console := [] |}.

Definition readText (sel : string) : M (option string) :=
  fun s => {| value := textContent (ops s) sel;
              session := record (TextContent sel) s; console := [] |}.

Definition readTagName (sel : option string) : M string :=
  fun s => {| value := tagName (ops s) sel;
              session := record (TagName sel) s; console := [] |}.

End Primitives.

(** The text before and after the first occurrence of [pat]. *)
Fixpoint splitOn (pat s : string) : option (string * string) :=
  if matches_at false pat s
  then Some (EmptyString, drop (String.length pat) s)
  else match s with
       | EmptyString => None
       | String c s' =>
           match splitOn pat s' with
           | Some (before, after) => Some (String c before, after)
           | None => None
           end
       end.

Definition newline : string := String (ascii_of_nat 10) EmptyString.
Definition fenceOpen : string := "```json" +:+ newline.
Definition fenceClose : string := newline +:+ "```".

(** The match of the fence pattern (three backquotes, [json], a line feed,
    the shortest text, a line feed, three backquotes): the whole match and
    its group. *)
Definition fencedJson (content : string) : option (string * string) :=
  match splitOn fenceOpen content with
  | Some (_, rest) =>
      match splitOn fenceClose rest with
      | Some (inner, _) => Some (fenceOpen +:+ inner +:+ fenceClose, inner)
      | None => None
      end
  | None => None
  end.

(** The text up to and including the last closing brace of [s]. *)
Definition throughLastBrace (s : string) : option string :=
  match dropWhile (fun c => negb (Ascii.eqb c "}")) (String.rev s) with
  | EmptyString => None
  | kept => Some (String.rev kept)
  end.

(** The match of the brace pattern: from the first opening brace to the last
    closing brace. *)
Definition bracedJson (content : string) : option string :=
  match dropWhile (fun c => negb (Ascii.eqb c "{")) content with
  | String b rest =>
      match throughLastBrace rest with
      | Some inner => Some (String b inner)
      | None => None
      end
  | EmptyString => None
  end.

(** [jsonMatch ? (jsonMatch[1] || jsonMatch[0]) : content] *)
Definition extractJson (content : string) : string :=
  match fencedJson content with
  | Some (whole, inner) => if String.eqb inner EmptyString then whole else inner
  | None =>
      match bracedJson content with
      | Some whole => whole
      | None => content
      end
  end.

(** An optional string inside a template literal. *)
Definition orEmpty (o : option string) : string :=
  match o with Some s => s | None => "undefined" end.

Definition truthyOpt (o : option string) : bool :=
  match o with Some s => negb (String.eqb s EmptyString) | None => false end.

(** A rendering of the result for the console (in place of
    [JSON.stringify]). *)
Definition showResult (v : VisionResult) : string :=
  "{selector: " +:+ orEmpty (vselector v) +:+ ", confidence: " +:+ orEmpty (confidence v)
  +:+ ", reasoning: " +:+ orEmpty (reasoning v) +:+ "}".

Section Resolve.

Context {W : World}.

(** [openai.chat.completions.create] followed by
    [response.choices[0].message.content]. *)
Definition ask (q : Query) : M (option string) :=
  fun s =>
    {| value := match vision (asked s) q with
                | OracleThrows msg => inr msg
                | OracleContent c => inl c
                end;
       session := {| ops := ops s; asked := asked s ++ [q] |};
       console := [] |}.

(** The try block of [executeActionWithVision]. *)
Definition resolveOnce (q : Query) : M VisionResult :=
  act Screenshot ;;
  let* content := ask q in
  match content with
  | None => throw "No content in Vision AI response"
  | Some c =>
      if String.eqb c EmptyString then throw "No content in Vision AI response"
      else
        match JSON_parse (extractJson c) with
        | None =>
            log ("Failed to parse Vision AI response: " +:+ c) ;;
            throw "Vision AI returned invalid JSON"
        | Some v =>
            log ("Vision AI found: "
                 +:+ (if truthyOpt (vselector v) then orEmpty (vselector v) else showResult v)) ;;
            log ("Confidence: " +:+ orEmpty (confidence v)
                 +:+ ", Reason: " +:+ orEmpty (reasoning v)) ;;
            ret v
        end
  end.

Definition executeActionWithVision (instr actionTy : string) (payload : Data)
  : M VisionResult :=
  log ("Using Vision AI: " +:+ instr) ;;
  let* r := attempt (resolveOnce {| instruction := instr; actionType := actionTy;
                                    dataToType := payload |}) in
  match r with
  | inl v => ret v
  | inr msg => log ("Vision AI error: " +:+ msg) ;; throw msg
  end.

End Resolve.

End Vision.

(** ** WebExecutorAgent: the actions and [executeStep] *)

Module Executor.
Import Text Vision.
Local Open Scope exec_scope.

Record StepResult := {
  success : bool;
  rstep : string;
  raction : string;
  error : option string;
  detail : option string        (* [navigated], [clicked], [typed], ... *)
}.

(** [Array.isArray(step.data) ? step.data[0] : step.data], as an argument of
    a page call ([None]: not a string) and inside a template literal. *)
Definition dataFirst (d : Data) : option string :=
  match d with
  | DataStr s => Some s
  | DataArr (x :: _) => Some x
  | _ => None
  end.

Definition firstText (d : Data) : string :=
  match d with
  | DataStr s => s
  | DataArr (x :: _) => x
  | DataArr [] => "undefined"
  | DataNull => "null"
  | DataMap _ => "[object Object]"
  end.

(** [String(step.data)] *)
Definition dataText (d : Data) : string :=
  match d with
  | DataStr s => s
  | DataArr items => String.concat "," items
  | DataNull => "null"
  | DataMap _ => "[object Object]"
  end.

Definition instructionOf (st : Step) : string :=
  if String.eqb (description st) EmptyString then gherkinStep st else description st.

(** The loop state of the fallbacks of [click]: the locator held in
    [element] ([None]: [null]) and [finalSelector]. *)
Record Located := { element : option (option string); finalSelector : string }.

Section PageActions.

Context {pg : Page}.

(** [smartWait]: both waits are inside try/catch. *)
Definition smartWait : M unit :=
  let* _ := attempt
    (act (WaitForLoadState "domcontentloaded" None) ;;
     let* _ := attempt (act (WaitForLoadState "networkidle" (Some 2000%Z))) in
     ret tt) in
  ret tt.

Definition waitForAngular : M unit :=
  let* _ := attempt (act AngularStable) in ret tt.

(** *** click *)

(** [for (const alt of alternatives)] of strategy 1: [element] is assigned
    before [waitFor] is awaited, so a failed wait leaves the locator in
    place. *)
Fixpoint tryAlternatives (alts : list string) (st : Located) : M Located :=
  match alts with
  | [] => ret st
  | alt :: rest =>
      let* r := attempt (act (Locator (Some alt))) in
      match r with
      | inr _ => tryAlternatives rest st
      | inl _ =>
          let st1 := {| element := Some (Some alt); finalSelector := finalSelector st |} in
          let* w := attempt (act (WaitFor (Some alt) "attached" 2000)) in
          match w with
          | inl _ =>
              log ("Found using alternative: " +:+ alt) ;;
              ret {| element := Some (Some alt); finalSelector := alt |}
          | inr _ => tryAlternatives rest st1
          end
      end
  end.

(** [for (const sel of genericSelectors)] of strategy 2. *)
Fixpoint tryGeneric (sels : list string) (st : Located) : M Located :=
  match sels with
  | [] => ret st
  | sel :: rest =>
      let* n := attempt (countAll sel) in
      match n with
      | inl (S _) =>
          let* r := attempt (act (Locator (Some sel))) in
          match r with
          | inr _ => tryGeneric rest st
          | inl _ =>
              let st1 := {| element := Some (Some sel); finalSelector := finalSelector st |} in
              let* w := attempt (act (WaitFor (Some sel) "visible" 2000)) in
              match w with
              | inl _ =>
                  log ("Found generic button: " +:+ sel) ;;
                  ret {| element := Some (Some sel); finalSelector := sel |}
              | inr _ => tryGeneric rest st1
              end
          end
      | _ => tryGeneric rest st
      end
  end.

(** The group of the pattern [q([^q]+)q] on the selector, where [q] is
    either quotation mark. *)
Fixpoint anyQuoted (s : string) : option string :=
  match s with
  | EmptyString => None
  | String c s' =>
      if Heuristic.is_quote c then
        match takeWhile (fun x => negb (Heuristic.is_quote x)) s',
              dropWhile (fun x => negb (Heuristic.is_quote x)) s' with
        | String a run, String _ _ => Some (String a run)
        | _, _ => anyQuoted s'
        end
      else anyQuoted s'
  end.

Definition textAlternatives (sel : string) : list string :=
  let textContent := match anyQuoted sel with
                     | Some t => t
                     | None => replaceFirst "text=" EmptyString sel
                     end in
  ["button:has-text('" +:+ textContent +:+ "')";
   "[role='button']:has-text('" +:+ textContent +:+ "')";
   "a:has-text('" +:+ textContent +:+ "')"].

Definition genericSelectors : list string :=
  ["button:visible"; "[role=" +:+ quoted "button" +:+ "]:visible"; "a.button:visible"].

Definition isTextSelector (sel : option string) : bool :=
  match sel with
  | Some s => negb (String.eqb s EmptyString)
              && (includes s ":has-text" || startsWith s "text=")
  | None => false
  end.

(** The catch block of the first [try] of [click]; [held] is what [element]
    holds when the exception is caught. *)
Definition locateFallback (sel : option string) (held : Located) : M Located :=
  log "Vision selector failed, trying generic fallbacks..." ;;
  let* st1 := (if isTextSelector sel
               then tryAlternatives (textAlternatives (orEmpty sel)) held
               else ret held) in
  let* st2 := (match element st1 with
               | None => log "Trying generic button detection..." ;;
                         tryGeneric genericSelectors st1
               | Some _ => ret st1
               end) in
  match element st2 with
  | None => throw ("Could not find clickable element. Vision suggested: " +:+ orEmpty sel)
  | Some _ => ret st2
  end.

(** Locate phase of [click] on the selector the oracle proposed. *)
Definition locate (sel : option string) : M Located :=
  let start := {| element := None;
                  finalSelector := if truthyOpt sel then orEmpty sel else EmptyString |} in
  let* r := attempt (act (Locator sel)) in
  match r with
  | inr _ => locateFallback sel start
  | inl _ =>
      let held := {| element := Some sel; finalSelector := finalSelector start |} in
      let* w := attempt (act (WaitFor sel "attached" 5000)) in
      match w with
      | inl _ => log "Element found using Vision selector" ;; ret held
      | inr _ => locateFallback sel held
      end
  end.

(** Act phase: the interactive click, then the DOM-level click. *)
Definition performClick (el : option string) : M unit :=
  let* r := attempt
    (act (WaitFor el "visible" 5000) ;;
     act (ScrollIntoView el) ;;
     act HumanDelay ;;
     act (Click el) ;;
     log "Clicked successfully") in
  match r with
  | inl _ => ret tt
  | inr normalClickError =>
      log ("Normal click failed: " +:+ normalClickError) ;;
      log "Trying JavaScript direct click..." ;;
      let* j := attempt (act (EvaluateClick el)) in
      match j with
      | inl _ => log "JavaScript click executed"
      | inr jsError =>
          log ("JavaScript click also failed: " +:+ jsError) ;;
          throw ("Could not click element: " +:+ normalClickError)
      end
  end.

Definition settleAfterClick : M unit :=
  smartWait ;;
  let* r := attempt (act RaceLoadStates ;; waitForAngular ;; act (WaitForTimeout 1000)) in
  match r with
  | inl _ => ret tt
  | inr _ => log "No navigation detected, continuing..."
  end.

(** [click] once the oracle has answered [v]. *)
Definition clickWith (v : VisionResult) : M string :=
  log ("Clicking: " +:+ orEmpty (vselector v)) ;;
  let* loc := locate (vselector v) in
  performClick (match element loc with Some el => el | None => None end) ;;
  settleAfterClick ;;
  ret (finalSelector loc).

(** [click] without vision. *)
Definition clickPlain (st : Step) : M string :=
  let sel := if truthyOpt (selector st) then orEmpty (selector st)
             else "button:has-text(" +:+ quoted (dataText (data st)) +:+ ")" in
  act (Locator (Some sel)) ;;
  act (WaitFor (Some sel) "visible" 10000) ;;
  act (Click (Some sel)) ;;
  ret sel.

(** *** type *)

(** [s.replace(/\s+/g, sep)] *)
Fixpoint collapseWhite (sep : string) (inRun : bool) (s : string) : string :=
  match s with
  | EmptyString => EmptyString
  | String c s' =>
      if is_white c
      then (if inRun then collapseWhite sep true s' else sep +:+ collapseWhite sep true s')
      else String c (collapseWhite sep false s')
  end.

Definition fieldPatterns (lbl : string) : list string :=
  ["input[placeholder*=" +:+ quoted lbl +:+ " i]";
   "input[name*=" +:+ quoted (collapseWhite "-" false (toLowerCase lbl)) +:+ " i]";
   "input[name*=" +:+ quoted (collapseWhite "_" false (toLowerCase lbl)) +:+ " i]";
   "mat-form-field:has-text(" +:+ quoted lbl +:+ ") input";
   "label:has-text(" +:+ quoted lbl +:+ ") + input";
   "label:has-text(" +:+ quoted lbl +:+ ") input"].

(** A loop over candidate selectors that keeps the first locator that
    becomes visible within [timeout]; as in [click], the variable is assigned
    before the wait. *)
Fixpoint tryVisible (what : string) (timeout : Z) (sels : list string)
  (held : option (option string)) : M (option (option string)) :=
  match sels with
  | [] => ret held
  | sel :: rest =>
      let* r := attempt (act (Locator (Some sel))) in
      match r with
      | inr _ => tryVisible what timeout rest held
      | inl _ =>
          let* w := attempt (act (WaitFor (Some sel) "visible" timeout)) in
          match w with
          | inl _ => log (what +:+ sel) ;; ret (Some (Some sel))
          | inr _ => tryVisible what timeout rest (Some (Some sel))
          end
      end
  end.

Definition locateField (f : VField) : M (option string) :=
  let sel := Some (fieldSelector f) in
  let fallback (held : option (option string)) : M (option string) :=
    log "Vision selector not found, trying alternatives..." ;;
    let* el := tryVisible "Found using pattern: " 1000 (fieldPatterns (label f)) held in
    match el with
    | None => throw ("Could not find input field for " +:+ quoted (label f))
    | Some e => ret e
    end in
  let* r := attempt (act (Locator sel)) in
  match r with
  | inr _ => fallback None
  | inl _ =>
      let* w := attempt (act (WaitFor sel "visible" 2000)) in
      match w with
      | inl _ => log "Found using Vision selector" ;; ret sel
      | inr _ => fallback (Some sel)
      end
  end.

Definition browserClosed : string := "Target page, context or browser has been closed".

Definition fillField (f : VField) (el : option string) : M unit :=
  let* r := attempt
    (act (ScrollIntoView el) ;;
     act (Click el) ;;
     act (Fill el (Some EmptyString)) ;;
     act (TypeText el (Some (fieldValue f))) ;;
     log ("Filled " +:+ quoted (label f) +:+ " with " +:+ quoted (fieldValue f))) in
  match r with
  | inl _ => ret tt
  | inr fillError =>
      if includes fillError browserClosed then
        log ("Browser closed unexpectedly while filling " +:+ quoted (label f)) ;;
        log "This usually means the application crashed or navigated unexpectedly" ;;
        throw "Browser closed - check if your application is running correctly"
      else throw fillError
  end.

Definition typeField (f : VField) : M unit :=
  let* r := attempt
    (log ("Filling " +:+ quoted (label f) +:+ " using selector: " +:+ fieldSelector f) ;;
     let* el := locateField f in
     fillField f el) in
  match r with
  | inl _ => ret tt
  | inr msg =>
      log ("Error filling " +:+ quoted (label f) +:+ ": " +:+ msg) ;;
      throw msg
  end.

Fixpoint typeFields (fs : list VField) : M unit :=
  match fs with
  | [] => ret tt
  | f :: rest => typeField f ;; typeFields rest
  end.

(** [type] on a field map, once the oracle has answered [v]. *)
Definition typeManyWith (v : VisionResult) : M string :=
  let fs := match fields v with Some l => l | None => [] end in
  typeFields fs ;;
  ret (String.concat "," (map label fs)).

(** [type] on a single value, once the oracle has answered [v]. *)
Definition typeOneWith (txt : option string) (v : VisionResult) : M string :=
  match fields v with
  | None => throw "Cannot read properties of undefined (reading '0')"
  | Some [] => throw "Cannot read properties of undefined (reading 'selector')"
  | Some (f :: _) =>
      let el := Some (fieldSelector f) in
      act (Locator el) ;;
      act (WaitFor el "visible" 5000) ;;
      act (ScrollIntoView el) ;;
      act (Click el) ;;
      act (Fill el (Some EmptyString)) ;;
      act (TypeText el txt) ;;
      ret (orEmpty txt)
  end.

Definition typePlain (st : Step) : M string :=
  let txt := dataFirst (data st) in
  let sel := if truthyOpt (selector st) then orEmpty (selector st) else "input" in
  act (Locator (Some sel)) ;;
  act (Fill (Some sel) txt) ;;
  ret (orEmpty txt).

(** *** select *)

Definition dropdownSelectors : list string :=
  ["select"; "[role=" +:+ quoted "listbox" +:+ "]"; ".mat-select"; ".dropdown";
   "button:has-text(" +:+ quoted "Select" +:+ ")"].

Definition optionPatterns (val : string) : list string :=
  ["[role=" +:+ quoted "option" +:+ "]:has-text(" +:+ quoted val +:+ ")";
   "option:has-text(" +:+ quoted val +:+ ")";
   "li:has-text(" +:+ quoted val +:+ ")";
   "div:has-text(" +:+ quoted val +:+ ")";
   "text=" +:+ quoted val].

Definition locateTrigger (sel : option string) : M (option string) :=
  let fallback (held : option (option string)) (e : string) : M (option string) :=
    log ("Vision selector '" +:+ orEmpty sel +:+ "' failed, trying generic fallbacks...") ;;
    let* t := tryVisible "Found generic dropdown: " 2000 dropdownSelectors held in
    match t with
    | None => throw e
    | Some x => ret x
    end in
  let* r := attempt (act (Locator sel)) in
  match r with
  | inr e => fallback None e
  | inl _ =>
      let* w := attempt (act (WaitFor sel "visible" 10000)) in
      match w with
      | inl _ => ret sel
      | inr e => fallback (Some sel) e
      end
  end.

(** [for (const pattern of optionPatterns)]; the value is [optionClicked]. *)
Fixpoint tryOptions (val : string) (pats : list string) : M bool :=
  match pats with
  | [] => ret false
  | pat :: rest =>
      let* r := attempt
        (act (Locator (Some pat)) ;;
         act (WaitFor (Some pat) "visible" 3000) ;;
         act (Click (Some pat))) in
      match r with
      | inl _ =>
          log ("Selected " +:+ quoted val +:+ " using pattern: " +:+ pat) ;; ret true
      | inr _ => tryOptions val rest
      end
  end.

(** [select] once the oracle has answered [v]. *)
Definition selectWith (d : Data) (v : VisionResult) : M string :=
  log ("Vision AI strategy: " +:+ orEmpty (dropdownSelector v)) ;;
  let* r := attempt
    (let* _ := attempt (act (WaitForLoadState "networkidle" (Some 5000%Z))) in
     let* trigger := locateTrigger (dropdownSelector v) in
     act (ScrollIntoView trigger) ;;
     let* tag := readTagName trigger in
     if String.eqb tag "select" then
       let* byLabel := attempt (act (SelectOption trigger "label" (dataFirst d))) in
       (match byLabel with
        | inl _ => ret tt
        | inr _ => act (SelectOption trigger "value" (dataFirst d))
        end) ;;
       log ("Selected " +:+ quoted (firstText d) +:+ " using native select") ;;
       ret (firstText d)
     else
       act (Click trigger) ;;
       act (WaitForTimeout 1000) ;;
       let* optionClicked := tryOptions (firstText d) (optionPatterns (firstText d)) in
       if optionClicked then ret (firstText d)
       else throw ("Could not find option " +:+ quoted (firstText d) +:+ " in dropdown")) in
  match r with
  | inl x => ret x
  | inr msg => log ("Select failed: " +:+ msg) ;; throw msg
  end.

Definition selectPlain (d : Data) : M string :=
  act (Locator (Some "select")) ;;
  act (SelectOption (Some "select") "option" (dataFirst d)) ;;
  ret (firstText d).

(** *** validate *)

(** The text searched by an [exists] check:
    [validation.expected || step.selector]. *)
Definition searchTextOf (st : Step) (v : Validation) : string :=
  if negb (String.eqb (expected v) EmptyString) then expected v
  else match selector st with Some s => s | None => "null" end.

Definition strategies (searchText : string) : list string :=
  ["text=" +:+ quoted searchText; "*:has-text(" +:+ quoted searchText +:+ ")"].

(** [for (const strategy of strategies)] inside the try block. *)
Fixpoint anyVisible (sels : list string) : M bool :=
  match sels with
  | [] => ret false
  | sel :: rest =>
      let* b := visible sel in
      if b then ret true else anyVisible rest
  end.

(** One pass of the body of the [while] loop; the value is [found]. *)
Definition domRound (searchText : string) : M (bool + string) :=
  attempt
    (let* found := anyVisible (strategies searchText) in
     if found then ret true
     else act (WaitForTimeout 1000) ;; ret false).

Definition maxRetries : nat := 5.

(** [while (!found && retryCount < maxRetries)], with [left] the retries
    still allowed. *)
Fixpoint domRetries (searchText : string) (left : nat) : M bool :=
  match left with
  | O => ret false
  | S k =>
      let* r := domRound searchText in
      match r with
      | inl true => ret true
      | inl false => domRetries searchText k     (* retryCount++ after the wait *)
      | inr _ => domRetries searchText k         (* retryCount++ in the catch *)
      end
  end.

Definition notFoundMessage (searchText : string) : string :=
  "Expected text " +:+ quoted searchText +:+ " not found on page".

Definition isConfirmationMessage (searchText : string) : bool :=
  includes (toLowerCase searchText) "order is complete"
  || includes (toLowerCase searchText) "confirmation"
  || includes (toLowerCase searchText) "success".

(** [actual]: the text of the step's selector when it has one and can be
    found, of the body otherwise. *)
Definition captureActual (st : Step) : M (option string) :=
  if truthyOpt (selector st) then
    let sel := orEmpty (selector st) in
    let* r := attempt
      (act (Locator (Some sel)) ;;
       act (WaitFor (Some sel) "attached" 10000) ;;
       readText sel) in
    match r with
    | inl t => ret t
    | inr _ => readText "body"
    end
  else readText "body".

(** What [validate] does before the switch on [validation.type]. *)
Definition prepareValidation (st : Step) (v : Validation) : M (option string) :=
  log ("Validating: " +:+ vtype v) ;;
  smartWait ;;
  let searchText :=
    if negb (String.eqb (expected v) EmptyString) then expected v
    else if truthyOpt (selector st) then orEmpty (selector st) else EmptyString in
  (if isConfirmationMessage searchText
   then log "Waiting extra time for confirmation message to appear..." ;;
        act (WaitForTimeout 4000)
   else act (WaitForTimeout 2000)) ;;
  captureActual st.

(** The [equals] and [contains] cases. *)
Definition compareText (v : Validation) (actual : option string) : M unit :=
  if String.eqb (vtype v) "equals" then
    match actual with
    | Some a => if String.eqb a (expected v) then ret tt
                else throw ("Expected " +:+ quoted (expected v)
                            +:+ " but found " +:+ quoted a)
    | None => throw ("Expected " +:+ quoted (expected v)
                     +:+ " but found " +:+ quoted "null")
    end
  else if String.eqb (vtype v) "contains" then
    match actual with
    | Some a => if includes a (expected v) then ret tt
                else throw ("Expected text to contain " +:+ quoted (expected v))
    | None => throw ("Expected text to contain " +:+ quoted (expected v))
    end
  else ret tt.

(** *** navigate, wait, hover, scroll *)

Fixpoint digitsValue (base : Z) (digit : ascii -> option Z) (acc : Z) (s : string)
  : Z * nat :=
  match s with
  | EmptyString => (acc, 0)
  | String c s' =>
      match digit c with
      | Some d => let '(z, n) := digitsValue base digit (base * acc + d)%Z s' in (z, S n)
      | None => (acc, 0)
      end
  end.

Definition decDigit (c : ascii) : option Z :=
  if is_digit c then Some (Z.of_nat (nat_of_ascii c - 48)) else None.

Definition hexDigit (c : ascii) : option Z :=
  if is_digit c then Some (Z.of_nat (nat_of_ascii c - 48))
  else if (97 <=? nat_of_ascii c)%nat && (nat_of_ascii c <=? 102)%nat
  then Some (Z.of_nat (nat_of_ascii c - 87))
  else if (65 <=? nat_of_ascii c)%nat && (nat_of_ascii c <=? 70)%nat
  then Some (Z.of_nat (nat_of_ascii c - 55))
  else None.

(** *** Numbers

    The numbers [parseInt] returns, [NaN] apart: an integer that is a double,
    or an infinity. *)
Inductive Number :=
| Finite (z : Z)
| Infinity (negative : bool).

(** The double nearest to the integer [z]: below [2^53] in absolute value the
    integer itself; from there on the 53 leading bits, rounded to nearest
    with ties to the even significand; an infinity once the rounded value
    reaches [2^1024]. *)
Definition toDouble (z : Z) : Number :=
  let a := Z.abs z in
  if (a <? 2 ^ 53)%Z then Finite z
  else
    let e := (Z.log2 a - 52)%Z in
    let q := Z.shiftr a e in
    let r := Z.land a (Z.ones e) in
    let half := Z.shiftl 1 (e - 1) in
    let q' := if (r >? half)%Z || ((r =? half)%Z && Z.odd q) then (q + 1)%Z else q in
    let v := Z.shiftl q' e in
    if (v >=? 2 ^ 1024)%Z then Infinity (z <? 0)%Z
    else Finite (Z.sgn z * v)%Z.

(** The number of decimal digits of a positive integer. *)
Definition digitCount (a : Z) : nat := String.length (showZ a).

(** [Number::toString] on a double [a >= 2^53]: the decimal with the fewest
    significant digits that [toDouble] reads back as [a], the closest to [a]
    when there are two.  With [k] significant digits the candidates are the
    multiples of [10^(n-k)] on either side of [a]. *)
Fixpoint shortestFrom (a : Z) (n : nat) (k : nat) (fuel : nat) : Z :=
  match fuel with
  | O => a
  | S fuel' =>
      let unit := (10 ^ Z.of_nat (n - k))%Z in
      let lo := (a / unit * unit)%Z in
      let hi := (lo + unit)%Z in
      let reads c := match toDouble c with
                     | Finite v => (v =? a)%Z
                     | _ => false
                     end in
      match reads lo, reads hi with
      | true, true => if (a - lo <=? hi - a)%Z then lo else hi
      | true, false => lo
      | false, true => hi
      | false, false => shortestFrom a n (S k) fuel'
      end
  end.

Definition shortest (a : Z) : Z := shortestFrom a (digitCount a) 1 17.

(** The significant digits of a decimal numeral: without the zeros at its
    end. *)
Definition significand (digits : string) : string :=
  dropWhileEnd (fun c => Ascii.eqb c "0") digits.

(** [Number::toString] on a non-negative integer that is a double: the
    digits, and from [10^21] on the exponent form. *)
Definition showMagnitude (a : Z) : string :=
  if (a <? 2 ^ 53)%Z then showZ a
  else
    let m := shortest a in
    if (m <? 10 ^ 21)%Z then showZ m
    else
      let exponent := showNat (digitCount m - 1) in
      match significand (showZ m) with
      | String d EmptyString => String d ("e+" +:+ exponent)
      | String d more => String d ("." +:+ more +:+ "e+" +:+ exponent)
      | EmptyString => showZ m
      end.

(** A number inside a template literal. *)
Definition showNumber (n : Number) : string :=
  match n with
  | Infinity false => "Infinity"
  | Infinity true => "-Infinity"
  | Finite z => if (z <? 0)%Z then "-" +:+ showMagnitude (- z) else showMagnitude z
  end.

(** [parseInt(s)] without radix: white space is skipped, a sign is read, the
    prefix [0x] selects base 16, and the digits that follow are read as far
    as they go; without a digit the result is [NaN] ([None]). *)
Definition parseInt (s : string) : option Number :=
  let s1 := dropWhile is_white s in
  let '(sign, s2) := match s1 with
                     | String "-" r => ((-1)%Z, r)
                     | String "+" r => (1%Z, r)
                     | _ => (1%Z, s1)
                     end in
  let '(z, n) := if startsWith s2 "0x" || startsWith s2 "0X"
                 then digitsValue 16 hexDigit 0 (drop 2 s2)
                 else digitsValue 10 decDigit 0 s2 in
  match n with
  | O => None
  | S _ => Some (toDouble (sign * z)%Z)
  end.

(** [page.waitForTimeout(n)] *)
Definition waitForTimeout (n : Number) : PageOp :=
  match n with
  | Finite ms => WaitForTimeout ms
  | Infinity negative => WaitForTimeoutInfinity negative
  end.

(** [parseInt(step.data) || 1000]: [NaN] and zero are falsy. *)
Definition waitDuration (st : Step) : Number :=
  match parseInt (dataText (data st)) with
  | None | Some (Finite 0%Z) => Finite 1000
  | Some n => n
  end.

Definition wait (st : Step) : M string :=
  let duration := waitDuration st in
  log ("Waiting " +:+ showNumber duration +:+ "ms...") ;;
  act (waitForTimeout duration) ;;
  ret (showNumber duration).

Definition textSelector (st : Step) : string :=
  if truthyOpt (selector st) then orEmpty (selector st)
  else "text=" +:+ quoted (dataText (data st)).

Definition hover (st : Step) : M string :=
  act (Hover (textSelector st)) ;; ret (textSelector st).

Definition scroll (st : Step) : M string :=
  act (Locator (Some (textSelector st))) ;;
  act (ScrollIntoView (Some (textSelector st))) ;;
  ret (textSelector st).

Definition genericAction (st : Step) : M string :=
  log ("Unknown action type: " +:+ action st +:+ ", attempting generic handling") ;;
  ret "skipped".

(** [collectDiagnostics]: every page call is inside a try/catch. *)
Definition collectDiagnostics : M unit :=
  let* _ := attempt (act PageUrl ;; act PageTitle) in
  let* _ := attempt (act PageContent) in
  ret tt.

End PageActions.

Section Actions.

Context {W : World}.

Definition click (st : Step) : M string :=
  if useVision then
    let* v := executeActionWithVision (instructionOf st) "click" DataNull in
    clickWith v
  else clickPlain st.

Definition type (st : Step) : M string :=
  if useVision then
    act (WaitForTimeout 500) ;;
    waitForAngular ;;
    log "Taking fresh screenshot for Vision AI..." ;;
    match data st with
    | DataNull | DataMap _ =>
        log "Filling multiple fields using Vision AI..." ;;
        let* v := executeActionWithVision (instructionOf st) "type" (data st) in
        typeManyWith v
    | d =>
        let payload := DataMap [("value", match dataFirst d with
                                          | Some t => FieldStr t
                                          | None => FieldOther
                                          end)] in
        let* v := executeActionWithVision (instructionOf st) "type" payload in
        typeOneWith (dataFirst d) v
    end
  else typePlain st.

Definition select (st : Step) : M string :=
  log ("Selecting: " +:+ quoted (firstText (data st))) ;;
  if useVision then
    let payload := match dataFirst (data st) with
                   | Some t => DataStr t
                   | None => data st
                   end in
    let* v := executeActionWithVision (instructionOf st) "select" payload in
    selectWith (data st) v
  else selectPlain (data st).

(** The [exists] case of the switch. *)
Definition validateExists (searchText : string) : M unit :=
  log ("Waiting for " +:+ quoted searchText +:+ " to appear...") ;;
  let* found := domRetries searchText maxRetries in
  let* found2 :=
    (if negb found && useVision then
       log "Text not found in DOM, asking Vision AI..." ;;
       let* v := executeActionWithVision
                   ("Verify if the text " +:+ quoted searchText +:+ " is visible on the screen.")
                   "validate" DataNull in
       match Vision.found v with
       | Some true => log "Vision AI confirmed text is visible" ;; ret true
       | _ => ret found
       end
     else ret found) in
  if found2 then ret tt else throw (notFoundMessage searchText).

Definition validate (st : Step) : M string :=
  match validation st with
  | None => throw "No validation specified"
  | Some v =>
      let* actual := prepareValidation st v in
      (if String.eqb (vtype v) "exists" then validateExists (searchTextOf st v)
       else compareText v actual) ;;
      log "Validation passed" ;;
      ret "validated"
  end.

(** [step.data || step.selector] of [navigate]: a string, nothing, or a
    value without [startsWith]. *)
Definition urlOrPath (st : Step) : option string + string :=
  match data st with
  | DataStr s =>
      if negb (String.eqb s EmptyString) then inl (Some s)
      else inl (if truthyOpt (selector st) then selector st else None)
  | DataNull => inl (if truthyOpt (selector st) then selector st else None)
  | DataArr _ | DataMap _ => inr "urlOrPath.startsWith is not a function"
  end.

Definition navigate (st : Step) : M string :=
  match urlOrPath st with
  | inr typeError => throw typeError
  | inl target =>
      let* fullUrl :=
        (match target with
         | None => ret webAppUrl
         | Some u =>
             if startsWith u "http://" || startsWith u "https://" then ret (Some u)
             else if startsWith u "/" then
               let baseUrl := if truthyOpt webAppUrl then orEmpty webAppUrl
                              else "http://localhost:4200" in
               match originOf baseUrl with
               | Some base => ret (Some (base +:+ u))
               | None => throw "Invalid URL"
               end
             else ret webAppUrl
         end) in
      if truthyOpt fullUrl then
        log ("Navigating to: " +:+ orEmpty fullUrl) ;;
        act (Goto (orEmpty fullUrl)) ;;
        waitForAngular ;;
        ret (orEmpty fullUrl)
      else throw "No URL specified for navigation. Set WEB_APP_URL in .env or provide URL/path in step."
  end.

(** The switch of [executeStep]. *)
Definition dispatch (st : Step) : M string :=
  if String.eqb (action st) "navigate" then navigate st
  else if String.eqb (action st) "click" then click st
  else if String.eqb (action st) "type" then type st
  else if String.eqb (action st) "select" then select st
  else if String.eqb (action st) "validate" then validate st
  else if String.eqb (action st) "wait" then wait st
  else if String.eqb (action st) "hover" then hover st
  else if String.eqb (action st) "scroll" then scroll st
  else genericAction st.

Definition executeStep (st : Step) (stepIndex : nat) : M StepResult :=
  log ("Step " +:+ showNat (stepIndex + 1) +:+ ": " +:+ description st) ;;
  let* r := attempt (let* d := dispatch st in smartWait ;; act Screenshot ;; ret d) in
  match r with
  | inl d =>
      ret {| success := true; rstep := description st; raction := action st;
             error := None; detail := Some d |}
  | inr msg =>
      log ("Error in step: " +:+ msg) ;;
      let* _ := attempt (act Screenshot) in
      collectDiagnostics ;;
      ret {| success := false; rstep := description st; raction := action st;
             error := Some msg; detail := None |}
  end.

End Actions.

Definition start : Session := {| ops := []; asked := [] |}.

(** *** Reading a session *)

(** The two visibility checks of a round and the pause that ends it. *)
Definition textCheck (searchText : string) : PageOp :=
  IsVisible ("text=" +:+ quoted searchText).
Definition hasTextCheck (searchText : string) : PageOp :=
  IsVisible ("*:has-text(" +:+ quoted searchText +:+ ")").
Definition pause : PageOp := WaitForTimeout 1000.

Definition isTextCheck (searchText : string) (op : PageOp) : bool :=
  match op with
  | IsVisible sel => String.eqb sel ("text=" +:+ quoted searchText)
  | _ => false
  end.
Definition isHasTextCheck (searchText : string) (op : PageOp) : bool :=
  match op with
  | IsVisible sel => String.eqb sel ("*:has-text(" +:+ quoted searchText +:+ ")")
  | _ => false
  end.
Definition isPause (op : PageOp) : bool :=
  match op with
  | WaitForTimeout ms => (ms =? 1000)%Z
  | _ => false
  end.

Definition countOps (p : PageOp -> bool) (l : list PageOp) : nat :=
  length (List.filter p l).

(** A page on which no visibility check and no pause throws. *)
Definition calm (pg : Page) : Prop :=
  (forall h sel, exists b, isVisible h sel = inl b) /\
  (forall h, acts h pause = None).

(** Two results that differ at most in [reasoning] and [confidence]. *)
Definition same_but_advice (a b : VisionResult) : Prop :=
  strategy a = strategy b /\ vselector a = vselector b /\
  dropdownSelector a = dropdownSelector b /\ actualText a = actualText b /\
  fields a = fields b /\ found a = found b.

(** Two oracle replies that are read as results differing at most in
    [reasoning] and [confidence]. *)
Definition replies_agree (parse : string -> option VisionResult) (a b : OracleReply) : Prop :=
  match a, b with
  | OracleThrows m1, OracleThrows m2 => m1 = m2
  | OracleContent None, OracleContent None => True
  | OracleContent (Some c1), OracleContent (Some c2) =>
      (c1 = EmptyString <-> c2 = EmptyString) /\
      match parse (extractJson c1), parse (extractJson c2) with
      | Some v1, Some v2 => same_but_advice v1 v2
      | None, None => True
      | _, _ => False
      end
  | _, _ => False
  end.

End Executor.

(** ** Sample inputs *)

Module Samples.
Import Text Placeholders Outline Heuristic Cache Compiler.

(** Stand-ins for the library functions: any functions will do. *)
Definition library : Library := {|
  generateHash := fun s => "md5:" +:+ s;
  getCacheFilePath := fun p => ".features-cache/" +:+ p +:+ ".cache.json";
  basename := fun p => p
|}.

Definition registerStep : Step :=
  {| gherkinStep := "When I register with <email>"; action := "type";
     selector := Some EmptyString; data := DataStr "<email>";
     description := "Type a fresh address into the email field";
     validation := None |}.

Definition registerPlan : ExecutionPlan :=
  {| feature := "Register"; pdescription := EmptyString;
     scenarios := [{| name := "Sign up"; context := "web"; steps := [registerStep] |}];
     type := "web"; tags := []; language := "en" |}.

Definition featureText : string := "Feature: Register".

(** A cache directory whose entry for [register.feature] was written at
    instant [0] for the text [featureText]. *)
Definition cachedAtZero : FileSystem :=
  {| files := {[ @getCacheFilePath library "register.feature" :=
                 Stored {| featureFile := "register.feature";
                           contentHash := @generateHash library featureText;
                           timestamp := 0;
                           plan := registerPlan |} ]};
     readOnly := false |}.

Definition emptyFs : FileSystem := {| files := ∅; readOnly := false |}.

Definition registerFeature : Feature :=
  {| fname := "Register"; fdescription := EmptyString; flanguage := "en"; ftags := [];
     children :=
       [ChildOther;
        ChildScenario
          {| sname := "Sign up";
             ssteps := [{| keyword := "When ";
                           text := "I click the " +:+ quoted "Register" +:+ " button";
                           dataTable := None |};
                        {| keyword := "Then ";
                           text := "I should see " +:+ quoted "Welcome";
                           dataTable := None |}];
             examples := [] |}] |}.

(** What the sample oracle answers: a step that carries a selector although
    the request asks for none. *)
Definition eagerInterpretation : Interpretation :=
  {| testType := "web";
     iscenarios :=
       [{| name := "Sign up"; context := "Angular app";
           steps := [{| gherkinStep := "When I click the Register button";
                        action := "click"; selector := Some "#submit";
                        data := DataNull;
                        description := "Click on the Register button";
                        validation := None |}] |}] |}.

(** A scenario outline with two example rows; [<other>] names no column. *)
Definition loginOutline : GScenario :=
  {| sname := "Login";
     ssteps := [{| keyword := "Given ";
                   text := "I log in as <user> with <pw>";
                   dataTable := None |};
                {| keyword := "Then ";
                   text := "I see <other> for <user>";
                   dataTable := None |}];
     examples := [{| tableHeader := Some ["user"; "pw"];
                     tableBody := [["bob"; "x1"]; ["al"; "y2"]] |}] |}.



Definition sampleEntropy : Entropy :=
  fun n => {| now := 1700000000000 + Z.of_nat n; randomStr := "k3x9ab";
              domainIdx := n mod 4 |}.

Definition sampleParser (content : string) : GherkinDocument + string :=
  if String.eqb content featureText
  then inl {| dfeature := Some registerFeature |}
  else inr "Parser errors: (1:1): expected: #EOF, #Language, #TagLine, #FeatureLine, #Comment, #Empty".

(** An oracle that answers with [eagerInterpretation]. *)
Definition eagerOracle : Services :=
  {| parser_parse := sampleParser;
     complete := fun _ => OracleContent (Some "{eager}");
     JSON_parse := fun s => if String.eqb s "{eager}" then Some eagerInterpretation else None;
     entropy := sampleEntropy |}.

(** An oracle that cannot be reached. *)
Definition downOracle : Services :=
  {| parser_parse := sampleParser;
     complete := fun _ => OracleThrows "connect ECONNREFUSED";
     JSON_parse := fun _ => None;
     entropy := sampleEntropy |}.

Definition cachingOn : Config := {| enableCache := true; forceRegenerate := false |}.
Definition noon : Clock := {| lookupTime := 1700000000000; saveTime := 1700000000500 |}.
Definition freshState : State := {| fs := emptyFs; drawn := 0 |}.
Definition warmState : State := {| fs := cachedAtZero; drawn := 0 |}.
Definition dawn : Clock := {| lookupTime := 1000; saveTime := 1500 |}.

(** A page whose visibility checks throw (the page was closed, or the
    selector engine rejects the selector); every other call completes. *)
Definition closedPage : Vision.Page :=
  {| Vision.acts := fun _ _ => None;
     Vision.isVisible := fun _ _ => inr "Target page, context or browser has been closed";
     Vision.allCount := fun _ _ => inl 0;
     Vision.textContent := fun _ _ => inl None;
     Vision.tagName := fun _ _ => inl "div" |}.

Definition notFoundJson : string :=
  "{" +:+ quoted "found" +:+ ":false}".

Definition notFoundResult : Vision.VisionResult :=
  {| Vision.strategy := None; Vision.vselector := None;
     Vision.dropdownSelector := None; Vision.actualText := None;
     Vision.reasoning := Some "no such text on the screenshot"; Vision.confidence := None;
     Vision.fields := None; Vision.found := Some false |}.

(** The closed page with an oracle that reports the text as not found. *)
Definition closedWorld : Vision.World :=
  {| Vision.page := closedPage;
     Vision.vision := fun _ _ => Vision.OracleContent (Some notFoundJson);
     Vision.JSON_parse := fun s => if String.eqb s notFoundJson then Some notFoundResult else None;
     Vision.useVision := true;
     Vision.webAppUrl := Some "http://localhost:4200";
     Vision.originOf := fun u => Some u |}.

Definition dashboardCheck : Step :=
  {| gherkinStep := "Then I should see Dashboard"; action := "validate";
     selector := Some EmptyString; data := DataNull;
     description := "Validate that Dashboard text is visible";
     validation := Some {| vtype := "exists"; expected := "Dashboard" |} |}.

(** A page on which every call completes and nothing is ever visible. *)
Definition blankPage : Vision.Page :=
  {| Vision.acts := fun _ _ => None;
     Vision.isVisible := fun _ _ => inl false;
     Vision.allCount := fun _ _ => inl 0;
     Vision.textContent := fun _ _ => inl None;
     Vision.tagName := fun _ _ => inl "div" |}.

Definition okJson : string :=
  "{" +:+ quoted "selector" +:+ ":" +:+ quoted "#ok" +:+ "}".

Definition okResult : Vision.VisionResult :=
  {| Vision.strategy := None; Vision.vselector := Some "#ok";
     Vision.dropdownSelector := None; Vision.actualText := None;
     Vision.reasoning := None; Vision.confidence := None;
     Vision.fields := None; Vision.found := None |}.

(** An oracle that first answers in prose and from then on with [okJson],
    the one document the sample parser reads. *)
Definition proseThenJson : Vision.World :=
  {| Vision.page := blankPage;
     Vision.vision := fun asked _ =>
       match asked with
       | [] => Vision.OracleContent (Some "I cannot see that button")
       | _ => Vision.OracleContent (Some okJson)
       end;
     Vision.JSON_parse := fun s => if String.eqb s okJson then Some okResult else None;
     Vision.useVision := true;
     Vision.webAppUrl := Some "http://localhost:4200";
     Vision.originOf := fun u => Some u |}.

End Samples.

(** ** QAOrchestrator: features, the suite and the report *)

Module Suite.
Import Orchestrator.

(** Interface [FeatureResult] (without the instants). *)
Record FeatureResult := {
  featureFile : string;
  fscenarios : list ScenarioResult;
  fstatus : Status;
  ferror : option string
}.

(** The counters of [overallStats]; the three step counters are those
    [runScenario] updates. *)
Record SuiteStats := {
  totalFeatures : nat;
  totalScenarios : nat;
  stepStats : OverallStats
}.

(** An executor agent as the orchestrator uses it; [Some msg] is a thrown
    message. *)
Record Executor (World : Type) := {
  initialize : World -> option string * World;
  runStep : Step -> nat -> World -> (StepResult + string) * World;
  cleanup : World -> option string * World
}.
Arguments initialize {World}.
Arguments runStep {World}.
Arguments cleanup {World}.

(** The agents the orchestrator holds, and the file system its reports are
    written to ([writeReports]: the writes of [saveReport], for the results
    recorded). *)
Class Agents (World : Type) := {
  gherkin : string -> World -> (ExecutionPlan + string) * World;
  webExecutor : Executor World;
  salesforceExecutor : Executor World;
  diagnosticAgent : StepResult -> string -> World -> option Diagnostic * World;
  writeReports : list FeatureResult -> World -> option string * World
}.

(** Calls the orchestrator makes on its agents, as a ghost log. *)
Inductive Call :=
| Parse (file : string)
| Initialize (testType : string)
| Scenario_ (scenarioName : string)
| Cleanup (testType : string).

Section Orchestration.

Context {World : Type} {agents : Agents World}.

(** [selectExecutor] *)
Definition selectExecutor (testType : string) : Executor World :=
  if String.eqb testType "web" then webExecutor
  else if String.eqb testType "salesforce" then salesforceExecutor
  else if String.eqb testType "api" then webExecutor
  else webExecutor.

(** What [runScenario] needs of an executor. *)
Definition collaborators (e : Executor World) : Collaborators World :=
  {| executeStep := runStep e; analyzeFailure := diagnosticAgent |}.

(** The orchestrator's fields [results] and [overallStats], the world, and
    the ghost log. *)
Record RunState := {
  features : list FeatureResult;
  counters : SuiteStats;
  trace : list Call;
  sworld : World
}.

(** [for (const scenario of testPlan.scenarios)] of [runFeature]. *)
Fixpoint scenarioLoop (e : Executor World) (todo : list Scenario)
  (done : list ScenarioResult) (st : OverallStats) (tr : list Call) (w : World)
  : list ScenarioResult * OverallStats * list Call * World :=
  match todo with
  | [] => (done, st, tr, w)
  | sc :: rest =>
      let loop := runLoop (agents := collaborators e) sc st w in
      let res := runScenario (agents := collaborators e) sc st w in
      scenarioLoop e rest (done ++ [res]) (stats loop) (tr ++ [Scenario_ (name sc)])
        (world loop)
  end.

Definition allPassed (l : list ScenarioResult) : bool :=
  forallb (fun s => match status s with passed => true | _ => false end) l.

Definition withScenarios (c : SuiteStats) (n : nat) (st : OverallStats) : SuiteStats :=
  {| totalFeatures := totalFeatures c; totalScenarios := totalScenarios c + n;
     stepStats := st |}.

(** [runFeature]: the result is pushed on [results] on both paths; the catch
    block keeps the scenarios recorded so far. *)
Definition runFeature (file : string) (st : RunState) : RunState :=
  let finish (scs : list ScenarioResult) (status : Status) (err : option string)
             (c : SuiteStats) (tr : list Call) (w : World) : RunState :=
    {| features := features st ++ [{| featureFile := file; fscenarios := scs;
                                      fstatus := status; ferror := err |}];
       counters := c; trace := tr; sworld := w |} in
  let tr0 := trace st ++ [Parse file] in
  match gherkin file (sworld st) with
  | (inr msg, w1) => finish [] errored (Some msg) (counters st) tr0 w1
  | (inl testPlan, w1) =>
      let c1 := withScenarios (counters st) (length (scenarios testPlan))
                  (stepStats (counters st)) in
      let executor := selectExecutor (type testPlan) in
      let tr1 := tr0 ++ [Initialize (type testPlan)] in
      match initialize executor w1 with
      | (Some msg, w2) => finish [] errored (Some msg) c1 tr1 w2
      | (None, w2) =>
          let '(scs, steps', tr2, w3) :=
            scenarioLoop executor (scenarios testPlan) [] (stepStats c1) tr1 w2 in
          let c2 := withScenarios c1 0 steps' in
          let tr3 := tr2 ++ [Cleanup (type testPlan)] in
          match cleanup executor w3 with
          | (Some msg, w4) => finish scs errored (Some msg) c2 tr3 w4
          | (None, w4) =>
              finish scs (if allPassed scs then passed else failed) None c2 tr3 w4
          end
      end
  end.

(** The [summary] of the final report (without the rate and the instants,
    which are floating-point numbers and dates). *)
Record Summary := {
  sfeatures : nat;
  sscenarios : nat;
  stotalSteps : nat;
  spassed : nat;
  sfailed : nat
}.

(** [collectFeatureDiagnostics] *)
Definition collectFeatureDiagnostics (f : FeatureResult) : list Diagnostic :=
  flat_map (fun sc => flat_map (fun r => match diagnostic r with
                                         | Some d => [d]
                                         | None => []
                                         end) (rsteps sc))
           (fscenarios f).

(** [collectAllDiagnostics] *)
Definition collectAllDiagnostics (results : list FeatureResult) : list Diagnostic :=
  flat_map collectFeatureDiagnostics results.

Record Report := {
  summary : Summary;
  results : list FeatureResult;
  diagnostics : list Diagnostic
}.

(** [runTestSuite]: the features in order, then the report, which is returned
    once [saveReport] has written it; an error of [saveReport] is rethrown. *)
Definition runTestSuite (featureFiles : list string) (st : RunState)
  : (Report + string) * RunState :=
  let st0 := {| features := features st;
                counters := {| totalFeatures := length featureFiles;
                               totalScenarios := totalScenarios (counters st);
                               stepStats := stepStats (counters st) |};
                trace := trace st; sworld := sworld st |} in
  let st1 := fold_left (fun acc file => runFeature file acc) featureFiles st0 in
  let report :=
    {| summary := {| sfeatures := totalFeatures (counters st1);
                     sscenarios := totalScenarios (counters st1);
                     stotalSteps := totalSteps (stepStats (counters st1));
                     spassed := passedSteps (stepStats (counters st1));
                     sfailed := failedSteps (stepStats (counters st1)) |};
       results := features st1;
       diagnostics := collectAllDiagnostics (features st1) |} in
  match writeReports (features st1) (sworld st1) with
  | (Some msg, w) =>
      (inr msg, {| features := features st1; counters := counters st1;
                   trace := trace st1; sworld := w |})
  | (None, w) =>
      (inl report, {| features := features st1; counters := counters st1;
                      trace := trace st1; sworld := w |})
  end.

(** The state of a new orchestrator. *)
Definition fresh (w : World) : RunState :=
  {| features := [];
     counters := {| totalFeatures := 0; totalScenarios := 0;
                    stepStats := {| totalSteps := 0; passedSteps := 0; failedSteps := 0 |} |};
     trace := []; sworld := w |}.

(** The summary [saveReport] computes for one feature from its recorded
    results. *)
Record FeatureSummary := {
  fsScenarios : nat;
  fsTotalSteps : nat;
  fsPassed : nat;
  fsFailed : nat
}.

Definition featureSummary (f : FeatureResult) : FeatureSummary :=
  {| fsScenarios := length (fscenarios f);
     fsTotalSteps := fold_left (fun sum s => sum + length (rsteps s)) (fscenarios f) 0;
     fsPassed := fold_left (fun sum s => sum + length (List.filter (fun r => success r) (rsteps s)))
                           (fscenarios f) 0;
     fsFailed := fold_left (fun sum s => sum + length (List.filter (fun r => negb (success r))
                                                                   (rsteps s)))
                           (fscenarios f) 0 |}.

End Orchestration.

Arguments RunState World : clear implicits.

(** The exit status of the [run] command once the suite has been started:
    [report.summary.failed > 0 ? 1 : 0], and [1] from the catch block. *)
Definition exitCode (r : Report + string) : nat :=
  match r with
  | inl report => if (0 <? sfailed (summary report))%nat then 1 else 0
  | inr _ => 1
  end.

End Suite.

(** ** GherkinAgent.validatePlan *)

Module PlanCheck.
Import Text.

(** The result [{ valid, error }]. *)
Record Verdict := { valid : bool; verror : option string }.

(** [for (const scenario of plan.scenarios)]: the first scenario without
    steps ends the loop. *)
Fixpoint checkScenarios (l : list Scenario) : Verdict :=
  match l with
  | [] => {| valid := true; verror := None |}
  | scenario :: rest =>
      match steps scenario with
      | [] => {| valid := false;
                 verror := Some ("Scenario " +:+ quoted (name scenario) +:+ " has no steps") |}
      | _ :: _ => checkScenarios rest
      end
  end.

Definition validatePlan (plan : ExecutionPlan) : Verdict :=
  match scenarios plan with
  | [] => {| valid := false; verror := Some "No scenarios found" |}
  | _ :: _ => checkScenarios (scenarios plan)
  end.

(** A payload without email marker, in any of the three spellings. *)
Definition markerFree (s : string) : bool :=
  match Placeholders.firstMatching Placeholders.emailPatterns s with
  | Some _ => false
  | None => true
  end.

Definition cleanField (kf : string * Field) : bool :=
  match snd kf with
  | FieldObj _ v => markerFree v
  | FieldStr s => markerFree s
  | FieldOther => true
  end.

Definition cleanData (d : Data) : bool :=
  match d with
  | DataNull => true
  | DataStr s => markerFree s
  | DataArr items => forallb markerFree items
  | DataMap fields => forallb cleanField fields
  end.

Definition cleanPlan (p : ExecutionPlan) : bool :=
  forallb (fun sc => forallb (fun s => cleanData (data s)) (steps sc)) (scenarios p).

(** A step without its payload. *)
Definition withoutData (s : Step) : Step :=
  {| gherkinStep := gherkinStep s; action := action s; selector := selector s;
     data := DataNull; description := description s; validation := validation s |}.

End PlanCheck.

(** ** ReverseEngineerAgent: the migration cache and file names *)

Module Reverse.
Import Text.

(** An entry of the migration cache, [{ hash, processedAt, generatedFiles }]. *)
Record CacheEntry := {
  hash : string;
  processedAt : Z;
  generatedFiles : list string
}.

(** The cache object, keyed by the base name of the source file.  (Source
    files carry an extension, so no key is the name of a member of
    [Object.prototype].) *)
Definition MigrationCache := gmap string CacheEntry.

(** [path.basename], the SHA-256 digest and [fs.readFileSync] ([None]: it
    throws). *)
Class Env := {
  basename : string -> string;
  sha256 : string -> string;
  readFile : string -> option string
}.

Section Cache.

Context {env : Env}.

(** [calculateFileHash]; [None] when the file cannot be read. *)
Definition calculateFileHash (filePath : string) : option string :=
  match readFile filePath with
  | Some content => Some (sha256 content)
  | None => None
  end.

(** [needsProcessing]; [None] when reading the file throws. *)
Definition needsProcessing (forceRegeneration : bool) (filePath : string)
  (cache : MigrationCache) : option bool :=
  if forceRegeneration then Some true
  else
    match cache !! basename filePath with
    | None => Some true
    | Some cacheEntry =>
        match calculateFileHash filePath with
        | None => None
        | Some currentHash => Some (negb (String.eqb currentHash (hash cacheEntry)))
        end
    end.

(** [updateCache]: the cache object after the assignment ([saveCache] cannot
    throw); [None] when reading the file throws. *)
Definition updateCache (sourceFile : string) (files : list string) (now : Z)
  (cache : MigrationCache) : option MigrationCache :=
  match calculateFileHash sourceFile with
  | None => None
  | Some h =>
      Some (<[ basename sourceFile :=
               {| hash := h; processedAt := now; generatedFiles := files |} ]> cache)
  end.

End Cache.

(** *** sanitizeFileName *)

(** A line terminator, which [.] does not match (among ASCII characters). *)
Definition lineTerminator (c : ascii) : bool :=
  Ascii.eqb c (ascii_of_nat 10) || Ascii.eqb c (ascii_of_nat 13).

(** After an opening bracket: the number of characters up to and including
    the first closing bracket, when no line terminator comes before it. *)
Fixpoint tagLength (s : string) : option nat :=
  match s with
  | EmptyString => None
  | String c s' =>
      if Ascii.eqb c "]" then Some 1
      else if lineTerminator c then None
      else match tagLength s' with
           | Some n => Some (S n)
           | None => None
           end
  end.

(** [s.replace(/\[.*?\]/g, '')]; [skip] counts the characters of the current
    match still to be dropped. *)
Fixpoint removeTags (skip : nat) (s : string) : string :=
  match s with
  | EmptyString => EmptyString
  | String c s' =>
      match skip with
      | S k => removeTags k s'
      | O =>
          if Ascii.eqb c "["
          then match tagLength s' with
               | Some n => removeTags n s'
               | None => String c (removeTags 0 s')
               end
          else String c (removeTags 0 s')
      end
  end.

Definition fileChar (c : ascii) : bool := is_lower c || is_digit c.

(** [s.replace(/[^a-z0-9]+/g, '-')] *)
Fixpoint dashRuns (inRun : bool) (s : string) : string :=
  match s with
  | EmptyString => EmptyString
  | String c s' =>
      if fileChar c then String c (dashRuns false s')
      else if inRun then dashRuns true s'
      else String "-" (dashRuns true s')
  end.

Definition isDash (c : ascii) : bool := Ascii.eqb c "-".

(** [s.substring(0, n)] *)
Fixpoint take (n : nat) (s : string) : string :=
  match n, s with
  | S k, String c s' => String c (take k s')
  | _, _ => EmptyString
  end.

Definition sanitizeFileName (name : string) : string :=
  take 50
    (dropWhileEnd isDash
       (dropWhile isDash
          (dashRuns false (removeTags 0 (toLowerCase name))))).

End Reverse.

(** ** More sample inputs *)

Module Fixtures.
Import Text Orchestrator Suite.

(** Two readings of one advice: the same selector, with and without
    confidence. *)
Definition sureResult : Vision.VisionResult :=
  {| Vision.strategy := None; Vision.vselector := Some "#ok";
     Vision.dropdownSelector := None; Vision.actualText := None;
     Vision.reasoning := Some "the only button on the page";
     Vision.confidence := Some "high";
     Vision.fields := None; Vision.found := None |}.

Definition unsureResult : Vision.VisionResult :=
  {| Vision.strategy := None; Vision.vselector := Some "#ok";
     Vision.dropdownSelector := None; Vision.actualText := None;
     Vision.reasoning := Some "a guess"; Vision.confidence := Some "low";
     Vision.fields := None; Vision.found := None |}.

Definition adviceParse (s : string) : option Vision.VisionResult :=
  if String.eqb s "{sure}" then Some sureResult
  else if String.eqb s "{unsure}" then Some unsureResult
  else None.

(** A blank page with an oracle that is sure of its answer. *)
Definition sureWorld : Vision.World :=
  {| Vision.page := Samples.blankPage;
     Vision.vision := fun _ _ => Vision.OracleContent (Some "{sure}");
     Vision.JSON_parse := adviceParse;
     Vision.useVision := true;
     Vision.webAppUrl := Some "http://localhost:4200";
     Vision.originOf := fun u => Some u |}.

Definition unsureOracle (_ : list Vision.Query) (_ : Vision.Query) : Vision.OracleReply :=
  Vision.OracleContent (Some "{unsure}").

Definition clickOk : Step := mkStep "click" "click OK".

(** A plan with the three-step login scenario. *)
Definition loginPlan : ExecutionPlan :=
  {| feature := "Login"; pdescription := EmptyString; scenarios := [threeSteps];
     type := "web"; tags := []; language := "en" |}.

Definition scriptedExecutor : Executor (list (option bool)) :=
  {| initialize := fun w => (None, w);
     runStep := @executeStep _ scripted;
     cleanup := fun w => (None, w) |}.

(** Agents over the scripted executor: [broken.feature] cannot be parsed,
    every other file compiles to [loginPlan]; reports are always written. *)
Definition scriptedAgents : Agents (list (option bool)) :=
  {| gherkin := fun file w =>
       if String.eqb file "broken.feature"
       then (inr "Failed to parse Gherkin: No feature found in Gherkin document", w)
       else (inl loginPlan, w);
     webExecutor := scriptedExecutor;
     salesforceExecutor := scriptedExecutor;
     diagnosticAgent := fun _ _ w => (None, w);
     writeReports := fun _ w => (None, w) |}.

(** A plan with two scenarios: the three-step login and a one-step logout. *)
Definition signOut : Scenario :=
  {| name := "Logout"; context := "web"; steps := [mkStep "click" "click Sign Out"] |}.

Definition shopPlan : ExecutionPlan :=
  {| feature := "Shop"; pdescription := EmptyString; scenarios := [threeSteps; signOut];
     type := "web"; tags := []; language := "en" |}.

(** The scripted executor with a browser that is gone by the time of the
    cleanup. *)
Definition leakyExecutor : Executor (list (option bool)) :=
  {| initialize := fun w => (None, w);
     runStep := @executeStep _ scripted;
     cleanup := fun w => (Some "Target page, context or browser has been closed", w) |}.

(** Agents that compile every file to [shopPlan] and run it on the leaky
    executor. *)
Definition shopAgents : Agents (list (option bool)) :=
  {| gherkin := fun _ w => (inl shopPlan, w);
     webExecutor := leakyExecutor;
     salesforceExecutor := scriptedExecutor;
     diagnosticAgent := fun _ _ w => (None, w);
     writeReports := fun _ w => (None, w) |}.

(** A lookup one second after the cache write of [Samples.noon]. *)
Definition afterNoon : Compiler.Clock :=
  {| Compiler.lookupTime := 1700000001500; Compiler.saveTime := 1700000002000 |}.

(** A plan without markers. *)
Definition plainPlan : ExecutionPlan :=
  {| feature := "Login"; pdescription := EmptyString;
     scenarios := [{| name := "Sign in"; context := "web";
                      steps := [{| gherkinStep := "When I sign in as bob";
                                   action := "type"; selector := Some EmptyString;
                                   data := DataStr "bob"; description := "Type the user name";
                                   validation := None |}] |}];
     type := "web"; tags := []; language := "en" |}.

(** Two spec files with the same base name and different content. *)
Definition sampleEnv : Reverse.Env :=
  {| Reverse.basename := fun p => Text.drop 2 p;
     Reverse.sha256 := fun content => "sha256:" +:+ content;
     Reverse.readFile := fun p =>
       if String.eqb p "a/login.spec.ts" then Some "test one"
       else if String.eqb p "b/login.spec.ts" then Some "test two"
       else None |}.

End Fixtures.

(** * Properties *)

#[local] Arguments String.append !_ _ / : simpl nomatch.

(** ** The orchestration loop *)

Module OrchestratorFacts.
Import Orchestrator.

Section Loop.

Context {World : Type} {agents : Collaborators World}.

Definition all_passed (l : list StepResult) : Prop :=
  Forall (fun r => success r = true) l.

(** What the loop can end in, relative to the state it started from. *)
Inductive loop_end (st out : LoopState World) (i : nat) (todo : list Step) : Prop :=
| end_completed :
    lstatus out = running -> all_passed (results out) ->
    calls out = calls st ++ indexed i todo ->
    length (results out) = length (calls out) ->
    loop_end st out i todo
| end_failed k pre r :
    lstatus out = failed -> results out = pre ++ [r] ->
    all_passed pre -> success r = false ->
    calls out = calls st ++ firstn (S k) (indexed i todo) -> k < length todo ->
    length (results out) = length (calls out) ->
    loop_end st out i todo
| end_threw k :
    lstatus out = errored -> all_passed (results out) ->
    calls out = calls st ++ firstn (S k) (indexed i todo) -> k < length todo ->
    S (length (results out)) = length (calls out) ->
    loop_end st out i todo.

Lemma analyzeFailed_success r sc w :
  success (fst (analyzeFailed r sc w)) = success r.
Proof.
  unfold analyzeFailed. destruct (analyzeFailure r (name sc) w) as [[d|] w']; reflexivity.
Qed.

Lemma length_indexed i l : length (indexed i l) = length l.
Proof. revert i; induction l as [|s l IH]; intros i; simpl; [reflexivity | now rewrite IH]. Qed.

Lemma stepLoop_end sc todo : forall i st,
  lstatus st = running -> all_passed (results st) ->
  length (results st) = length (calls st) ->
  loop_end st (stepLoop sc todo i st) i todo.
Proof.
  induction todo as [|s rest IH]; intros i st Hrun Hall Hlen.
  - simpl. apply end_completed; auto. now rewrite app_nil_r.
  - simpl. destruct (executeStep s i (world st)) as [[r|msg] w1] eqn:Hexec.
    + destruct (success r) eqn:Hs.
      * set (st1 := {| results := results st ++ [r] |}).
        assert (H1 : loop_end st1 (stepLoop sc rest (S i) st1) (S i) rest).
        { apply IH; subst st1; simpl; auto.
          - apply Forall_app; split; auto.
          - rewrite !length_app; simpl; lia. }
        destruct H1 as [Hst Hp Hc Hl | k pre r0 Hst Hr Hp Hf Hc Hk Hl | k Hst Hp Hc Hk Hl].
        -- apply end_completed; auto.
           rewrite Hc; subst st1; simpl. now rewrite <- app_assoc.
        -- apply (end_failed _ _ _ _ (S k) pre r0); auto; simpl; try lia.
           rewrite Hc; subst st1; simpl. now rewrite <- app_assoc.
        -- apply (end_threw _ _ _ _ (S k)); auto; simpl; try lia.
           rewrite Hc; subst st1; simpl. now rewrite <- app_assoc.
      * destruct (analyzeFailed r sc w1) as [r' w2] eqn:Han.
        apply (end_failed _ _ _ _ 0 (results st) r'); simpl; auto; try lia.
        -- pose proof (analyzeFailed_success r sc w1) as E. rewrite Han in E. simpl in E. congruence.
        -- rewrite !length_app; simpl; lia.
    + apply (end_threw _ _ _ _ 0); simpl; auto; try lia.
      rewrite length_app; simpl; lia.
Qed.

Lemma runLoop_end sc stats0 w :
  loop_end {| results := []; lstatus := running; lerror := None;
              stats := stats0; calls := []; world := w |}
           (runLoop sc stats0 w) 0 (steps sc).
Proof. apply stepLoop_end; simpl; auto. constructor. Qed.

Lemma all_passed_lookup (l : list StepResult) k r :
  all_passed l -> l !! k = Some r -> success r = true.
Proof. intros Hall Hk. exact (proj1 (Forall_lookup _ l) Hall k r Hk). Qed.

Lemma status_of_loop sc stats0 w :
  status (runScenario sc stats0 w) =
  match lstatus (runLoop sc stats0 w) with running => passed | s => s end.
Proof. reflexivity. Qed.

Lemma indexed_app (i : nat) (a b : list Step) :
  indexed i (a ++ b) = indexed i a ++ indexed (i + length a) b.
Proof.
  revert i. induction a as [|s a IH]; intros i; simpl.
  - now rewrite Nat.add_0_r.
  - rewrite IH. do 3 f_equal. lia.
Qed.

(** [passes i w ss rs w']: the executor, handed the steps [ss] one after the
    other from index [i] on, the first in the world [w] and each of the
    others in the world the call before it left, returned the results [rs],
    each with [success = true], and left the world [w']. *)
Inductive passes : nat -> World -> list Step -> list StepResult -> World -> Prop :=
| passes_nil i w : passes i w [] [] w
| passes_cons i w s ss r rs w1 w' :
    executeStep s i w = (inl r, w1) -> success r = true ->
    passes (S i) w1 ss rs w' ->
    passes i w (s :: ss) (r :: rs) w'.

(** How the loop ends, in terms of the answers of the executor: after the
    steps [pre], all of which passed, either no step is left, or the next
    step is answered with a result that is not a success, or the call on the
    next step throws. *)
Definition loop_outcome (sc : Scenario) (todo : list Step) (i : nat)
  (st out : LoopState World) : Prop :=
  exists pre rs w1,
    passes i (world st) pre rs w1 /\
    ((todo = pre /\
      calls out = calls st ++ indexed i todo /\
      results out = results st ++ rs /\
      lstatus out = lstatus st /\ lerror out = lerror st /\ world out = w1) \/
     (exists s rest r w2,
        todo = pre ++ s :: rest /\
        executeStep s (i + length pre) w1 = (inl r, w2) /\ success r = false /\
        calls out = calls st ++ indexed i (pre ++ [s]) /\
        results out = results st ++ rs ++ [fst (analyzeFailed r sc w2)] /\
        lstatus out = failed /\ lerror out = lerror st /\
        world out = snd (analyzeFailed r sc w2)) \/
     (exists s rest msg w2,
        todo = pre ++ s :: rest /\
        executeStep s (i + length pre) w1 = (inr msg, w2) /\
        calls out = calls st ++ indexed i (pre ++ [s]) /\
        results out = results st ++ rs /\
        lstatus out = errored /\ lerror out = Some msg /\ world out = w2)).

Lemma stepLoop_outcome (sc : Scenario) (todo : list Step) : forall i st,
  loop_outcome sc todo i st (stepLoop sc todo i st).
Proof.
  induction todo as [|s rest IH]; intros i st.
  - exists [], [], (world st). split; [constructor|]. left.
    simpl. now rewrite !app_nil_r.
  - cbn [stepLoop]. destruct (executeStep s i (world st)) as [[r|msg] w1] eqn:Hexec.
    + destruct (success r) eqn:Hs.
      * match goal with
        | |- context [stepLoop sc rest (S i) ?st1] =>
            destruct (IH (S i) st1) as (pre & rs & w' & Hpre & Hend)
        end.
        cbn [world calls results lstatus lerror] in Hpre, Hend.
        exists (s :: pre), (r :: rs), w'.
        split; [exact (passes_cons _ _ _ _ _ _ _ _ Hexec Hs Hpre)|].
        destruct Hend as [(-> & Hc & Hr & Hst & He & Hw)
                         |[(s' & rest' & r' & w2 & -> & Hx & Hf & Hc & Hr & Hst & He & Hw)
                          |(s' & rest' & msg & w2 & -> & Hx & Hc & Hr & Hst & He & Hw)]].
        -- left. split; [reflexivity|].
           split; [rewrite Hc, <- app_assoc; reflexivity|].
           split; [rewrite Hr, <- app_assoc; reflexivity|]. auto.
        -- right; left. exists s', rest', r', w2.
           replace (i + length (s :: pre)) with (S i + length pre) by (simpl; lia).
           split; [reflexivity|]. split; [exact Hx|]. split; [exact Hf|].
           split; [rewrite Hc, <- app_assoc; reflexivity|].
           split; [rewrite Hr, <- app_assoc; reflexivity|]. auto.
        -- right; right. exists s', rest', msg, w2.
           replace (i + length (s :: pre)) with (S i + length pre) by (simpl; lia).
           split; [reflexivity|]. split; [exact Hx|].
           split; [rewrite Hc, <- app_assoc; reflexivity|].
           split; [rewrite Hr, <- app_assoc; reflexivity|]. auto.
      * destruct (analyzeFailed r sc w1) as [r' w2] eqn:Han.
        exists [], [], (world st). split; [constructor|]. right; left.
        exists s, rest, r, w1. rewrite Nat.add_0_r, Han. simpl. repeat split; auto.
    + exists [], [], (world st). split; [constructor|]. right; right.
      exists s, rest, msg, w1. rewrite Nat.add_0_r. simpl. rewrite app_nil_r. repeat split; auto.
Qed.

(** C1. The steps of a scenario are handed to the executor one after the
    other in scenario order, starting with the first, each in the world the
    call before it left, and every result is recorded.  The first answer that
    is not a success ends the scenario: when it is a result with
    [success = false], it is the last call made and the last result recorded
    (with the diagnostic, if one was produced), no later step reaches the
    executor and the scenario is [failed]; when no answer fails, every step
    is called and the scenario is [passed].  (A call that throws also ends
    the scenario, with status [error] and without a result for that step.)
    A recorded result with [success = false] is therefore the last one.  In
    particular, in a scenario of three steps whose second step fails, the
    executor is called on the first two steps only, the results recorded are
    those two and the status is [failed]. *)
Theorem runScenario_fail_fast (sc : Scenario) (stats0 : OverallStats) (w : World) :
  let st := runLoop sc stats0 w in
  let res := runScenario sc stats0 w in
  (exists pre rs w1,
     passes 0 w pre rs w1 /\
     ((steps sc = pre /\
       calls st = indexed 0 (steps sc) /\ rsteps res = rs /\
       status res = passed /\ world st = w1) \/
      (exists s rest r w2,
         steps sc = pre ++ s :: rest /\
         executeStep s (length pre) w1 = (inl r, w2) /\ success r = false /\
         calls st = indexed 0 (pre ++ [s]) /\
         rsteps res = rs ++ [fst (analyzeFailed r sc w2)] /\
         status res = failed /\ world st = snd (analyzeFailed r sc w2)) \/
      (exists s rest msg w2,
         steps sc = pre ++ s :: rest /\
         executeStep s (length pre) w1 = (inr msg, w2) /\
         calls st = indexed 0 (pre ++ [s]) /\
         rsteps res = rs /\
         status res = errored /\ rerror res = Some msg /\ world st = w2))) /\
  (forall k r, rsteps res !! k = Some r -> success r = false ->
     length (calls st) = S k /\ length (rsteps res) = S k /\ status res = failed) /\
  (forall s1 s2 s3 r1 r2 w1 w2,
     steps sc = [s1; s2; s3] ->
     executeStep s1 0 w = (inl r1, w1) -> success r1 = true ->
     executeStep s2 1 w1 = (inl r2, w2) -> success r2 = false ->
     calls st = [(0, s1); (1, s2)] /\
     rsteps res = [r1; fst (analyzeFailed r2 sc w2)] /\
     length (rsteps res) = 2 /\ status res = failed /\
     world st = snd (analyzeFailed r2 sc w2)).
Proof.
  intros st res. subst st res. split; [|split].
  - destruct (stepLoop_outcome sc (steps sc) 0
                {| results := []; lstatus := running; lerror := None;
                   stats := stats0; calls := []; world := w |})
      as (pre & rs & w1 & Hpre & Hend).
    fold (runLoop sc stats0 w) in Hend.
    cbn [world calls results lstatus lerror app Nat.add] in Hpre, Hend.
    exists pre, rs, w1. split; [exact Hpre|].
    rewrite status_of_loop. cbn [rsteps rerror].
    destruct Hend as [(Hp & Hc & Hr & Hst & He & Hw)
                     |[(s & rest & r & w2 & Hp & Hx & Hf & Hc & Hr & Hst & He & Hw)
                      |(s & rest & msg & w2 & Hp & Hx & Hc & Hr & Hst & He & Hw)]].
    + left. rewrite Hst. auto.
    + right; left. exists s, rest, r, w2. rewrite Hst. repeat split; auto.
    + right; right. exists s, rest, msg, w2. rewrite Hst. repeat split; auto.
  - intros k r Hk Hf. rewrite status_of_loop. simpl in Hk |- *.
    destruct (runLoop_end sc stats0 w) as [_ Hp _ _ | j pre r0 Hst Hr Hp Hf0 _ _ Hl | j _ Hp _ _ _].
    + rewrite (all_passed_lookup _ _ _ Hp Hk) in Hf. discriminate.
    + rewrite Hr in Hk, Hl |- *. rewrite Hst.
      destruct (decide (k < length pre)) as [Hlt|Hge].
      * rewrite lookup_app_l in Hk by exact Hlt.
        rewrite (all_passed_lookup _ _ _ Hp Hk) in Hf. discriminate.
      * assert (k = length pre).
        { apply lookup_lt_Some in Hk. rewrite length_app in Hk. simpl in Hk. lia. }
        subst k. rewrite <- Hl, length_app. simpl. repeat split; lia.
    + rewrite (all_passed_lookup _ _ _ Hp Hk) in Hf. discriminate.
  - intros s1 s2 s3 r1 r2 w1 w2 Hsteps H1 Hs1 H2 Hs2.
    unfold runScenario, runLoop. rewrite Hsteps. simpl.
    rewrite H1, Hs1. simpl. rewrite H2, Hs2.
    destruct (analyzeFailed r2 sc w2) as [r' w']. simpl. auto.
Qed.

(** C10. When no exception escapes the step loop (the status is not
    [error]), the recorded results hold at most one entry with
    [success = false]; such an entry is the last of the list and every entry
    before it has [success = true]. *)
Theorem runScenario_single_failure_last (sc : Scenario) (stats0 : OverallStats) (w : World) :
  let res := runScenario sc stats0 w in
  status res <> errored ->
  length (filter (fun r => negb (success r)) (rsteps res)) <= 1 /\
  (forall k r, rsteps res !! k = Some r -> success r = false ->
     S k = length (rsteps res)) /\
  (forall j k rj rk, j < k -> rsteps res !! j = Some rj -> rsteps res !! k = Some rk ->
     success rk = false -> success rj = true).
Proof.
  intros res _. subst res. simpl.
  assert (Hshape : exists pre tl, results (runLoop sc stats0 w) = pre ++ tl /\
            all_passed pre /\ length tl <= 1).
  { destruct (runLoop_end sc stats0 w) as [_ Hp _ _ | j pre r0 _ Hr Hp _ _ _ _ | j _ Hp _ _ _].
    - exists (results (runLoop sc stats0 w)), []. rewrite app_nil_r. simpl. auto.
    - exists pre, [r0]. simpl. auto.
    - exists (results (runLoop sc stats0 w)), []. rewrite app_nil_r. simpl. auto. }
  destruct Hshape as (pre & tl & -> & Hp & Htl).
  assert (Hlast : forall k r, (pre ++ tl) !! k = Some r -> success r = false ->
                  S k = length (pre ++ tl)).
  { intros k r Hk Hf.
    destruct (decide (k < length pre)) as [Hlt|Hge].
    - rewrite lookup_app_l in Hk by exact Hlt.
      rewrite (all_passed_lookup _ _ _ Hp Hk) in Hf. discriminate.
    - apply lookup_lt_Some in Hk. rewrite length_app in Hk |- *. lia. }
  split; [|split].
  - rewrite filter_app, length_app.
    assert (Hz : filter (fun r => negb (success r)) pre = []).
    { clear -Hp. induction Hp as [|r l Hr _ IH]; [reflexivity|].
      rewrite filter_cons. rewrite Hr. simpl. exact IH. }
    rewrite Hz. simpl.
    destruct tl as [|t [|t' tl']]; simpl in *; try lia.
    rewrite filter_cons. destruct (decide (negb (success t))); simpl; lia.
  - exact Hlast.
  - intros j k rj rk Hjk Hj Hk Hf.
    pose proof (Hlast k rk Hk Hf) as Hend.
    destruct (success rj) eqn:Hsj; [reflexivity|].
    pose proof (Hlast j rj Hj Hsj). lia.
Qed.

End Loop.

(** The three-step scenario whose second step fails, on the scripted executor. *)
Lemma runScenario_fail_fast_witness :
  calls (runLoop (agents := scripted) threeSteps noStats [Some true; Some false; Some true])
    = [(0, mkStep "navigate" "open the login page"); (1, mkStep "click" "click Sign In")] /\
  map raction (rsteps (runScenario (agents := scripted) threeSteps noStats
                         [Some true; Some false; Some true])) = ["navigate"; "click"] /\
  length (rsteps (runScenario (agents := scripted) threeSteps noStats
                    [Some true; Some false; Some true])) = 2 /\
  status (runScenario (agents := scripted) threeSteps noStats
            [Some true; Some false; Some true]) = failed /\
  world (runLoop (agents := scripted) threeSteps noStats [Some true; Some false; Some true])
    = [Some true].
Proof.
  destruct (proj2 (proj2 (runScenario_fail_fast (agents := scripted) threeSteps noStats
                            [Some true; Some false; Some true]))
              (mkStep "navigate" "open the login page") (mkStep "click" "click Sign In")
              (mkStep "validate" "see the dashboard") _ _ _ _
              eq_refl eq_refl eq_refl eq_refl eq_refl)
    as (Hcalls & Hsteps & Hlen & Hstatus & Hworld).
  split; [exact Hcalls|]. split; [now rewrite Hsteps|].
  split; [exact Hlen|]. split; [exact Hstatus | exact Hworld].
Defined.

Lemma runScenario_single_failure_last_witness :
  length (filter (fun r => negb (success r))
            (rsteps (runScenario (agents := scripted) threeSteps noStats
                       [Some true; Some false; Some true]))) <= 1.
Proof.
  apply (runScenario_single_failure_last (agents := scripted) threeSteps noStats
           [Some true; Some false; Some true]).
  discriminate.
Defined.

End OrchestratorFacts.

(** ** The plan cache *)

Module CacheFacts.
Import Cache Samples.

Section Lookup.

Context {lib : Library}.

Lemma getCachedPlan_stored (fs : FileSystem) (path content : string) (now : Z) (c : CacheData) :
  files fs !! getCacheFilePath path = Some (Stored c) ->
  getCachedPlan fs path content now =
    if negb (String.eqb (contentHash c) (generateHash content)) then None
    else if (now - timestamp c >? maxAge)%Z then None else Some (plan c).
Proof. intros Hf. unfold getCachedPlan. now rewrite Hf. Qed.

(** C7, as amended. A lookup is a hit exactly when the cache file holds an
    entry whose content hash equals the hash of the current text and whose
    age does not exceed seven days; an entry older than seven days is a miss
    even when the hashes are equal. *)
Theorem getCachedPlan_hit_iff (fs : FileSystem) (path content : string) (now : Z)
  (p : ExecutionPlan) :
  (getCachedPlan fs path content now = Some p <->
   exists c, files fs !! getCacheFilePath path = Some (Stored c) /\
             contentHash c = generateHash content /\
             (now - timestamp c <= maxAge)%Z /\ plan c = p) /\
  (forall c, files fs !! getCacheFilePath path = Some (Stored c) ->
             contentHash c = generateHash content ->
             (now - timestamp c > maxAge)%Z ->
             getCachedPlan fs path content now = None).
Proof.
  split.
  - split.
    + unfold getCachedPlan.
      destruct (files fs !! getCacheFilePath path) as [[|c]|] eqn:Hf; try discriminate.
      destruct (String.eqb (contentHash c) (generateHash content)) eqn:Hh; simpl; try discriminate.
      destruct (now - timestamp c >? maxAge)%Z eqn:Ha; try discriminate.
      intros [= <-]. exists c. apply String.eqb_eq in Hh. repeat split; auto. lia.
    + intros (c & Hf & Hh & Ha & <-).
      rewrite (getCachedPlan_stored _ _ _ _ _ Hf).
      apply String.eqb_eq in Hh. rewrite Hh. simpl.
      destruct (now - timestamp c >? maxAge)%Z eqn:Hgt; [lia | reflexivity].
  - intros c Hf Hh Ha.
    rewrite (getCachedPlan_stored _ _ _ _ _ Hf).
    apply String.eqb_eq in Hh. rewrite Hh. simpl.
    destruct (now - timestamp c >? maxAge)%Z eqn:Hgt; [reflexivity | lia].
Qed.

End Lookup.

(** C7, as stated, fails: an entry written at instant [0] and looked up at
    instant [maxAge] is exactly seven days old, which is not below seven
    days, and the lookup is a hit. *)
Lemma getCachedPlan_hit_at_seven_days :
  getCachedPlan (lib := library) cachedAtZero "register.feature" featureText maxAge
    = Some registerPlan /\
  ~ (maxAge - 0 < maxAge)%Z.
Proof. split; [vm_compute; reflexivity | lia]. Qed.

End CacheFacts.

(** ** Facts about the string primitives *)

Module TextFacts.
Import Text.

Lemma append_nil_r (s : string) : s +:+ EmptyString = s.
Proof. induction s as [|c s IH]; simpl; [reflexivity | f_equal; exact IH]. Qed.

Lemma append_assoc (a b c : string) : (a +:+ b) +:+ c = a +:+ (b +:+ c).
Proof. induction a as [|x a IH]; simpl; [reflexivity | f_equal; exact IH]. Qed.

Lemma length_append (a b : string) :
  String.length (a +:+ b) = String.length a + String.length b.
Proof. induction a as [|x a IH]; simpl; [reflexivity | f_equal; exact IH]. Qed.

(** A case-sensitive match at the head exhibits the pattern as a prefix. *)
Lemma matches_at_prefix (pat s : string) :
  matches_at false pat s = true -> s = pat +:+ drop (String.length pat) s.
Proof.
  revert s. induction pat as [|p pat IH]; intros s Hm; simpl in *.
  - reflexivity.
  - destruct s as [|c s]; [discriminate|].
    apply andb_true_iff in Hm as [Hc Hrest].
    apply Ascii.eqb_eq in Hc. subst c. simpl. f_equal. now apply IH.
Qed.


Lemma drop_append (a b : string) : drop (String.length a) (a +:+ b) = b.
Proof. induction a as [|x a IH]; simpl; [reflexivity | exact IH]. Qed.

End TextFacts.

(** ** Vision resolution *)

Module VisionFacts.
Import Text TextFacts Vision Samples.

Lemma splitOn_sound (pat s before after : string) :
  splitOn pat s = Some (before, after) -> s = before +:+ pat +:+ after.
Proof.
  revert before after. induction s as [|c s IH]; intros before after Hs.
  - simpl in Hs. destruct (matches_at false pat EmptyString) eqn:Hm; [|discriminate].
    injection Hs as <- <-. simpl. now apply matches_at_prefix.
  - simpl in Hs. destruct (matches_at false pat (String c s)) eqn:Hm.
    + injection Hs as <- <-. simpl. now apply matches_at_prefix.
    + destruct (splitOn pat s) as [[b a]|] eqn:Hrec; [|discriminate].
      injection Hs as <- <-. simpl. f_equal. now apply IH.
Qed.

Ltac run_exec :=
  unfold executeActionWithVision, resolveOnce, bind, attempt, act, ask, log, ret, throw;
  simpl.

Section Resolve.

Context {W : World}.

(** C4, as amended. One resolution attempt queries the oracle at most once.
    When the reply, after the fenced or brace-delimited JSON has been cut out
    of it, cannot be parsed, the attempt throws [Vision AI returned invalid
    JSON] straight away, having made that single query; when it can be
    parsed, the parsed result is returned.  What is cut out of a fenced reply
    is the text between the opening and the closing fence. *)
Theorem executeActionWithVision_single_call (instr actionTy : string) (payload : Data)
  (s : Session) :
  let q := {| instruction := instr; actionType := actionTy; dataToType := payload |} in
  let r := executeActionWithVision instr actionTy payload s in
  (asked (session r) = asked s \/ asked (session r) = asked s ++ [q]) /\
  (forall c, acts (ops s) Screenshot = None ->
             vision (asked s) q = OracleContent (Some c) -> c <> EmptyString ->
             JSON_parse (extractJson c) = None ->
             value r = inr "Vision AI returned invalid JSON" /\
             asked (session r) = asked s ++ [q]) /\
  (forall c v, acts (ops s) Screenshot = None ->
               vision (asked s) q = OracleContent (Some c) -> c <> EmptyString ->
               JSON_parse (extractJson c) = Some v ->
               value r = inl v /\ asked (session r) = asked s ++ [q]) /\
  (forall content whole inner,
     fencedJson content = Some (whole, inner) -> inner <> EmptyString ->
     extractJson content = inner /\
     exists before after,
       content = before +:+ fenceOpen +:+ inner +:+ fenceClose +:+ after).
Proof.
  intros q r. subst q r.
  assert (Hparsed : forall c, acts (ops s) Screenshot = None ->
            vision (asked s) {| instruction := instr; actionType := actionTy;
                                dataToType := payload |}
              = OracleContent (Some c) ->
            c <> EmptyString ->
            executeActionWithVision instr actionTy payload s =
            match JSON_parse (extractJson c) with
            | None => {| value := inr "Vision AI returned invalid JSON";
                         session := {| ops := ops s ++ [Screenshot];
                                       asked := asked s ++ [{| instruction := instr;
                                                               actionType := actionTy;
                                                               dataToType := payload |}] |};
                         console := console (executeActionWithVision instr actionTy payload s) |}
            | Some v => {| value := inl v;
                           session := {| ops := ops s ++ [Screenshot];
                                         asked := asked s ++ [{| instruction := instr;
                                                                 actionType := actionTy;
                                                                 dataToType := payload |}] |};
                           console := console (executeActionWithVision instr actionTy payload s) |}
            end).
  { intros c Hshot Hreply Hne. run_exec. rewrite Hshot. simpl. rewrite Hreply. simpl.
    apply String.eqb_neq in Hne. rewrite Hne.
    destruct (JSON_parse (extractJson c)); reflexivity. }
  split; [|split; [|split]].
  - run_exec. destruct (acts (ops s) Screenshot); simpl; [now left|].
    destruct (vision (asked s) _) as [msg|[c|]]; simpl; try now right.
    destruct (String.eqb c EmptyString); simpl; [now right|].
    destruct (JSON_parse (extractJson c)); simpl; now right.
  - intros c Hshot Hreply Hne Hparse.
    rewrite (Hparsed c Hshot Hreply Hne), Hparse. simpl. split; reflexivity.
  - intros c v Hshot Hreply Hne Hparse.
    rewrite (Hparsed c Hshot Hreply Hne), Hparse. simpl. split; reflexivity.
  - intros content whole inner Hfenced Hne. split.
    + unfold extractJson. rewrite Hfenced. apply String.eqb_neq in Hne. now rewrite Hne.
    + unfold fencedJson in Hfenced.
      destruct (splitOn fenceOpen content) as [[before rest]|] eqn:Ho; [|discriminate].
      destruct (splitOn fenceClose rest) as [[inner' after]|] eqn:Hc; [|discriminate].
      injection Hfenced as _ <-.
      exists before, after.
      apply splitOn_sound in Ho. apply splitOn_sound in Hc. now rewrite Ho, Hc.
Qed.

End Resolve.

(** C4, as stated, fails: on a reply in prose the attempt throws after its
    first and only query, although a second query would have been answered
    with parsable JSON. *)
Lemma executeActionWithVision_no_retry :
  let r := executeActionWithVision (W := proseThenJson) "Click on the Register button" "click"
             DataNull Executor.start in
  value r = inr "Vision AI returned invalid JSON" /\
  asked (session r) = [{| instruction := "Click on the Register button"; actionType := "click";
       dataToType := DataNull |}] /\
  @vision proseThenJson (asked (session r))
    {| instruction := "Click on the Register button"; actionType := "click";
       dataToType := DataNull |}
    = OracleContent (Some okJson) /\
  @JSON_parse proseThenJson (extractJson okJson) = Some okResult.
Proof. vm_compute. repeat split. Qed.

Lemma executeActionWithVision_single_call_witness :
  value (executeActionWithVision (W := proseThenJson) "Click" "click" DataNull Executor.start)
    = inr "Vision AI returned invalid JSON" /\
  asked (session (executeActionWithVision (W := proseThenJson) "Click" "click" DataNull Executor.start))
    = asked Executor.start ++ [{| instruction := "Click"; actionType := "click"; dataToType := DataNull |}].
Proof.
  apply (proj1 (proj2 (executeActionWithVision_single_call (W := proseThenJson)
                         "Click" "click" DataNull Executor.start))
           "I cannot see that button");
    [reflexivity | reflexivity | discriminate | reflexivity].
Defined.

End VisionFacts.

(** ** Placeholder substitution *)

Module PlaceholdersFacts.
Import Text TextFacts Placeholders.

Lemma all_chars_impl (p q : ascii -> bool) (s : string) :
  (forall c, p c = true -> q c = true) -> all_chars p s = true -> all_chars q s = true.
Proof.
  intros Hpq. induction s as [|c s IH]; simpl; [reflexivity|].
  intros Hs. apply andb_true_iff in Hs as [Hc Hrest].
  now rewrite (Hpq c Hc), IH.
Qed.

Lemma all_chars_append (p : ascii -> bool) (a b : string) :
  all_chars p (a +:+ b) = all_chars p a && all_chars p b.
Proof.
  induction a as [|c a IH]; simpl; [reflexivity|]. now rewrite IH, andb_assoc.
Qed.

Lemma digits_of_uint (u : Decimal.uint) : all_chars is_digit (NilEmpty.string_of_uint u) = true.
Proof. induction u; simpl; auto. Qed.

Lemma showZ_chars (z : Z) :
  all_chars (fun c => is_digit c || Ascii.eqb c "-") (showZ z) = true.
Proof.
  unfold showZ. destruct (Z.to_int z) as [u|u]; simpl.
  - apply (all_chars_impl is_digit); [|apply digits_of_uint].
    intros c Hc. now rewrite Hc.
  - apply (all_chars_impl is_digit); [|apply digits_of_uint].
    intros c Hc. now rewrite Hc.
Qed.

Lemma showZ_inj (a b : Z) : showZ a = showZ b -> a = b.
Proof.
  unfold showZ. intros Heq.
  assert (Hi : Some (Z.to_int a) = Some (Z.to_int b)).
  { rewrite <- (NilEmpty.isi (Z.to_int a)), <- (NilEmpty.isi (Z.to_int b)). now rewrite Heq. }
  injection Hi as Hi. rewrite <- (DecimalZ.of_to a), <- (DecimalZ.of_to b). now rewrite Hi.
Qed.

(** A separator that occurs in neither head determines the split. *)
Lemma split_unique (p : ascii -> bool) (sep : ascii) (a a' b b' : string) :
  all_chars p a = true -> all_chars p a' = true -> p sep = false ->
  a +:+ String sep b = a' +:+ String sep b' -> a = a' /\ b = b'.
Proof.
  intros Ha Ha' Hsep. revert a' Ha'.
  induction a as [|c a IH]; intros [|c' a'] Ha' Heq; simpl in *.
  - injection Heq as <-. auto.
  - injection Heq as <- _. apply andb_true_iff in Ha' as [Hc _]. congruence.
  - injection Heq as -> _. apply andb_true_iff in Ha as [Hc _]. congruence.
  - injection Heq as <- Heq.
    apply andb_true_iff in Ha as [_ Ha]. apply andb_true_iff in Ha' as [_ Ha'].
    destruct (IH Ha a' Ha' Heq) as [-> ->]. auto.
Qed.

Lemma takeWhile_append (p : ascii -> bool) (a : string) (sep : ascii) (b : string) :
  all_chars p a = true -> p sep = false ->
  takeWhile p (a +:+ String sep b) = a /\ dropWhile p (a +:+ String sep b) = String sep b.
Proof.
  intros Ha Hsep. induction a as [|c a IH]; simpl in *.
  - now rewrite Hsep.
  - apply andb_true_iff in Ha as [Hc Ha]. rewrite Hc.
    destruct (IH Ha) as [-> ->]. auto.
Qed.

Definition draw_domain (d : Draw) : string := nth (domainIdx d) domains "undefined".

Lemma local_part_chars (d : Draw) :
  wf_draw d = true ->
  all_chars local_char ("user_" +:+ randomStr d +:+ "_" +:+ showZ (now d)) = true.
Proof.
  unfold wf_draw. intros Hwf.
  apply andb_true_iff in Hwf as [Hwf _]. apply andb_true_iff in Hwf as [Hr _].
  rewrite !all_chars_append. repeat (apply andb_true_iff; split); try reflexivity.
  - apply (all_chars_impl base36_char); [|exact Hr].
    intros c Hc. unfold local_char, is_alnum. unfold base36_char in Hc.
    apply orb_true_iff in Hc as [Hc|Hc]; rewrite Hc; now rewrite ?orb_true_r.
  - apply (all_chars_impl (fun c => is_digit c || Ascii.eqb c "-")); [|apply showZ_chars].
    intros c Hc. unfold local_char, is_alnum.
    apply orb_true_iff in Hc as [Hc|Hc]; rewrite Hc; now rewrite ?orb_true_r.
Qed.

Lemma generateRandomEmail_shape (d : Draw) :
  generateRandomEmail d
  = ("user_" +:+ randomStr d +:+ "_" +:+ showZ (now d)) +:+ String "@" (draw_domain d).
Proof. unfold generateRandomEmail, draw_domain. now rewrite !append_assoc. Qed.

Lemma local_char_not_at (s : string) :
  all_chars local_char s = true -> all_chars not_at s = true.
Proof.
  apply all_chars_impl. intros c Hc. unfold not_at.
  destruct (Ascii.eqb c "@") eqn:He; [|reflexivity].
  apply Ascii.eqb_eq in He. subst c. discriminate.
Qed.

Lemma generateRandomEmail_valid (d : Draw) :
  wf_draw d = true -> valid_email (generateRandomEmail d) = true.
Proof.
  intros Hwf. pose proof (local_part_chars d Hwf) as Hloc.
  rewrite generateRandomEmail_shape. unfold valid_email.
  destruct (takeWhile_append not_at _ "@" (draw_domain d) (local_char_not_at _ Hloc) eq_refl)
    as [-> ->].
  rewrite Hloc. simpl.
  unfold wf_draw in Hwf. apply andb_true_iff in Hwf as [_ Hidx].
  apply Nat.ltb_lt in Hidx. unfold draw_domain.
  destruct (domainIdx d) as [|[|[|[|k]]]]; try reflexivity; lia.
Qed.

Lemma generateRandomEmail_inj (d1 d2 : Draw) :
  wf_draw d1 = true -> wf_draw d2 = true ->
  generateRandomEmail d1 = generateRandomEmail d2 -> same_draw d1 d2.
Proof.
  intros H1 H2 Heq.
  unfold generateRandomEmail in Heq. simpl in Heq.
  injection Heq as Heq.
  unfold wf_draw in H1, H2.
  apply andb_true_iff in H1 as [H1 Hi1]. apply andb_true_iff in H1 as [Hr1 _].
  apply andb_true_iff in H2 as [H2 Hi2]. apply andb_true_iff in H2 as [Hr2 _].
  destruct (split_unique base36_char "_" _ _ _ _ Hr1 Hr2 eq_refl Heq) as [Hr Hrest].
  assert (Hd : forall z, all_chars (fun c => is_digit c || Ascii.eqb c "-") (showZ z) = true)
    by apply showZ_chars.
  destruct (split_unique _ "@" _ _ _ _ (Hd (now d1)) (Hd (now d2)) eq_refl Hrest)
    as [Ht Hdom].
  repeat split; [now apply showZ_inj | exact Hr |].
  apply Nat.ltb_lt in Hi1, Hi2.
  destruct (domainIdx d1) as [|[|[|[|k1]]]]; try lia;
    destruct (domainIdx d2) as [|[|[|[|k2]]]]; try lia;
    first [reflexivity | discriminate Hdom].
Qed.

(** *** The threaded [forEach] *)

Section ForEach.

Context {A : Type} (f : A -> nat -> A * nat).

Lemma forEachSt_cons (x : A) (l : list A) (n : nat) :
  forEachSt f (x :: l) n =
  (fst (f x n) :: fst (forEachSt f l (snd (f x n))), snd (forEachSt f l (snd (f x n)))).
Proof.
  simpl. destruct (f x n) as [x' n1]. simpl.
  destruct (forEachSt f l n1) as [l' n2]. reflexivity.
Qed.

Lemma forEachSt_length (l : list A) (n : nat) :
  length (fst (forEachSt f l n)) = length l.
Proof.
  revert n. induction l as [|x l IH]; intros n; [reflexivity|].
  rewrite forEachSt_cons. simpl. now rewrite IH.
Qed.

Lemma forEachSt_map {B : Type} (g : A -> B) (l : list A) (n : nat) :
  (forall x m, g (fst (f x m)) = g x) ->
  map g (fst (forEachSt f l n)) = map g l.
Proof.
  intros Hg. revert n. induction l as [|x l IH]; intros n; [reflexivity|].
  rewrite forEachSt_cons. simpl. now rewrite Hg, IH.
Qed.

Lemma forEachSt_mono (l : list A) (n : nat) :
  (forall x m, m <= snd (f x m)) -> n <= snd (forEachSt f l n).
Proof.
  intros Hm. revert n. induction l as [|x l IH]; intros n; [simpl; lia|].
  rewrite forEachSt_cons. simpl. specialize (Hm x n). specialize (IH (snd (f x n))). lia.
Qed.

(** The element at position [i] is rewritten with the counter reached after
    the elements before it, and what it consumes is within the range of the
    whole pass. *)
Lemma forEachSt_lookup (l : list A) (n i : nat) (x : A) :
  (forall y m, m <= snd (f y m)) ->
  l !! i = Some x ->
  exists m, n <= m /\ snd (f x m) <= snd (forEachSt f l n) /\
            fst (forEachSt f l n) !! i = Some (fst (f x m)).
Proof.
  intros Hm. revert n i. induction l as [|y l IH]; intros n i Hi; [discriminate|].
  rewrite forEachSt_cons. simpl. destruct i as [|i]; simpl in *.
  - injection Hi as ->. exists n. repeat split; auto.
    apply forEachSt_mono. exact Hm.
  - destruct (IH (snd (f y n)) i Hi) as (m & Hle & Hup & Hlk).
    exists m. repeat split; auto. specialize (Hm y n). lia.
Qed.

End ForEach.

End PlaceholdersFacts.

(** ** Scenario-outline expansion *)

Module OutlineFacts.
Import Text TextFacts Outline Samples.










(** *** Keys and values of the parameter map *)







Lemma lookup_define (x k v : string) (m : list (string * string)) :
  lookupParam x (define k v m) = if String.eqb x k then v else lookupParam x m.
Proof.
  induction m as [|[k' v'] m IH]; simpl.
  - reflexivity.
  - destruct (String.eqb k k') eqn:Hk; simpl.
    + apply String.eqb_eq in Hk. subst k'. now destruct (String.eqb x k).
    + rewrite IH. destruct (String.eqb x k') eqn:Hx; [|reflexivity].
      apply String.eqb_eq in Hx. subst k'.
      rewrite String.eqb_sym in Hk. now rewrite Hk.
Qed.

Lemma lookup_assign (x k v : string) (m : list (string * string)) :
  lookupParam x (assign k v m)
  = if String.eqb x k && negb (String.eqb k "__proto__") then v else lookupParam x m.
Proof.
  unfold assign. destruct (String.eqb k "__proto__").
  - now rewrite andb_false_r.
  - now rewrite lookup_define, andb_true_r.
Qed.


(** The key [__proto__] is never stored. *)
Lemma lookup_build_proto (hs vs : list string) :
  forall i m, lookupParam "__proto__" (buildParamMap hs vs i m) = lookupParam "__proto__" m.
Proof.
  induction hs as [|h0 hs IH]; intros i m; simpl; [reflexivity|].
  rewrite IH, lookup_assign.
  destruct (String.eqb "__proto__" h0) eqn:Hh; [|reflexivity].
  apply String.eqb_eq in Hh. subst h0. reflexivity.
Qed.




(** *** Expansion of one step text *)






Section Expansion.

Context {engine : RegExpEngine}.







End Expansion.

(** C3, as stated, fails: in the sample outline the second step names
    [<other>], which is no column, and the token is still there in each of
    the two expanded scenarios. *)
Lemma outline_leaves_unknown_token :
  exists l,
    promptScenario (engine := literalEngine) loginOutline = Some l /\
    length l = 2 /\
    map (fun ps => map ptext (pssteps ps)) l
      = [["I log in as bob with x1"; "I see <other> for bob"];
         ["I log in as al with y2"; "I see <other> for al"]].
Proof. eexists. split; [vm_compute; reflexivity|]. split; reflexivity. Qed.


(** A column named [__proto__] is not expanded: the assignment to that key
    stores nothing, so its token stays while the other column is filled
    in. *)
Example outline_keeps_proto_token :
  promptScenario (engine := literalEngine)
    {| sname := "Login";
       ssteps := [{| keyword := "Given ";
                     text := "I log in as <user> with <__proto__>";
                     dataTable := None |}];
       examples := [{| tableHeader := Some ["user"; "__proto__"];
                       tableBody := [["bob"; "x1"]] |}] |}
  = Some [{| psname := "Login (Example 1)";
             pssteps := [{| pkeyword := "Given";
                            ptext := "I log in as bob with <__proto__>";
                            pdataTable := None |}] |}].
Proof. vm_compute. reflexivity. Qed.

(** The keyword heuristic does not expand outlines: the sample outline gives
    one scenario whose texts keep their tokens. *)
Example heuristic_keeps_outline :
  map (fun sc => map description (steps sc))
      (Heuristic.iscenarios
         (Heuristic.basicInterpretation
            {| fname := "Login"; fdescription := EmptyString; flanguage := "en";
               ftags := []; children := [ChildScenario loginOutline] |}))
  = [["I log in as <user> with <pw>"; "I see <other> for <user>"]].
Proof. reflexivity. Qed.

End OutlineFacts.

(** ** Plan compilation *)

Module CompilerFacts.
Import Text TextFacts Placeholders PlaceholdersFacts Outline Heuristic Cache Compiler Samples.

Section Substitution.

Variable E : Entropy.

Lemma replacePlaceholder_mono (v : string) (n : nat) : n <= snd (replacePlaceholder E v n).
Proof. unfold replacePlaceholder. destruct (firstMatching emailPatterns v); simpl; lia. Qed.

Lemma processField_mono (kf : string * Field) (n : nat) : n <= snd (processField E kf n).
Proof.
  destruct kf as [k [sel v|s|]]; simpl; try lia.
  - destruct (truthy v); simpl; [|lia].
    pose proof (replacePlaceholder_mono v n).
    destruct (replacePlaceholder E v n); simpl in *; lia.
  - pose proof (replacePlaceholder_mono s n).
    destruct (replacePlaceholder E s n); simpl in *; lia.
Qed.

Lemma processData_mono (d : Data) (n : nat) : n <= snd (processData E d n).
Proof.
  destruct d as [|s|items|fields]; simpl; try lia.
  - destruct (truthy s); simpl; [|lia].
    pose proof (replacePlaceholder_mono s n).
    destruct (replacePlaceholder E s n); simpl in *; lia.
  - pose proof (forEachSt_mono (replacePlaceholder E) items n replacePlaceholder_mono).
    destruct (forEachSt (replacePlaceholder E) items n); simpl in *; lia.
  - pose proof (forEachSt_mono (processField E) fields n processField_mono).
    destruct (forEachSt (processField E) fields n); simpl in *; lia.
Qed.

Lemma processStep_eq (s : Step) (n : nat) :
  processStep E s n =
  ({| gherkinStep := gherkinStep s; action := action s; selector := selector s;
      data := fst (processData E (data s) n); description := description s;
      validation := validation s |}, snd (processData E (data s) n)).
Proof. unfold processStep. now destruct (processData E (data s) n). Qed.

Lemma processStep_mono (s : Step) (n : nat) : n <= snd (processStep E s n).
Proof. rewrite processStep_eq. simpl. apply processData_mono. Qed.

Lemma processScenario_eq (sc : Scenario) (n : nat) :
  processScenario E sc n =
  ({| name := name sc; context := context sc;
      steps := fst (forEachSt (processStep E) (steps sc) n) |},
   snd (forEachSt (processStep E) (steps sc) n)).
Proof. unfold processScenario. now destruct (forEachSt (processStep E) (steps sc) n). Qed.

Lemma processScenario_mono (sc : Scenario) (n : nat) : n <= snd (processScenario E sc n).
Proof. rewrite processScenario_eq. simpl. apply forEachSt_mono, processStep_mono. Qed.

Lemma processDynamicPlaceholders_eq (p : ExecutionPlan) (n : nat) :
  processDynamicPlaceholders E p n =
  ({| feature := feature p; pdescription := pdescription p;
      scenarios := fst (forEachSt (processScenario E) (scenarios p) n);
      type := type p; tags := tags p; language := language p |},
   snd (forEachSt (processScenario E) (scenarios p) n)).
Proof.
  unfold processDynamicPlaceholders.
  now destruct (forEachSt (processScenario E) (scenarios p) n).
Qed.

(** Substitution touches payloads only. *)
Lemma substitution_keeps (B : Type) (g : Step -> B) (l : list Scenario) (n : nat) :
  (forall s m, g (fst (processStep E s m)) = g s) ->
  map (fun sc => map g (steps sc)) (fst (forEachSt (processScenario E) l n))
  = map (fun sc => map g (steps sc)) l.
Proof.
  intros Hg. apply forEachSt_map. intros sc m.
  rewrite processScenario_eq. simpl. now apply forEachSt_map.
Qed.

Lemma substitution_keeps_names (l : list Scenario) (n : nat) :
  map name (fst (forEachSt (processScenario E) l n)) = map name l.
Proof. apply forEachSt_map. intros sc m. now rewrite processScenario_eq. Qed.

(** Every payload of the plan is rewritten by [processData], with draws taken
    inside the range the pass consumes. *)
Lemma substitution_payload (l : list Scenario) (n i j : nat) (sc : Scenario) (s : Step) :
  l !! i = Some sc -> steps sc !! j = Some s ->
  exists sc' s' m,
    fst (forEachSt (processScenario E) l n) !! i = Some sc' /\
    steps sc' !! j = Some s' /\
    n <= m /\ snd (processData E (data s) m) <= snd (forEachSt (processScenario E) l n) /\
    data s' = fst (processData E (data s) m).
Proof.
  intros Hi Hj.
  destruct (forEachSt_lookup (processScenario E) l n i sc processScenario_mono Hi)
    as (m1 & Hle1 & Hup1 & Hlk1).
  rewrite processScenario_eq in Hup1, Hlk1. simpl in Hup1.
  destruct (forEachSt_lookup (processStep E) (steps sc) m1 j s processStep_mono Hj)
    as (m2 & Hle2 & Hup2 & Hlk2).
  rewrite processStep_eq in Hup2, Hlk2. simpl in Hup2.
  eexists _, _, m2. split; [exact Hlk1|]. simpl. split; [exact Hlk2|].
  simpl. repeat split; lia.
Qed.

Lemma replaceAll_whole (ci : bool) (pat repl : string) :
  pat <> EmptyString -> matches_at ci pat pat = true ->
  replaceAll ci pat repl pat = repl.
Proof.
  intros Hne Hm. unfold replaceAll. destruct pat as [|c pat]; [congruence|].
  cbn [replace_from]. rewrite Hm.
  assert (Hskip : forall s k, String.length s <= k -> replace_from ci (String c pat) repl k s = EmptyString).
  { induction s as [|x s IH]; intros k Hk; [reflexivity|].
    simpl in Hk. destruct k as [|k]; [lia|]. cbn [replace_from]. apply IH. lia. }
  rewrite Hskip by (simpl; lia). apply append_nil_r.
Qed.

Lemma email_marker_replaced (n : nat) :
  processData E (DataStr "<email>") n = (DataStr (generateRandomEmail (E n)), S n).
Proof.
  assert (Hr : replacePlaceholder E "<email>" n = (generateRandomEmail (E n), S n)).
  { unfold replacePlaceholder.
    change (firstMatching emailPatterns "<email>") with (Some "<email>"). cbv iota.
    now rewrite replaceAll_whole. }
  unfold processData. change (truthy "<email>") with true. cbv iota. now rewrite Hr.
Qed.

End Substitution.

(** *** The keyword heuristic *)

Definition plain (c : ascii) : bool := negb (is_quote c).

Lemma quotedAll_plain_prefix (pre rest : string) :
  all_chars plain pre = true -> quotedAll 0 (pre +:+ rest) = quotedAll 0 rest.
Proof.
  induction pre as [|c pre IH]; intros Hp; [reflexivity|].
  simpl in Hp. apply andb_true_iff in Hp as [Hc Hp].
  unfold plain in Hc. apply negb_true_iff in Hc.
  simpl. rewrite Hc. now apply IH.
Qed.

Lemma quotedAll_skip (a b : string) :
  quotedAll (String.length a) (a +:+ b) = quotedAll 0 b.
Proof. induction a as [|c a IH]; [reflexivity | exact IH]. Qed.

Lemma quotedAt_run (q : ascii) (w post : string) :
  all_chars (fun c => negb (Ascii.eqb c q)) w = true -> w <> EmptyString ->
  quotedAt q (w +:+ String q post) = Some w.
Proof.
  intros Hw Hne. unfold quotedAt.
  assert (Hq : negb (Ascii.eqb q q) = false) by now rewrite Ascii.eqb_refl.
  destruct (takeWhile_append _ w q post Hw Hq) as [-> ->].
  destruct w; [congruence | reflexivity].
Qed.

Lemma stripQuotes_plain (w : string) : all_chars plain w = true -> stripQuotes w = w.
Proof.
  induction w as [|c w IH]; intros Hp; [reflexivity|].
  simpl in Hp. apply andb_true_iff in Hp as [Hc Hp].
  unfold plain in Hc. apply negb_true_iff in Hc.
  simpl. rewrite Hc. now rewrite IH.
Qed.

(** A first double-quoted word becomes the head of the payload. *)
Lemma extractData_quoted (pre w post : string) :
  all_chars plain pre = true -> all_chars plain w = true -> w <> EmptyString ->
  extractData (pre +:+ quoted w +:+ post) = DataArr (w :: quotedAll 0 post).
Proof.
  intros Hpre Hw Hne. unfold extractData.
  rewrite quotedAll_plain_prefix by exact Hpre.
  unfold quoted. cbn [String.append quotedAll].
  change (is_quote dquote) with true. cbv iota.
  rewrite append_assoc. cbn [String.append].
  rewrite quotedAt_run; [| |exact Hne].
  - rewrite (stripQuotes_plain w Hw).
    replace (String.length w + 1) with (String.length (w +:+ String dquote EmptyString))
      by (rewrite length_append; reflexivity).
    replace (w +:+ String dquote post) with ((w +:+ String dquote EmptyString) +:+ post)
      by (rewrite append_assoc; reflexivity).
    now rewrite quotedAll_skip.
  - apply (all_chars_impl plain); [|exact Hw].
    intros c Hc. unfold plain, is_quote in Hc.
    apply negb_true_iff in Hc. apply orb_false_iff in Hc as [Hc _]. now rewrite Hc.
Qed.

Lemma guessAction_keywords (kw txt : string) :
  (trim kw = "Then" -> guessAction kw txt = "validate") /\
  (trim kw = "When" -> includes (toLowerCase txt) "click" = true ->
   guessAction kw txt = "click") /\
  (trim kw = "Given" -> includes (toLowerCase txt) "navig" = true ->
   guessAction kw txt = "navigate").
Proof.
  unfold guessAction. repeat split.
  - intros ->. reflexivity.
  - intros -> ->. reflexivity.
  - intros -> ->. reflexivity.
Qed.

Section Agent.

Context {engine : RegExpEngine} {lib : Library} {svc : Services}.

Lemma parseAndPlan_hit (cfg : Config) (path content : string) (clk : Clock) (st : State)
  (cached : ExecutionPlan) :
  cacheLookup cfg st path content clk = Some cached ->
  parseAndPlan cfg path content clk st =
  (inl (fst (processDynamicPlaceholders entropy cached (drawn st))),
   {| fs := fs st; drawn := snd (processDynamicPlaceholders entropy cached (drawn st)) |}).
Proof.
  intros Hhit. unfold parseAndPlan. rewrite Hhit.
  now destruct (processDynamicPlaceholders entropy cached (drawn st)).
Qed.

Lemma parseAndPlan_miss (cfg : Config) (path content : string) (clk : Clock) (st : State)
  (f : Feature) (i : Interpretation) :
  cacheLookup cfg st path content clk = None ->
  parseGherkinFile content = inl f ->
  interpretWithAI f = inl i ->
  parseAndPlan cfg path content clk st =
  (inl (fst (processDynamicPlaceholders entropy (freshPlan f i) (drawn st))),
   {| fs := if enableCache cfg
            then saveToCache (fs st) path content (freshPlan f i) (saveTime clk)
            else fs st;
      drawn := snd (processDynamicPlaceholders entropy (freshPlan f i) (drawn st)) |}).
Proof.
  intros Hmiss Hparse Hint. unfold parseAndPlan. rewrite Hmiss, Hparse, Hint.
  now destruct (processDynamicPlaceholders entropy (freshPlan f i) (drawn st)).
Qed.

(** A returned plan comes from one of the two paths. *)
Lemma parseAndPlan_returns (cfg : Config) (path content : string) (clk : Clock)
  (st st' : State) (p : ExecutionPlan) :
  parseAndPlan cfg path content clk st = (inl p, st') ->
  (exists cached, cacheLookup cfg st path content clk = Some cached) \/
  (cacheLookup cfg st path content clk = None /\
   exists f i, parseGherkinFile content = inl f /\ interpretWithAI f = inl i).
Proof.
  unfold parseAndPlan.
  destruct (cacheLookup cfg st path content clk) as [cached|] eqn:Hc; [eauto|].
  destruct (parseGherkinFile content) as [f|msg] eqn:Hp; [|discriminate].
  destruct (interpretWithAI f) as [i|msg] eqn:Hi; [|discriminate].
  intros _. right. eauto.
Qed.

(** C9, as amended. The compiler neither checks nor clears the target
    selectors of an oracle reply: when the plan comes from the oracle, every
    step of the compiled plan carries the selector the oracle gave it,
    empty or not. *)
Theorem parseAndPlan_keeps_selectors (cfg : Config) (path content : string) (clk : Clock)
  (st : State) (f : Feature) (prompt : Prompt) (i : Interpretation) :
  cacheLookup cfg st path content clk = None ->
  parseGherkinFile content = inl f ->
  buildInterpretationPrompt f = Some prompt ->
  oracleInterpretation prompt = Some i ->
  exists p st',
    parseAndPlan cfg path content clk st = (inl p, st') /\
    selectorsOf (scenarios p) = selectorsOf (iscenarios i).
Proof.
  intros Hmiss Hparse Hprompt Horacle.
  assert (Hint : interpretWithAI f = inl i).
  { unfold interpretWithAI. now rewrite Hprompt, Horacle. }
  eexists _, _. split; [exact (parseAndPlan_miss _ _ _ _ _ _ _ Hmiss Hparse Hint)|].
  rewrite processDynamicPlaceholders_eq. simpl. unfold selectorsOf.
  apply substitution_keeps. intros s m. now rewrite processStep_eq.
Qed.

(** The oracle call failed, or its output cannot be used: it threw, it
    carried no content, or the content is not parsable. *)
Definition oracle_failed (prompt : Prompt) : Prop :=
  (exists msg, complete prompt = OracleThrows msg) \/
  complete prompt = OracleContent None \/
  complete prompt = OracleContent (Some EmptyString) \/
  (exists c, complete prompt = OracleContent (Some c) /\ JSON_parse c = None).

Lemma oracle_failed_none (prompt : Prompt) :
  oracle_failed prompt -> oracleInterpretation prompt = None.
Proof.
  unfold oracle_failed, oracleInterpretation.
  intros [[msg ->]|[->|[->|(c & -> & Hc)]]]; try reflexivity.
  destruct (truthy c); [exact Hc | reflexivity].
Qed.

(** C5. When the source holds a feature, the request has been built and the
    oracle call fails or returns unparsable output, compilation does not
    throw: it returns a plan of type [web] whose scenarios are those of the
    keyword heuristic (one per scenario of the feature, same names), with the
    action of each step given by [guessAction] on its keyword and text, and
    the payload by [extractData] followed by placeholder substitution.  The
    heuristic maps [Then] to [validate], [When ... click] to [click],
    [Given ... navig] to [navigate], and takes a double-quoted word of the
    text as payload. *)
Theorem parseAndPlan_fallback (cfg : Config) (path content : string) (clk : Clock)
  (st : State) (f : Feature) (prompt : Prompt) :
  cacheLookup cfg st path content clk = None ->
  parseGherkinFile content = inl f ->
  buildInterpretationPrompt f = Some prompt ->
  oracle_failed prompt ->
  (exists p st',
     parseAndPlan cfg path content clk st = (inl p, st') /\
     type p = "web" /\ feature p = fname f /\
     scenarios p
       = fst (forEachSt (processScenario entropy) (map basicScenario (scenariosOf f)) (drawn st)) /\
     map name (scenarios p) = map sname (scenariosOf f) /\
     actionsOf (scenarios p)
       = map (fun sc => map (fun s => guessAction (keyword s) (text s)) (ssteps sc))
             (scenariosOf f)) /\
  (forall kw txt,
     (trim kw = "Then" -> guessAction kw txt = "validate") /\
     (trim kw = "When" -> includes (toLowerCase txt) "click" = true ->
      guessAction kw txt = "click") /\
     (trim kw = "Given" -> includes (toLowerCase txt) "navig" = true ->
      guessAction kw txt = "navigate")) /\
  (forall pre w post,
     all_chars plain pre = true -> all_chars plain w = true -> w <> EmptyString ->
     extractData (pre +:+ quoted w +:+ post) = DataArr (w :: quotedAll 0 post)).
Proof.
  intros Hmiss Hparse Hprompt Hfail.
  assert (Hint : interpretWithAI f = inl (basicInterpretation f)).
  { unfold interpretWithAI. now rewrite Hprompt, (oracle_failed_none _ Hfail). }
  split; [|split; [exact guessAction_keywords | exact extractData_quoted]].
  eexists _, _. split; [exact (parseAndPlan_miss _ _ _ _ _ _ _ Hmiss Hparse Hint)|].
  rewrite processDynamicPlaceholders_eq. simpl.
  repeat split.
  - rewrite substitution_keeps_names, map_map. reflexivity.
  - unfold actionsOf.
    rewrite (substitution_keeps entropy _ action)
      by (intros s m; now rewrite processStep_eq).
    rewrite map_map. apply map_ext. intros sc. simpl. now rewrite map_map.
Qed.

(** C2. Whenever compilation returns a plan, that plan is the result of the
    substitution pass applied to a plan [plan0] created before it: the cached
    plan on a hit (the cache is left as it was), the freshly interpreted plan
    on a miss, and then what is written to the cache is [plan0] itself, before
    substitution.  The pass rewrites every step payload with [processData],
    drawing inside the range of draws this call consumes; a string holding an
    email marker has the marker replaced by the address generated from the
    next draw, and the payload [<email>] becomes that address.  The address is
    syntactically valid for a well-formed draw, and draws that differ give
    addresses that differ. *)
Theorem parseAndPlan_substitutes (cfg : Config) (path content : string) (clk : Clock)
  (st st' : State) (p : ExecutionPlan) :
  parseAndPlan cfg path content clk st = (inl p, st') ->
  (exists plan0,
     processDynamicPlaceholders entropy plan0 (drawn st) = (p, drawn st') /\
     ((cacheLookup cfg st path content clk = Some plan0 /\ fs st' = fs st) \/
      (cacheLookup cfg st path content clk = None /\
       (exists f i, parseGherkinFile content = inl f /\ interpretWithAI f = inl i /\
                    plan0 = freshPlan f i) /\
       fs st' = (if enableCache cfg
                 then saveToCache (fs st) path content plan0 (saveTime clk)
                 else fs st) /\
       (enableCache cfg = true -> readOnly (fs st) = false ->
        exists c, files (fs st') !! getCacheFilePath path = Some (Stored c) /\
                  plan c = plan0 /\ contentHash c = generateHash content))) /\
     (forall i j sc s,
        scenarios plan0 !! i = Some sc -> steps sc !! j = Some s ->
        exists sc' s' m,
          scenarios p !! i = Some sc' /\ steps sc' !! j = Some s' /\
          drawn st <= m /\ snd (processData entropy (data s) m) <= drawn st' /\
          data s' = fst (processData entropy (data s) m))) /\
  (forall v n pat,
     firstMatching emailPatterns v = Some pat ->
     replacePlaceholder entropy v n
       = (replaceAll true pat (generateRandomEmail (entropy n)) v, S n)) /\
  (forall n, processData entropy (DataStr "<email>") n
             = (DataStr (generateRandomEmail (entropy n)), S n)) /\
  (forall n, wf_draw (entropy n) = true ->
             valid_email (generateRandomEmail (entropy n)) = true) /\
  (forall m n, wf_draw (entropy m) = true -> wf_draw (entropy n) = true ->
               ~ same_draw (entropy m) (entropy n) ->
               generateRandomEmail (entropy m) <> generateRandomEmail (entropy n)).
Proof.
  intros Hrun.
  split; [|split; [|split; [|split]]].
  - destruct (parseAndPlan_returns _ _ _ _ _ _ _ Hrun)
      as [[cached Hhit] | (Hmiss & f & i & Hparse & Hint)].
    + rewrite (parseAndPlan_hit _ _ _ _ _ _ Hhit) in Hrun.
      injection Hrun as Hp Hst. exists cached. subst p st'. simpl.
      split; [now destruct (processDynamicPlaceholders entropy cached (drawn st))|].
      split; [left; auto|].
      intros i j sc s Hi Hj. rewrite processDynamicPlaceholders_eq. simpl.
      exact (substitution_payload entropy _ _ i j sc s Hi Hj).
    + rewrite (parseAndPlan_miss _ _ _ _ _ _ _ Hmiss Hparse Hint) in Hrun.
      injection Hrun as Hp Hst. exists (freshPlan f i). subst p st'. simpl.
      split; [now destruct (processDynamicPlaceholders entropy (freshPlan f i) (drawn st))|].
      split.
      * right. split; [exact Hmiss|]. split; [eauto|]. split; [reflexivity|].
        intros Hen Hrw. rewrite Hen. unfold saveToCache. rewrite Hrw. simpl.
        eexists. rewrite lookup_insert_eq. split; [reflexivity|]. simpl. auto.
      * intros i0 j sc s Hi Hj. rewrite processDynamicPlaceholders_eq. simpl.
        exact (substitution_payload entropy _ _ i0 j sc s Hi Hj).
  - intros v n pat Hm. unfold replacePlaceholder. now rewrite Hm.
  - apply email_marker_replaced.
  - intros n. apply generateRandomEmail_valid.
  - intros m n Hm Hn Hdiff Heq. apply Hdiff. now apply generateRandomEmail_inj.
Qed.

End Agent.

(** C9, as stated, fails: the sample oracle answers a step with the selector
    [#submit], and the compiled plan carries it. *)
Lemma parseAndPlan_selector_passes_through :
  exists p st',
    parseAndPlan (engine := literalEngine) (lib := library) (svc := eagerOracle)
      cachingOn "register.feature" featureText noon freshState = (inl p, st') /\
    selectorsOf (iscenarios eagerInterpretation) = [[Some "#submit"]] /\
    selectorsOf (scenarios p) = [[Some "#submit"]].
Proof. eexists _, _. split; [vm_compute; reflexivity|]. split; reflexivity. Qed.

Lemma parseAndPlan_keeps_selectors_witness :
  exists p st',
    parseAndPlan (engine := literalEngine) (lib := library) (svc := eagerOracle)
      cachingOn "register.feature" featureText noon freshState = (inl p, st') /\
    selectorsOf (scenarios p) = selectorsOf (iscenarios eagerInterpretation).
Proof.
  apply (parseAndPlan_keeps_selectors (engine := literalEngine) (lib := library)
           (svc := eagerOracle) cachingOn "register.feature" featureText noon freshState
           registerFeature
           {| prFeature := "Register"; prDescription := EmptyString;
              prScenarios :=
                [{| psname := "Sign up";
                    pssteps :=
                      [{| pkeyword := "When";
                          ptext := "I click the " +:+ quoted "Register" +:+ " button";
                          pdataTable := None |};
                       {| pkeyword := "Then";
                          ptext := "I should see " +:+ quoted "Welcome";
                          pdataTable := None |}] |}] |}
           eagerInterpretation);
    reflexivity.
Defined.

Lemma parseAndPlan_fallback_witness :
  exists p st',
    parseAndPlan (engine := literalEngine) (lib := library) (svc := downOracle)
      cachingOn "register.feature" featureText noon freshState = (inl p, st') /\
    type p = "web" /\
    actionsOf (scenarios p) = [["click"; "validate"]].
Proof.
  edestruct (parseAndPlan_fallback (engine := literalEngine) (lib := library)
               (svc := downOracle) cachingOn "register.feature" featureText noon freshState
               registerFeature)
    as [(p & st' & Hrun & Hty & _ & _ & _ & Hact) _].
  - reflexivity.
  - reflexivity.
  - reflexivity.
  - left. eexists. reflexivity.
  - exists p, st'. repeat split; [exact Hrun | exact Hty | exact Hact].
Defined.

(** On a cache hit the stored payload [<email>] comes back as a generated
    address, and the cache keeps the marker. *)
Lemma parseAndPlan_substitutes_witness :
  exists p st',
    parseAndPlan (engine := literalEngine) (lib := library) (svc := eagerOracle)
      cachingOn "register.feature" featureText dawn warmState = (inl p, st') /\
    fs st' = cachedAtZero /\
    exists plan0, processDynamicPlaceholders sampleEntropy plan0 0 = (p, drawn st').
Proof.
  eexists _, _. split; [vm_compute; reflexivity|]. split; [reflexivity|].
  edestruct (parseAndPlan_substitutes (engine := literalEngine) (lib := library)
               (svc := eagerOracle) cachingOn "register.feature" featureText dawn warmState)
    as [(plan0 & Heq & _) _]; [vm_compute; reflexivity|].
  exists plan0. exact Heq.
Defined.

Example cached_marker_becomes_address :
  match fst (parseAndPlan (engine := literalEngine) (lib := library) (svc := eagerOracle)
               cachingOn "register.feature" featureText dawn warmState) with
  | inl p => map (fun sc => map data (steps sc)) (scenarios p)
             = [[DataStr "user_k3x9ab_1700000000000@test.com"]]
  | inr _ => False
  end.
Proof. vm_compute. reflexivity. Qed.

End CompilerFacts.

(** ** Reversal of strings *)

Module RevFacts.
Import Text TextFacts PlaceholdersFacts.

Lemma rev_app_append (a b : string) : String.rev_app a b = String.rev a +:+ b.
Proof.
  unfold String.rev. revert b. induction a as [|c a IH]; intros b; [reflexivity|].
  cbn [String.rev_app]. rewrite (IH (String c b)), (IH (String c EmptyString)).
  now rewrite append_assoc.
Qed.

Lemma rev_cons (c : ascii) (s : string) :
  String.rev (String c s) = String.rev s +:+ String c EmptyString.
Proof. unfold String.rev at 1. cbn [String.rev_app]. apply rev_app_append. Qed.

Lemma rev_append (a b : string) : String.rev (a +:+ b) = String.rev b +:+ String.rev a.
Proof.
  induction a as [|c a IH]; cbn [String.append].
  - now rewrite append_nil_r.
  - now rewrite !rev_cons, IH, append_assoc.
Qed.

Lemma rev_rev (s : string) : String.rev (String.rev s) = s.
Proof.
  induction s as [|c s IH]; [reflexivity|].
  now rewrite rev_cons, rev_append, IH.
Qed.

Lemma all_chars_rev (p : ascii -> bool) (s : string) :
  all_chars p (String.rev s) = all_chars p s.
Proof.
  induction s as [|c s IH]; [reflexivity|].
  rewrite rev_cons, all_chars_append, IH. cbn [all_chars].
  now rewrite andb_true_r, andb_comm.
Qed.

End RevFacts.

(** ** The executor *)

Module ExecutorFacts.
Import Text TextFacts PlaceholdersFacts RevFacts Vision Executor Samples.
Local Open Scope exec_scope.

(** *** Reasoning about sessions *)

(** [grows n m]: a run of [m] keeps the page calls and the oracle queries
    already made, and adds at most [n] queries. *)
Definition grows {A : Type} (n : nat) (m : M A) : Prop :=
  forall s,
    (exists l, ops (session (m s)) = ops s ++ l) /\
    (exists q, asked (session (m s)) = asked s ++ q /\ length q <= n).

Lemma bind_run {A B : Type} (m : M A) (k : A -> M B) (s : Session) (a : A) :
  value (m s) = inl a ->
  value (bind m k s) = value (k a (session (m s))) /\
  session (bind m k s) = session (k a (session (m s))).
Proof. intros Hm. unfold bind. rewrite Hm. split; reflexivity. Qed.

Lemma bind_throws {A B : Type} (m : M A) (k : A -> M B) (s : Session) (e : string) :
  value (m s) = inr e ->
  value (bind m k s) = inr e /\ session (bind m k s) = session (m s).
Proof. intros Hm. unfold bind. rewrite Hm. split; reflexivity. Qed.

Lemma bind_inl_inv {A B : Type} (m : M A) (k : A -> M B) (s : Session) (b : B) :
  value (bind m k s) = inl b ->
  exists a, value (m s) = inl a /\ value (k a (session (m s))) = inl b /\
            session (bind m k s) = session (k a (session (m s))).
Proof.
  unfold bind. destruct (value (m s)) as [a|e]; simpl; [|discriminate].
  intros Hk. exists a. auto.
Qed.

Lemma grows_le {A : Type} (n n' : nat) (m : M A) : n <= n' -> grows n m -> grows n' m.
Proof.
  intros Hle Hm s. destruct (Hm s) as (Hops & q & Hq & Hl).
  split; [exact Hops|]. exists q. split; [exact Hq | lia].
Qed.

Lemma grows_still {A : Type} (v : A + string) (c : list string) :
  grows 0 (fun s => {| value := v; session := s; console := c |}).
Proof. intros s. split; exists []; simpl; now rewrite app_nil_r. Qed.

Lemma grows_ret {A : Type} (a : A) : grows 0 (ret a).
Proof. apply grows_still. Qed.

Lemma grows_throw {A : Type} (msg : string) : grows 0 (throw (A := A) msg).
Proof. apply grows_still. Qed.

Lemma grows_log (line : string) : grows 0 (log line).
Proof. apply grows_still. Qed.

Lemma grows_bind {A B : Type} (a b : nat) (m : M A) (k : A -> M B) :
  grows a m -> (forall x, grows b (k x)) -> grows (a + b) (bind m k).
Proof.
  intros Hm Hk s. unfold bind. destruct (Hm s) as ((l1 & Hl1) & q1 & Hq1 & Hn1).
  destruct (value (m s)) as [x|msg]; simpl.
  - destruct (Hk x (session (m s))) as ((l2 & Hl2) & q2 & Hq2 & Hn2). split.
    + exists (l1 ++ l2). now rewrite Hl2, Hl1, <- app_assoc.
    + exists (q1 ++ q2). rewrite Hq2, Hq1, length_app, <- app_assoc. split; [reflexivity | lia].
  - split; [now exists l1|]. exists q1. split; [exact Hq1 | lia].
Qed.

Lemma quiet_bind {A B : Type} (m : M A) (k : A -> M B) :
  grows 0 m -> (forall x, grows 0 (k x)) -> grows 0 (bind m k).
Proof. intros Hm Hk. exact (grows_bind 0 0 m k Hm Hk). Qed.

Lemma grows_bind_l {A B : Type} (n : nat) (m : M A) (k : A -> M B) :
  grows n m -> (forall x, grows 0 (k x)) -> grows n (bind m k).
Proof.
  intros Hm Hk. apply grows_le with (n + 0); [lia|]. now apply grows_bind.
Qed.

Lemma grows_bind_r {A B : Type} (n : nat) (m : M A) (k : A -> M B) :
  grows 0 m -> (forall x, grows n (k x)) -> grows n (bind m k).
Proof. intros Hm Hk. exact (grows_bind 0 n m k Hm Hk). Qed.

Lemma grows_attempt {A : Type} (n : nat) (m : M A) : grows n m -> grows n (attempt m).
Proof. intros Hm s. exact (Hm s). Qed.

Section PagePrimitives.

Context {pg : Page}.

Lemma grows_record {A : Type} (op : PageOp) (v : Session -> A + string) :
  grows 0 (fun s => {| value := v s; session := record op s; console := [] |}).
Proof. intros s. split; [now exists [op]|]. exists []. simpl. now rewrite app_nil_r. Qed.

Lemma grows_act (op : PageOp) : grows 0 (act op).
Proof. apply grows_record. Qed.

Lemma grows_visible (sel : string) : grows 0 (visible sel).
Proof. apply grows_record. Qed.

Lemma grows_countAll (sel : string) : grows 0 (countAll sel).
Proof. apply grows_record. Qed.

Lemma grows_readText (sel : string) : grows 0 (readText sel).
Proof. apply grows_record. Qed.

Lemma grows_readTagName (sel : option string) : grows 0 (readTagName sel).
Proof. apply grows_record. Qed.

End PagePrimitives.

(** One step of a proof that a page-only computation asks nothing. *)
Ltac quiet_step :=
  lazymatch goal with
  | |- grows 0 (bind _ _) => apply quiet_bind; [|intros ?]
  | |- grows 0 (attempt _) => apply grows_attempt
  | |- grows 0 (ret _) => apply grows_ret
  | |- grows 0 (throw _) => apply grows_throw
  | |- grows 0 (log _) => apply grows_log
  | |- grows 0 (act _) => apply grows_act
  | |- grows 0 (visible _) => apply grows_visible
  | |- grows 0 (countAll _) => apply grows_countAll
  | |- grows 0 (readText _) => apply grows_readText
  | |- grows 0 (readTagName _) => apply grows_readTagName
  | |- grows 0 (if ?b then _ else _) => destruct b
  | |- grows 0 (match ?x with _ => _ end) => destruct x
  end.

Ltac quiet := repeat (first [assumption | quiet_step | progress cbv beta]).

Section PageOnly.

Context {pg : Page}.

Lemma grows_smartWait : grows 0 smartWait.
Proof. unfold smartWait. quiet. Qed.

Lemma grows_waitForAngular : grows 0 waitForAngular.
Proof. unfold waitForAngular. quiet. Qed.

Lemma grows_collectDiagnostics : grows 0 collectDiagnostics.
Proof. unfold collectDiagnostics. quiet. Qed.

Lemma grows_tryAlternatives (alts : list string) : forall st, grows 0 (tryAlternatives alts st).
Proof. induction alts as [|alt rest IH]; intros st; simpl; quiet; apply IH. Qed.

Lemma grows_tryGeneric (sels : list string) : forall st, grows 0 (tryGeneric sels st).
Proof. induction sels as [|sel rest IH]; intros st; simpl; quiet; apply IH. Qed.

Lemma grows_locateFallback (sel : option string) (held : Located) :
  grows 0 (locateFallback sel held).
Proof.
  unfold locateFallback.
  pose proof grows_tryAlternatives. pose proof grows_tryGeneric.
  quiet; auto.
Qed.

Lemma grows_locate (sel : option string) : grows 0 (locate sel).
Proof. unfold locate. pose proof grows_locateFallback. quiet; auto. Qed.

Lemma grows_performClick (el : option string) : grows 0 (performClick el).
Proof. unfold performClick. quiet. Qed.

Lemma grows_settleAfterClick : grows 0 settleAfterClick.
Proof.
  unfold settleAfterClick. pose proof grows_smartWait. pose proof grows_waitForAngular.
  quiet.
Qed.

Lemma grows_clickWith (v : VisionResult) : grows 0 (clickWith v).
Proof.
  unfold clickWith.
  pose proof grows_locate. pose proof grows_performClick. pose proof grows_settleAfterClick.
  quiet; auto.
Qed.

Lemma grows_clickPlain (st : Step) : grows 0 (clickPlain st).
Proof. unfold clickPlain. quiet. Qed.

Lemma grows_tryVisible (what : string) (timeout : Z) (sels : list string) :
  forall held, grows 0 (tryVisible what timeout sels held).
Proof. induction sels as [|sel rest IH]; intros held; simpl; quiet; apply IH. Qed.

Lemma grows_locateField (f : VField) : grows 0 (locateField f).
Proof. unfold locateField. pose proof grows_tryVisible. quiet; auto. Qed.

Lemma grows_fillField (f : VField) (el : option string) : grows 0 (fillField f el).
Proof. unfold fillField. quiet. Qed.

Lemma grows_typeField (f : VField) : grows 0 (typeField f).
Proof. unfold typeField. pose proof grows_locateField. pose proof grows_fillField. quiet; auto. Qed.

Lemma grows_typeFields (fs : list VField) : grows 0 (typeFields fs).
Proof.
  induction fs as [|f rest IH]; simpl; [apply grows_ret|].
  apply quiet_bind; [apply grows_typeField | intros _; exact IH].
Qed.

Lemma grows_typeManyWith (v : VisionResult) : grows 0 (typeManyWith v).
Proof. unfold typeManyWith. pose proof grows_typeFields. quiet; auto. Qed.

Lemma grows_typeOneWith (txt : option string) (v : VisionResult) : grows 0 (typeOneWith txt v).
Proof. unfold typeOneWith. quiet. Qed.

Lemma grows_typePlain (st : Step) : grows 0 (typePlain st).
Proof. unfold typePlain. quiet. Qed.

Lemma grows_locateTrigger (sel : option string) : grows 0 (locateTrigger sel).
Proof. unfold locateTrigger. pose proof grows_tryVisible. quiet; auto. Qed.

Lemma grows_tryOptions (val : string) (pats : list string) : grows 0 (tryOptions val pats).
Proof. induction pats as [|pat rest IH]; simpl; quiet. Qed.

Lemma grows_selectWith (d : Data) (v : VisionResult) : grows 0 (selectWith d v).
Proof.
  unfold selectWith. pose proof grows_locateTrigger. pose proof grows_tryOptions.
  quiet; auto.
Qed.

Lemma grows_selectPlain (d : Data) : grows 0 (selectPlain d).
Proof. unfold selectPlain. quiet. Qed.

Lemma grows_anyVisible (sels : list string) : grows 0 (anyVisible sels).
Proof. induction sels as [|sel rest IH]; simpl; quiet. Qed.

Lemma grows_domRound (searchText : string) : grows 0 (domRound searchText).
Proof. unfold domRound. pose proof grows_anyVisible. quiet; auto. Qed.

Lemma grows_domRetries (searchText : string) (left : nat) : grows 0 (domRetries searchText left).
Proof.
  induction left as [|k IH]; simpl; [apply grows_ret|].
  apply quiet_bind; [apply grows_domRound|]. intros [[|]|msg]; [apply grows_ret | exact IH | exact IH].
Qed.

Lemma grows_captureActual (st : Step) : grows 0 (captureActual st).
Proof. unfold captureActual. quiet. Qed.

Lemma grows_prepareValidation (st : Step) (v : Validation) : grows 0 (prepareValidation st v).
Proof.
  unfold prepareValidation. pose proof grows_smartWait. pose proof grows_captureActual.
  quiet; auto.
Qed.

Lemma grows_compareText (v : Validation) (actual : option string) : grows 0 (compareText v actual).
Proof. unfold compareText. quiet. Qed.

Lemma grows_wait (st : Step) : grows 0 (wait st).
Proof. unfold wait. quiet. Qed.

Lemma grows_hover (st : Step) : grows 0 (hover st).
Proof. unfold hover. quiet. Qed.

Lemma grows_scroll (st : Step) : grows 0 (scroll st).
Proof. unfold scroll. quiet. Qed.

Lemma grows_genericAction (st : Step) : grows 0 (genericAction st).
Proof. unfold genericAction. quiet. Qed.

End PageOnly.


(** *** Queries to the oracle *)

Section Queries.

Context {W : World}.

Lemma grows_ask (q : Query) : grows 1 (ask q).
Proof.
  intros s. split; [exists []; simpl; now rewrite app_nil_r|].
  exists [q]. simpl. split; [reflexivity | lia].
Qed.

Lemma grows_resolveOnce (q : Query) : grows 1 (resolveOnce q).
Proof.
  unfold resolveOnce. apply grows_bind_r; [apply grows_act|]. intros _.
  apply grows_bind_l; [apply grows_ask|]. intros c. quiet.
Qed.

Lemma grows_executeActionWithVision (instr actionTy : string) (payload : Data) :
  grows 1 (executeActionWithVision instr actionTy payload).
Proof.
  unfold executeActionWithVision. apply grows_bind_r; [apply grows_log|]. intros _.
  apply grows_bind_l; [apply grows_attempt, grows_resolveOnce|]. intros r. quiet.
Qed.

(** The queries one step may make. *)
Definition budget (st : Step) : nat :=
  if useVision
     && (String.eqb (action st) "click" || String.eqb (action st) "type"
         || String.eqb (action st) "select" || String.eqb (action st) "validate")
  then 1 else 0.

Definition vision_budget : nat := if useVision then 1 else 0.

Lemma grows_click (st : Step) : grows vision_budget (click st).
Proof.
  unfold click, vision_budget. destruct useVision.
  - apply grows_bind_l; [apply grows_executeActionWithVision|].
    intros v. apply grows_clickWith.
  - apply grows_clickPlain.
Qed.

Lemma grows_type (st : Step) : grows vision_budget (type st).
Proof.
  unfold type, vision_budget. destruct useVision; [|apply grows_typePlain].
  apply grows_bind_r; [apply grows_act|]. intros _.
  apply grows_bind_r; [apply grows_waitForAngular|]. intros _.
  apply grows_bind_r; [apply grows_log|]. intros _.
  destruct (data st).
  - apply grows_bind_r; [apply grows_log|]. intros _.
    apply grows_bind_l; [apply grows_executeActionWithVision|].
    intros v. apply grows_typeManyWith.
  - apply grows_bind_l; [apply grows_executeActionWithVision|].
    intros v. apply grows_typeOneWith.
  - apply grows_bind_l; [apply grows_executeActionWithVision|].
    intros v. apply grows_typeOneWith.
  - apply grows_bind_r; [apply grows_log|]. intros _.
    apply grows_bind_l; [apply grows_executeActionWithVision|].
    intros v. apply grows_typeManyWith.
Qed.

Lemma grows_select (st : Step) : grows vision_budget (select st).
Proof.
  unfold select, vision_budget.
  destruct useVision.
  - apply grows_bind_r; [apply grows_log|]. intros _.
    apply grows_bind_l; [apply grows_executeActionWithVision|].
    intros v. apply grows_selectWith.
  - apply grows_bind_r; [apply grows_log|]. intros _. apply grows_selectPlain.
Qed.

Lemma grows_validateExists (searchText : string) :
  grows vision_budget (validateExists searchText).
Proof.
  unfold validateExists, vision_budget.
  apply grows_bind_r; [apply grows_log|]. intros _.
  apply grows_bind_r; [apply grows_domRetries|]. intros found.
  apply grows_bind_l.
  - destruct found; simpl; [apply grows_le with 0; [lia | apply grows_ret]|].
    destruct useVision; [|apply grows_ret].
    apply grows_bind_r; [apply grows_log|]. intros _.
    apply grows_bind_l; [apply grows_executeActionWithVision|]. intros v. quiet.
  - intros found2. quiet.
Qed.

Lemma grows_validate (st : Step) : grows vision_budget (validate st).
Proof.
  unfold validate. destruct (validation st) as [v|].
  - apply grows_bind_r; [apply grows_prepareValidation|]. intros actual.
    apply grows_bind_l.
    + destruct (String.eqb (vtype v) "exists"); [apply grows_validateExists|].
      apply grows_le with 0; [lia | apply grows_compareText].
    + intros _. quiet.
  - apply grows_le with 0; [lia | apply grows_throw].
Qed.

Lemma grows_navigate (st : Step) : grows 0 (navigate st).
Proof. unfold navigate. pose proof grows_waitForAngular. quiet. Qed.

Lemma budget_vision (st : Step) :
  String.eqb (action st) "click" || String.eqb (action st) "type"
  || String.eqb (action st) "select" || String.eqb (action st) "validate" = true ->
  budget st = vision_budget.
Proof. intros Hb. unfold budget, vision_budget. rewrite Hb. now destruct useVision. Qed.

Lemma grows_dispatch (st : Step) : grows (budget st) (dispatch st).
Proof.
  unfold dispatch.
  destruct (String.eqb (action st) "navigate") eqn:Hn.
  { apply grows_le with 0; [lia | apply grows_navigate]. }
  destruct (String.eqb (action st) "click") eqn:Hc.
  { rewrite budget_vision by (rewrite Hc; reflexivity). apply grows_click. }
  destruct (String.eqb (action st) "type") eqn:Ht.
  { rewrite budget_vision by (rewrite Hc, Ht; reflexivity). apply grows_type. }
  destruct (String.eqb (action st) "select") eqn:Hs.
  { rewrite budget_vision by (rewrite Hc, Ht, Hs; reflexivity). apply grows_select. }
  destruct (String.eqb (action st) "validate") eqn:Hv.
  { rewrite budget_vision by (rewrite Hc, Ht, Hs, Hv; reflexivity). apply grows_validate. }
  apply grows_le with 0; [lia|].
  pose proof (grows_wait st). pose proof (grows_hover st). pose proof (grows_scroll st).
  pose proof (grows_genericAction st). quiet.
Qed.

(** The try block of [executeStep]. *)
Definition attempted (st : Step) : M string :=
  let* d := dispatch st in smartWait ;; act Screenshot ;; ret d.

Lemma grows_attempted (st : Step) : grows (budget st) (attempted st).
Proof.
  unfold attempted. apply grows_bind_l; [apply grows_dispatch|]. intros d.
  pose proof grows_smartWait. quiet.
Qed.

Lemma grows_executeStep (st : Step) (stepIndex : nat) :
  grows (budget st) (executeStep st stepIndex).
Proof.
  unfold executeStep. apply grows_bind_r; [apply grows_log|]. intros _.
  apply grows_bind_l; [apply grows_attempt, grows_attempted|].
  intros r. pose proof grows_collectDiagnostics. quiet.
Qed.

(** A step queries the vision oracle at most once, on top of the queries
    made before it; it makes no query when vision is switched off, nor for
    an action other than [click], [type], [select] and [validate]. *)
Theorem executeStep_one_query (st : Step) (stepIndex : nat) (s : Session) :
  exists q,
    asked (session (executeStep st stepIndex s)) = asked s ++ q /\
    length q <= 1 /\
    (useVision = false -> q = []) /\
    (action st <> "click" /\ action st <> "type" /\ action st <> "select"
     /\ action st <> "validate" -> q = []).
Proof.
  destruct (grows_executeStep st stepIndex s) as (_ & q & Hq & Hlen).
  exists q. split; [exact Hq|].
  assert (Hb : budget st <= 1) by (unfold budget; destruct (_ && _); lia).
  split; [lia|]. split.
  - intros Hoff. unfold budget in Hlen. rewrite Hoff in Hlen. simpl in Hlen.
    destruct q; [reflexivity | simpl in Hlen; lia].
  - intros (Hc & Ht & Hs & Hv). unfold budget in Hlen.
    apply String.eqb_neq in Hc, Ht, Hs, Hv. rewrite Hc, Ht, Hs, Hv, andb_false_r in Hlen.
    destruct q; [reflexivity | simpl in Hlen; lia].
Qed.

End Queries.


(** *** Runs that differ in the advice of the oracle only *)

(** Two outcomes agree: both values related by [R], or the same thrown
    message. *)
Definition agree {A B : Type} (R : A -> B -> Prop) (x : A + string) (y : B + string) : Prop :=
  match x, y with
  | inl a, inl b => R a b
  | inr e1, inr e2 => e1 = e2
  | _, _ => False
  end.

(** Two computations leave the same session and agreeing values; what they
    print may differ. *)
Definition alike {A B : Type} (R : A -> B -> Prop) (m1 : M A) (m2 : M B) : Prop :=
  forall s, session (m1 s) = session (m2 s) /\ agree R (value (m1 s)) (value (m2 s)).

Lemma agree_eq {A : Type} (x y : A + string) : agree eq x y -> x = y.
Proof. destruct x, y; simpl; intros H; try contradiction; now subst. Qed.

Lemma alike_refl {A : Type} (m : M A) : alike eq m m.
Proof. intros s. split; [reflexivity|]. now destruct (value (m s)). Qed.

Lemma alike_ret {A B : Type} (R : A -> B -> Prop) (a : A) (b : B) :
  R a b -> alike R (ret a) (ret b).
Proof. intros H s. split; [reflexivity | exact H]. Qed.

Lemma alike_throw {A B : Type} (R : A -> B -> Prop) (e : string) :
  alike R (throw e) (throw e).
Proof. intros s. split; reflexivity. Qed.

Lemma alike_log (a b : string) : alike eq (log a) (log b).
Proof. intros s. split; reflexivity. Qed.

Lemma alike_bind {A B C D : Type} (R : A -> B -> Prop) (Q : C -> D -> Prop)
  (m1 : M A) (m2 : M B) (k1 : A -> M C) (k2 : B -> M D) :
  alike R m1 m2 -> (forall a b, R a b -> alike Q (k1 a) (k2 b)) ->
  alike Q (bind m1 k1) (bind m2 k2).
Proof.
  intros Hm Hk s. unfold bind. destruct (Hm s) as [Hs Hv].
  destruct (value (m1 s)) as [a|e1], (value (m2 s)) as [b|e2]; simpl in Hv; try contradiction.
  - simpl. rewrite Hs. exact (Hk a b Hv (session (m2 s))).
  - simpl. split; [exact Hs | exact Hv].
Qed.

Lemma alike_attempt {A B : Type} (R : A -> B -> Prop) (m1 : M A) (m2 : M B) :
  alike R m1 m2 -> alike (agree R) (attempt m1) (attempt m2).
Proof. intros Hm s. exact (Hm s). Qed.

(** The world [W] with another oracle. *)
Definition withOracle (W : World) (oracle : list Query -> Query -> OracleReply) : World :=
  {| page := page; vision := oracle; JSON_parse := JSON_parse; useVision := useVision;
     webAppUrl := webAppUrl; originOf := originOf |}.

Section Advice.

Context {W : World}.
Variable oracle : list Query -> Query -> OracleReply.
Hypothesis Hagree : forall a q, replies_agree JSON_parse (vision a q) (oracle a q).

Let W' : World := withOracle W oracle.

Lemma alike_ask (q : Query) :
  alike (fun c1 c2 => replies_agree JSON_parse (OracleContent c1) (OracleContent c2))
        (ask (W := W) q) (ask (W := W') q).
Proof.
  intros s. split; [reflexivity|]. simpl.
  pose proof (Hagree (asked s) q) as H.
  destruct (vision (asked s) q) as [m1|[c1|]], (oracle (asked s) q) as [m2|[c2|]];
    simpl in H |- *; try contradiction; exact H.
Qed.

Lemma alike_resolveOnce (q : Query) :
  alike same_but_advice (resolveOnce (W := W) q) (resolveOnce (W := W') q).
Proof.
  unfold resolveOnce.
  apply (alike_bind eq); [apply alike_refl|]. intros _ _ _.
  apply (alike_bind _ _ _ _ _ _ (alike_ask q)).
  intros [c1|] [c2|] Hc; simpl in Hc; try contradiction; [|apply alike_throw].
  destruct Hc as [Hempty Hparse].
  destruct (String.eqb c1 EmptyString) eqn:H1, (String.eqb c2 EmptyString) eqn:H2.
  - apply alike_throw.
  - apply String.eqb_eq in H1. apply String.eqb_neq in H2. tauto.
  - apply String.eqb_neq in H1. apply String.eqb_eq in H2. tauto.
  - change (@JSON_parse W') with (@JSON_parse W).
    destruct (JSON_parse (extractJson c1)) as [v1|], (JSON_parse (extractJson c2)) as [v2|];
      try contradiction.
    + apply (alike_bind eq); [apply alike_log|]. intros _ _ _.
      apply (alike_bind eq); [apply alike_log|]. intros _ _ _.
      now apply alike_ret.
    + apply (alike_bind eq); [apply alike_log|]. intros _ _ _. apply alike_throw.
Qed.

Lemma alike_executeActionWithVision (instr actionTy : string) (payload : Data) :
  alike same_but_advice (executeActionWithVision (W := W) instr actionTy payload)
        (executeActionWithVision (W := W') instr actionTy payload).
Proof.
  unfold executeActionWithVision.
  apply (alike_bind eq); [apply alike_log|]. intros _ _ _.
  apply (alike_bind _ _ _ _ _ _ (alike_attempt _ _ _ (alike_resolveOnce _))).
  intros [v1|e1] [v2|e2] Hv; simpl in Hv; try contradiction.
  - now apply alike_ret.
  - subst e2. apply (alike_bind eq); [apply alike_log|]. intros _ _ _. apply alike_throw.
Qed.

(** What the actions read of a result is untouched by the advice. *)
Lemma same_clickWith (v1 v2 : VisionResult) :
  same_but_advice v1 v2 -> clickWith v1 = clickWith v2.
Proof. intros (_ & Hsel & _). unfold clickWith. now rewrite Hsel. Qed.

Lemma same_typeManyWith (v1 v2 : VisionResult) :
  same_but_advice v1 v2 -> typeManyWith v1 = typeManyWith v2.
Proof. intros (_ & _ & _ & _ & Hf & _). unfold typeManyWith. now rewrite Hf. Qed.

Lemma same_typeOneWith (txt : option string) (v1 v2 : VisionResult) :
  same_but_advice v1 v2 -> typeOneWith txt v1 = typeOneWith txt v2.
Proof. intros (_ & _ & _ & _ & Hf & _). unfold typeOneWith. now rewrite Hf. Qed.

Lemma same_selectWith (d : Data) (v1 v2 : VisionResult) :
  same_but_advice v1 v2 -> selectWith d v1 = selectWith d v2.
Proof. intros (_ & _ & Hd & _). unfold selectWith. now rewrite Hd. Qed.

Lemma alike_click (st : Step) : alike eq (click (W := W) st) (click (W := W') st).
Proof.
  unfold click. change (@useVision W') with (@useVision W).
  destruct useVision; [|apply alike_refl].
  apply (alike_bind _ _ _ _ _ _ (alike_executeActionWithVision _ _ _)).
  intros v1 v2 Hv. change (@page W') with (@page W).
  rewrite (same_clickWith v1 v2 Hv). apply alike_refl.
Qed.

Lemma alike_type (st : Step) : alike eq (type (W := W) st) (type (W := W') st).
Proof.
  unfold type. change (@useVision W') with (@useVision W). change (@page W') with (@page W).
  destruct useVision; [|apply alike_refl].
  apply (alike_bind eq); [apply alike_refl|]. intros _ _ _.
  apply (alike_bind eq); [apply alike_refl|]. intros _ _ _.
  apply (alike_bind eq); [apply alike_refl|]. intros _ _ _.
  destruct (data st).
  - apply (alike_bind eq); [apply alike_refl|]. intros _ _ _.
    apply (alike_bind _ _ _ _ _ _ (alike_executeActionWithVision _ _ _)).
    intros v1 v2 Hv. rewrite (same_typeManyWith v1 v2 Hv). apply alike_refl.
  - apply (alike_bind _ _ _ _ _ _ (alike_executeActionWithVision _ _ _)).
    intros v1 v2 Hv. rewrite (same_typeOneWith _ v1 v2 Hv). apply alike_refl.
  - apply (alike_bind _ _ _ _ _ _ (alike_executeActionWithVision _ _ _)).
    intros v1 v2 Hv. rewrite (same_typeOneWith _ v1 v2 Hv). apply alike_refl.
  - apply (alike_bind eq); [apply alike_refl|]. intros _ _ _.
    apply (alike_bind _ _ _ _ _ _ (alike_executeActionWithVision _ _ _)).
    intros v1 v2 Hv. rewrite (same_typeManyWith v1 v2 Hv). apply alike_refl.
Qed.

Lemma alike_select (st : Step) : alike eq (select (W := W) st) (select (W := W') st).
Proof.
  unfold select. change (@useVision W') with (@useVision W). change (@page W') with (@page W).
  apply (alike_bind eq); [apply alike_refl|]. intros _ _ _.
  destruct useVision; [|apply alike_refl].
  apply (alike_bind _ _ _ _ _ _ (alike_executeActionWithVision _ _ _)).
  intros v1 v2 Hv. rewrite (same_selectWith _ v1 v2 Hv). apply alike_refl.
Qed.

Lemma alike_validateExists (searchText : string) :
  alike eq (validateExists (W := W) searchText) (validateExists (W := W') searchText).
Proof.
  unfold validateExists.
  change (@useVision W') with (@useVision W). change (@page W') with (@page W).
  apply (alike_bind eq); [apply alike_refl|]. intros _ _ _.
  apply (alike_bind eq); [apply alike_refl|]. intros found ? <-.
  apply (alike_bind eq); [|intros ? ? <-; apply alike_refl].
  destruct (negb found && useVision); [|apply alike_refl].
  apply (alike_bind eq); [apply alike_refl|]. intros _ _ _.
  apply (alike_bind _ _ _ _ _ _ (alike_executeActionWithVision _ _ _)).
  intros v1 v2 (_ & _ & _ & _ & _ & Hfound). rewrite Hfound. apply alike_refl.
Qed.

Lemma alike_validate (st : Step) : alike eq (validate (W := W) st) (validate (W := W') st).
Proof.
  unfold validate. change (@page W') with (@page W).
  destruct (validation st) as [v|]; [|apply alike_refl].
  apply (alike_bind eq); [apply alike_refl|]. intros actual ? <-.
  apply (alike_bind eq); [|intros ? ? <-; apply alike_refl].
  destruct (String.eqb (vtype v) "exists"); [apply alike_validateExists | apply alike_refl].
Qed.

Lemma alike_dispatch (st : Step) : alike eq (dispatch (W := W) st) (dispatch (W := W') st).
Proof.
  unfold dispatch.
  destruct (String.eqb (action st) "navigate"); [apply alike_refl|].
  destruct (String.eqb (action st) "click"); [apply alike_click|].
  destruct (String.eqb (action st) "type"); [apply alike_type|].
  destruct (String.eqb (action st) "select"); [apply alike_select|].
  destruct (String.eqb (action st) "validate"); [apply alike_validate|].
  apply alike_refl.
Qed.

Lemma alike_executeStep (st : Step) (stepIndex : nat) :
  alike eq (executeStep (W := W) st stepIndex) (executeStep (W := W') st stepIndex).
Proof.
  unfold executeStep. change (@page W') with (@page W).
  apply (alike_bind eq); [apply alike_refl|]. intros _ _ _.
  apply (alike_bind (agree eq)).
  - apply alike_attempt.
    apply (alike_bind _ _ _ _ _ _ (alike_dispatch st)). intros d ? <-. apply alike_refl.
  - intros r1 r2 Hr. apply agree_eq in Hr. subst r2. apply alike_refl.
Qed.

End Advice.

(** The advice of the oracle has no bearing on a step.  Let two oracles give,
    query by query, replies that are read as results differing at most in
    [reasoning] and [confidence] (or that fail alike).  Then a step makes the
    same page calls and the same queries under either, and returns the same
    result; only what is printed may differ. *)
Theorem executeStep_ignores_advice (W : World) (oracle : list Query -> Query -> OracleReply)
  (st : Step) (stepIndex : nat) (s : Session) :
  (forall a q, replies_agree JSON_parse (vision a q) (oracle a q)) ->
  session (executeStep (W := W) st stepIndex s)
    = session (executeStep (W := withOracle W oracle) st stepIndex s) /\
  value (executeStep (W := W) st stepIndex s)
    = value (executeStep (W := withOracle W oracle) st stepIndex s).
Proof.
  intros Hagree.
  destruct (alike_executeStep oracle Hagree st stepIndex s) as [Hs Hv].
  split; [exact Hs | now apply agree_eq].
Qed.



(** *** The [exists] check *)

Section Rounds.

Context {pg : Page}.
Variable searchText : string.

(** The page calls of [n] rounds that find nothing. *)
Definition missedRounds (n : nat) : list PageOp :=
  concat (repeat [textCheck searchText; hasTextCheck searchText; pause] n).

Lemma domRound_blank (s : Session) :
  (forall h sel, isVisible h sel = inl false) -> (forall h, acts h pause = None) ->
  domRound searchText s =
    {| value := inl (inl false);
       session := {| ops := ops s ++ [textCheck searchText; hasTextCheck searchText; pause];
                     asked := asked s |};
       console := [] |}.
Proof.
  intros Hvis Hpause.
  unfold domRound, attempt, strategies, anyVisible, bind, visible, act, ret, record. simpl.
  rewrite !Hvis. simpl. change (WaitForTimeout 1000) with pause. rewrite Hpause. simpl.
  rewrite <- !app_assoc. reflexivity.
Qed.

Lemma domRetries_blank (n : nat) : forall s,
  (forall h sel, isVisible h sel = inl false) -> (forall h, acts h pause = None) ->
  value (domRetries searchText n s) = inl false /\
  ops (session (domRetries searchText n s)) = ops s ++ missedRounds n /\
  asked (session (domRetries searchText n s)) = asked s.
Proof.
  induction n as [|n IH]; intros s Hvis Hpause.
  - simpl. rewrite app_nil_r. auto.
  - cbn [domRetries]. unfold bind at 1 2 3. rewrite (domRound_blank s Hvis Hpause). simpl.
    destruct (IH {| ops := ops s ++ [textCheck searchText; hasTextCheck searchText; pause];
                    asked := asked s |} Hvis Hpause) as (Hv & Ho & Ha).
    rewrite Hv, Ho, Ha. simpl. unfold missedRounds. simpl.
    rewrite <- !app_assoc. auto.
Qed.

Lemma domRound_closed (s : Session) :
  (forall h sel, exists msg, isVisible h sel = inr msg) ->
  exists msg,
    domRound searchText s =
      {| value := inl (inr msg);
         session := {| ops := ops s ++ [textCheck searchText]; asked := asked s |};
         console := [] |}.
Proof.
  intros Hvis.
  unfold domRound, attempt, strategies, anyVisible, bind, visible, act, ret, record. simpl.
  destruct (Hvis (ops s) ("text=" +:+ quoted searchText)) as (msg & Hmsg).
  exists msg. simpl in Hmsg. rewrite Hmsg. reflexivity.
Qed.

(** When the visibility check itself throws (the page is closed, say),
    each of the [n] retries is a single check: no pause separates them, and
    the search reports that nothing was found. *)
Theorem domRetries_no_pause_on_error (n : nat) (s : Session) :
  (forall h sel, exists msg, isVisible h sel = inr msg) ->
  value (domRetries searchText n s) = inl false /\
  ops (session (domRetries searchText n s)) = ops s ++ repeat (textCheck searchText) n /\
  asked (session (domRetries searchText n s)) = asked s.
Proof.
  intros Hvis. revert s. induction n as [|n IH]; intros s.
  - simpl. rewrite app_nil_r. auto.
  - cbn [domRetries]. unfold bind at 1 2 3.
    destruct (domRound_closed s Hvis) as (msg & ->). simpl.
    destruct (IH {| ops := ops s ++ [textCheck searchText]; asked := asked s |})
      as (Hv & Ho & Ha).
    rewrite Hv, Ho, Ha. simpl. rewrite <- !app_assoc. auto.
Qed.

Lemma countOps_app (p : PageOp -> bool) (a b : list PageOp) :
  countOps p (a ++ b) = countOps p a + countOps p b.
Proof. unfold countOps. now rewrite List.filter_app, length_app. Qed.

Lemma anyVisible_two (a b : string) (s : Session) :
  exists l, ops (session (anyVisible [a; b] s)) = ops s ++ IsVisible a :: l /\
            (l = [] \/ l = [IsVisible b]).
Proof.
  cbn [anyVisible]. unfold bind, visible, ret, record. cbn [value session ops].
  destruct (isVisible (ops s) a) as [[|]|msg]; cbn [value session ops].
  - exists []. auto.
  - destruct (isVisible (ops s ++ [IsVisible a]) b) as [[|]|msg]; cbn [value session ops];
      exists [IsVisible b]; rewrite <- app_assoc; auto.
  - exists []. auto.
Qed.

(** A round makes exactly one [text=] check, at most one pause, and never
    throws. *)
Lemma domRound_one_check (s : Session) :
  exists l r,
    value (domRound searchText s) = inl r /\
    ops (session (domRound searchText s)) = ops s ++ l /\
    countOps (isTextCheck searchText) l = 1 /\
    countOps isPause l <= 1.
Proof.
  unfold domRound, attempt, strategies. cbn [value session].
  destruct (anyVisible_two ("text=" +:+ quoted searchText)
              ("*:has-text(" +:+ quoted searchText +:+ ")") s) as (l & Hl & Hcases).
  set (m := anyVisible _) in *.
  assert (Hcount : forall tl, countOps isPause tl <= 1 ->
            countOps (isTextCheck searchText) tl = 0 ->
            countOps (isTextCheck searchText) (textCheck searchText :: l ++ tl) = 1 /\
            countOps isPause (textCheck searchText :: l ++ tl) <= 1).
  { intros tl Hp Hz. unfold countOps in *. cbn [List.filter isTextCheck textCheck isPause].
    rewrite String.eqb_refl. cbn [length].
    destruct Hcases as [-> | ->]; cbn [app List.filter isTextCheck isPause length].
    - rewrite Hz. lia.
    - change (String.eqb ("*:has-text(" +:+ quoted searchText +:+ ")")
                         ("text=" +:+ quoted searchText)) with false.
      cbn iota. rewrite Hz. lia. }
  unfold bind at 1 2 3 4.
  destruct (value (m s)) as [[|]|msg]; cbn [value session ret].
  - exists (textCheck searchText :: l ++ []), (inl true). split; [reflexivity|].
    rewrite Hl. split; [|apply (Hcount []); [unfold countOps; simpl; lia | reflexivity]].
    now rewrite app_nil_r.
  - exists (textCheck searchText :: l ++ [WaitForTimeout 1000]).
    unfold bind, act, ret, record. cbn [value session ops].
    destruct (acts (ops (session (m s))) (WaitForTimeout 1000)); cbn [value session ops];
      eexists; (split; [reflexivity|]);
      rewrite Hl, <- app_assoc; (split; [reflexivity|]);
      apply (Hcount [WaitForTimeout 1000]); reflexivity || (unfold countOps; simpl; lia).
  - exists (textCheck searchText :: l ++ []), (inr msg). split; [reflexivity|].
    rewrite Hl. split; [|apply (Hcount []); [unfold countOps; simpl; lia | reflexivity]].
    now rewrite app_nil_r.
Qed.

(** On any page the DOM search never throws and never queries the oracle; it
    makes at most [n] rounds, one [text=] check each, with at most one pause
    per round, and it reports a miss only after all [n] rounds. *)
Theorem domRetries_bounded (n : nat) (s : Session) :
  exists l b,
    value (domRetries searchText n s) = inl b /\
    ops (session (domRetries searchText n s)) = ops s ++ l /\
    asked (session (domRetries searchText n s)) = asked s /\
    countOps (isTextCheck searchText) l <= n /\
    countOps isPause l <= countOps (isTextCheck searchText) l /\
    (b = false -> countOps (isTextCheck searchText) l = n).
Proof.
  revert s. induction n as [|n IH]; intros s.
  - exists [], false. simpl. rewrite app_nil_r. repeat split; auto.
  - cbn [domRetries].
    destruct (domRound_one_check s) as (l1 & r & Hv1 & Ho1 & Hc1 & Hp1).
    destruct (grows_domRound searchText s) as (_ & q & Hq & Hlen).
    assert (Ha1 : asked (session (domRound searchText s)) = asked s).
    { destruct q; [now rewrite Hq, app_nil_r | simpl in Hlen; lia]. }
    destruct (bind_run (domRound searchText)
                (fun r => match r with
                          | inl true => ret true
                          | inl false => domRetries searchText n
                          | inr _ => domRetries searchText n
                          end) s r Hv1) as [Hv Hs].
    rewrite Hv, Hs. clear Hv Hs.
    destruct (IH (session (domRound searchText s))) as (l2 & b & Hv2 & Ho2 & Ha2 & Hc2 & Hp2 & Hb2).
    destruct r as [[|]|msg].
    + exists l1, true. cbn [ret value session]. rewrite Ho1, Ha1. repeat split; try lia; try discriminate.
    + exists (l1 ++ l2), b. rewrite Hv2, Ho2, Ho1, Ha2, Ha1, !countOps_app, <- app_assoc.
      repeat split; try lia. intros Hb. specialize (Hb2 Hb). lia.
    + exists (l1 ++ l2), b. rewrite Hv2, Ho2, Ho1, Ha2, Ha1, !countOps_app, <- app_assoc.
      repeat split; try lia. intros Hb. specialize (Hb2 Hb). lia.
Qed.

End Rounds.


(** *** Value and session of a run *)

(** What a run returns and the session it leaves, without what it prints. *)
Definition run {A : Type} (m : M A) (s : Session) : (A + string) * Session :=
  (value (m s), session (m s)).

Lemma run_bind {A B : Type} (m : M A) (k : A -> M B) (s : Session) :
  run (bind m k) s =
  match run m s with
  | (inl a, s') => run (k a) s'
  | (inr e, s') => (inr e, s')
  end.
Proof. unfold run, bind. now destruct (value (m s)). Qed.

Lemma run_ret {A : Type} (a : A) (s : Session) : run (ret a) s = (inl a, s).
Proof. reflexivity. Qed.

Lemma run_throw {A : Type} (e : string) (s : Session) : run (throw (A := A) e) s = (inr e, s).
Proof. reflexivity. Qed.

Lemma run_log (line : string) (s : Session) : run (log line) s = (inl tt, s).
Proof. reflexivity. Qed.

Lemma run_attempt {A : Type} (m : M A) (s : Session) :
  run (attempt m) s = (inl (fst (run m s)), snd (run m s)).
Proof. reflexivity. Qed.

Lemma run_act {pg : Page} (op : PageOp) (s : Session) :
  run (act op) s =
  (match acts (ops s) op with None => inl tt | Some e => inr e end, record op s).
Proof. reflexivity. Qed.

Lemma run_ask {W : World} (q : Query) (s : Session) :
  run (ask q) s =
  (match vision (asked s) q with OracleThrows e => inr e | OracleContent c => inl c end,
   {| ops := ops s; asked := asked s ++ [q] |}).
Proof. reflexivity. Qed.

Lemma run_value {A : Type} (m : M A) (s : Session) : value (m s) = fst (run m s).
Proof. reflexivity. Qed.

Lemma run_session {A : Type} (m : M A) (s : Session) : session (m s) = snd (run m s).
Proof. reflexivity. Qed.

Ltac run_step :=
  rewrite run_bind;
  rewrite ?run_ret, ?run_throw, ?run_log, ?run_act, ?run_ask, ?run_attempt;
  cbv beta iota.

Ltac run_simpl :=
  repeat first [rewrite run_bind | rewrite run_ret | rewrite run_throw | rewrite run_log
               | rewrite run_act | rewrite run_ask | rewrite run_attempt
               | progress cbv beta iota].

Section Exists.

Context {W : World}.

(** One resolution attempt on a page whose screenshot call completes. *)
Lemma executeActionWithVision_run (instr actionTy : string) (payload : Data) (s : Session) :
  acts (ops s) Screenshot = None ->
  run (executeActionWithVision instr actionTy payload) s
    = (match vision (asked s) {| instruction := instr; actionType := actionTy;
                                 dataToType := payload |} with
       | OracleThrows msg => inr msg
       | OracleContent None => inr "No content in Vision AI response"
       | OracleContent (Some c) =>
           if String.eqb c EmptyString then inr "No content in Vision AI response"
           else match JSON_parse (extractJson c) with
                | None => inr "Vision AI returned invalid JSON"
                | Some v => inl v
                end
       end,
       {| ops := ops s ++ [Screenshot];
          asked := asked s ++ [{| instruction := instr; actionType := actionTy;
                                  dataToType := payload |}] |}).
Proof.
  intros Hshot. set (q := {| instruction := instr |}).
  assert (Hres : run (resolveOnce q) s
                 = (match vision (asked s) q with
                    | OracleThrows msg => inr msg
                    | OracleContent None => inr "No content in Vision AI response"
                    | OracleContent (Some c) =>
                        if String.eqb c EmptyString then inr "No content in Vision AI response"
                        else match JSON_parse (extractJson c) with
                             | None => inr "Vision AI returned invalid JSON"
                             | Some v => inl v
                             end
                    end,
                    {| ops := ops s ++ [Screenshot]; asked := asked s ++ [q] |})).
  { unfold resolveOnce. run_step. rewrite Hshot. run_step. cbn [record ops asked].
    destruct (vision (asked s) q) as [msg|[c|]]; [reflexivity| |reflexivity].
    destruct (String.eqb c EmptyString); [reflexivity|].
    destruct (JSON_parse (extractJson c)) as [v|].
    - run_step. run_step. reflexivity.
    - run_step. reflexivity. }
  unfold executeActionWithVision. fold q. run_step. run_step. rewrite Hres. cbn [fst snd].
  destruct (vision (asked s) q) as [msg|[c|]].
  - run_step. reflexivity.
  - destruct (String.eqb c EmptyString); [run_step; reflexivity|].
    destruct (JSON_parse (extractJson c)) as [v|]; [reflexivity | run_step; reflexivity].
  - run_step. reflexivity.
Qed.

Variable searchText : string.

(** The [exists] check on a page where every call completes and the text
    never becomes visible.  The DOM search makes five rounds, each a [text=]
    check, a [has-text] check and a pause of one second.  With vision off
    the check then fails with the not-found message.  With vision on it
    takes one screenshot and asks the oracle once whether the text is
    visible: it passes when the reply is read as [found: true], fails with
    the not-found message when the reply is read otherwise, and fails with
    the oracle's own error when the call throws. *)
Theorem validateExists_after_five_rounds (s : Session) :
  (forall h sel, isVisible h sel = inl false) ->
  (forall h op, acts h op = None) ->
  let q := {| instruction := "Verify if the text " +:+ quoted searchText
                             +:+ " is visible on the screen.";
              actionType := "validate"; dataToType := DataNull |} in
  let r := validateExists searchText s in
  (useVision = false ->
     value r = inr (notFoundMessage searchText) /\
     ops (session r) = ops s ++ missedRounds searchText 5 /\
     asked (session r) = asked s) /\
  (useVision = true ->
     ops (session r) = ops s ++ missedRounds searchText 5 ++ [Screenshot] /\
     asked (session r) = asked s ++ [q] /\
     (forall c v, vision (asked s) q = OracleContent (Some c) -> c <> EmptyString ->
                  JSON_parse (extractJson c) = Some v ->
                  value r = match found v with
                            | Some true => inl tt
                            | _ => inr (notFoundMessage searchText)
                            end) /\
     (forall msg, vision (asked s) q = OracleThrows msg -> value r = inr msg)).
Proof.
  intros Hvis Hcalm q r. subst r.
  destruct (domRetries_blank searchText maxRetries s Hvis (fun h => Hcalm h pause))
    as (Hv & Ho & Ha).
  assert (Hdom : run (domRetries searchText maxRetries) s
                 = (inl false, {| ops := ops s ++ missedRounds searchText 5; asked := asked s |})).
  { unfold run. rewrite Hv. f_equal.
    destruct (session (domRetries searchText maxRetries s)) as [o a]. simpl in Ho, Ha.
    now subst. }
  rewrite !run_value, !run_session.
  unfold validateExists. run_step. run_step. rewrite Hdom. cbv beta iota. cbn [negb andb].
  split; intros Hvision; rewrite Hvision.
  - run_step. cbn [fst snd ops asked]. auto.
  - run_simpl. rewrite executeActionWithVision_run by apply Hcalm.
    cbn [ops asked]. fold q.
    destruct (vision (asked s) q) as [msg|[c|]].
    + run_simpl. cbn [fst snd ops asked]. rewrite <- app_assoc.
      repeat split; try discriminate. intros msg' [= <-]. reflexivity.
    + destruct (String.eqb c EmptyString) eqn:Hc.
      * run_simpl. cbn [fst snd ops asked]. rewrite <- app_assoc.
        repeat split; try discriminate.
        intros c' v [= <-] Hne. apply String.eqb_eq in Hc. contradiction.
      * destruct (JSON_parse (extractJson c)) as [v|] eqn:Hp.
        -- destruct (found v) as [[|]|] eqn:Hf; run_simpl; cbn [fst snd ops asked];
             rewrite <- app_assoc; repeat split; try discriminate;
             intros c' v' [= <-] _ Hp'; rewrite Hp in Hp'; injection Hp' as <-;
             now rewrite Hf.
        -- run_simpl. cbn [fst snd ops asked]. rewrite <- app_assoc.
           repeat split; try discriminate.
           intros c' v [= <-] _ Hp'. rewrite Hp in Hp'. discriminate.
    + run_simpl. cbn [fst snd ops asked]. rewrite <- app_assoc.
      repeat split; discriminate.
Qed.

End Exists.


(** *** The result of a step *)

Section StepResults.

Context {W : World}.

Definition loadWait : PageOp := WaitForLoadState "domcontentloaded" None.
Definition idleWait : PageOp := WaitForLoadState "networkidle" (Some 2000%Z).

(** [smartWait] never throws; the second wait is made when the first
    completes. *)
Lemma smartWait_run (s : Session) :
  value (smartWait s) = inl tt /\
  session (smartWait s)
  = match acts (ops s) loadWait with
    | None => record idleWait (record loadWait s)
    | Some _ => record loadWait s
    end.
Proof.
  rewrite run_value, run_session. unfold smartWait. run_simpl.
  fold loadWait idleWait. destruct (acts (ops s) loadWait); run_simpl; split; reflexivity.
Qed.

(** [collectDiagnostics] never throws; the title is asked for when the
    address was given. *)
Lemma collectDiagnostics_run (s : Session) :
  value (collectDiagnostics s) = inl tt /\
  session (collectDiagnostics s)
  = record PageContent
      (match acts (ops s) PageUrl with
       | None => record PageTitle (record PageUrl s)
       | Some _ => record PageUrl s
       end).
Proof.
  rewrite run_value, run_session. unfold collectDiagnostics. run_simpl.
  destruct (acts (ops s) PageUrl); run_simpl; split; reflexivity.
Qed.

(** [executeStep] never throws, and its result follows the action.  Let the
    action of the step (the case of the switch) run in the session [s], and
    [smartWait] after it.  When the action returns a value and the screenshot
    that follows completes, the result is a pass that carries that value,
    and the screenshot is the last page call.  When the action throws, the
    result is a failure that carries the thrown message; a screenshot is
    requested right after the action, and then the diagnostics.  When the
    action returns but the screenshot after it throws, the result is a
    failure as well, carrying the message of the screenshot.  In every case
    the result names the step and its action, and the page calls made before
    the step are kept. *)
Theorem executeStep_never_throws (st : Step) (stepIndex : nat) (s : Session) :
  let s1 := session (dispatch st s) in
  let s2 := session (smartWait s1) in
  let pass d := {| success := true; rstep := description st; raction := action st;
                   error := None; detail := Some d |} in
  let failure msg := {| success := false; rstep := description st; raction := action st;
                        error := Some msg; detail := None |} in
  match value (dispatch st s), acts (ops s2) Screenshot with
  | inl d, None =>
      value (executeStep st stepIndex s) = inl (pass d) /\
      session (executeStep st stepIndex s) = record Screenshot s2
  | inl _, Some msg =>
      value (executeStep st stepIndex s) = inl (failure msg) /\
      session (executeStep st stepIndex s)
      = session (collectDiagnostics (record Screenshot (record Screenshot s2)))
  | inr msg, _ =>
      value (executeStep st stepIndex s) = inl (failure msg) /\
      session (executeStep st stepIndex s)
      = session (collectDiagnostics (record Screenshot s1))
  end /\
  (exists l, ops s1 = ops s ++ l) /\
  (exists r, value (executeStep st stepIndex s) = inl r /\
             rstep r = description st /\ raction r = action st /\
             (success r = true <-> error r = None) /\
             exists l, ops (session (executeStep st stepIndex s)) = ops s ++ l).
Proof.
  cbv zeta.
  assert (Hkept : exists l, ops (session (dispatch st s)) = ops s ++ l)
    by (destruct (grows_dispatch st s) as [H _]; exact H).
  assert (Hrun : match value (dispatch st s),
                       acts (ops (session (smartWait (session (dispatch st s))))) Screenshot with
                 | inl d, None =>
                     run (executeStep st stepIndex) s
                     = (inl {| success := true; rstep := description st;
                               raction := action st; error := None; detail := Some d |},
                        record Screenshot (session (smartWait (session (dispatch st s)))))
                 | inl _, Some msg =>
                     run (executeStep st stepIndex) s
                     = (inl {| success := false; rstep := description st;
                               raction := action st; error := Some msg; detail := None |},
                        session (collectDiagnostics
                                   (record Screenshot
                                      (record Screenshot
                                         (session (smartWait (session (dispatch st s)))))))) 
                 | inr msg, _ =>
                     run (executeStep st stepIndex) s
                     = (inl {| success := false; rstep := description st;
                               raction := action st; error := Some msg; detail := None |},
                        session (collectDiagnostics
                                   (record Screenshot (session (dispatch st s)))))
                 end).
  { unfold executeStep. run_simpl.
    change (run (dispatch st) s) with (value (dispatch st s), session (dispatch st s)).
    destruct (value (dispatch st s)) as [d|msg]; cbn [fst snd]; cbv beta iota.
    - run_simpl.
      change (run smartWait (session (dispatch st s)))
        with (value (smartWait (session (dispatch st s))),
              session (smartWait (session (dispatch st s)))).
      rewrite (proj1 (smartWait_run (session (dispatch st s)))). cbv beta iota.
      run_simpl.
      destruct (acts (ops (session (smartWait (session (dispatch st s))))) Screenshot)
        as [msg|]; cbn [fst snd]; cbv beta iota; run_simpl.
      + match goal with
        | |- context [run collectDiagnostics ?s'] =>
            change (run collectDiagnostics s')
              with (value (collectDiagnostics s'), session (collectDiagnostics s'));
            rewrite (proj1 (collectDiagnostics_run s'))
        end.
        cbv beta iota. run_simpl. reflexivity.
      + reflexivity.
    - run_simpl.
      match goal with
      | |- context [run collectDiagnostics ?s'] =>
          change (run collectDiagnostics s')
            with (value (collectDiagnostics s'), session (collectDiagnostics s'));
          rewrite (proj1 (collectDiagnostics_run s'))
      end.
      cbv beta iota. run_simpl.
      destruct (acts (ops (session (smartWait (session (dispatch st s))))) Screenshot);
        reflexivity. }
  unfold run in Hrun.
  split; [|split; [exact Hkept|]].
  - destruct (value (dispatch st s)) as [d|msg];
      [destruct (acts _ Screenshot) as [msg|] | try destruct (acts _ Screenshot)];
      injection Hrun as Hv Hs; split; assumption.
  - destruct (grows_executeStep st stepIndex s) as [Hops _].
    destruct (value (dispatch st s)) as [d|msg];
      [destruct (acts _ Screenshot) as [msg|] | try destruct (acts _ Screenshot)];
      injection Hrun as Hv Hs; eexists; (split; [exact Hv|]);
      cbn [rstep raction success error]; repeat split; try discriminate; exact Hops.
Qed.

End StepResults.



(** *** Actions the executor does not know *)



(** *** navigate *)

Section Navigate.

Context {W : World}.


End Navigate.



(** *** wait *)

Lemma decDigit_value :
  decDigit "0" = Some 0%Z /\ decDigit "1" = Some 1%Z /\ decDigit "2" = Some 2%Z /\
  decDigit "3" = Some 3%Z /\ decDigit "4" = Some 4%Z /\ decDigit "5" = Some 5%Z /\
  decDigit "6" = Some 6%Z /\ decDigit "7" = Some 7%Z /\ decDigit "8" = Some 8%Z /\
  decDigit "9" = Some 9%Z.
Proof. repeat split. Qed.

(** Reading the digits of a numeral with a positive accumulator. *)
Lemma digitsValue_acc (d : Decimal.uint) : forall acc : positive,
  digitsValue 10 decDigit (Zpos acc) (NilEmpty.string_of_uint d)
  = (Zpos (Pos.of_uint_acc d acc), String.length (NilEmpty.string_of_uint d)).
Proof.
  induction d; intros acc; cbn [NilEmpty.string_of_uint digitsValue Pos.of_uint_acc String.length];
    try reflexivity;
    match goal with
    | |- context [decDigit ?c] =>
        let v := eval vm_compute in (decDigit c) in change (decDigit c) with v
    end; cbv iota;
    match goal with
    | |- context [digitsValue 10 decDigit ?z _] =>
        match goal with
        | |- context [Pos.of_uint_acc d ?p] => replace z with (Zpos p) by lia
        end
    end; rewrite IHd; reflexivity.
Qed.

Lemma digitsValue_uint (d : Decimal.uint) :
  digitsValue 10 decDigit 0 (NilEmpty.string_of_uint d)
  = (Z.of_N (Pos.of_uint d), String.length (NilEmpty.string_of_uint d)).
Proof.
  induction d; cbn [NilEmpty.string_of_uint digitsValue Pos.of_uint String.length];
    try reflexivity;
    match goal with
    | |- context [decDigit ?c] =>
        let v := eval vm_compute in (decDigit c) in change (decDigit c) with v
    end; cbv iota.
  - change (10 * 0 + 0)%Z with 0%Z. now rewrite IHd.
  - change (10 * 0 + 1)%Z with (Zpos 1). now rewrite digitsValue_acc.
  - change (10 * 0 + 2)%Z with (Zpos 2). now rewrite digitsValue_acc.
  - change (10 * 0 + 3)%Z with (Zpos 3). now rewrite digitsValue_acc.
  - change (10 * 0 + 4)%Z with (Zpos 4). now rewrite digitsValue_acc.
  - change (10 * 0 + 5)%Z with (Zpos 5). now rewrite digitsValue_acc.
  - change (10 * 0 + 6)%Z with (Zpos 6). now rewrite digitsValue_acc.
  - change (10 * 0 + 7)%Z with (Zpos 7). now rewrite digitsValue_acc.
  - change (10 * 0 + 8)%Z with (Zpos 8). now rewrite digitsValue_acc.
  - change (10 * 0 + 9)%Z with (Zpos 9). now rewrite digitsValue_acc.
Qed.

(** A numeral is read as it stands: no white space, no sign, no [0x]. *)
Lemma parseInt_digits (d : Decimal.uint) :
  d <> Decimal.Nil ->
  parseInt (NilEmpty.string_of_uint d)
  = match digitsValue 10 decDigit 0 (NilEmpty.string_of_uint d) with
    | (_, O) => None
    | (z, S _) => Some (toDouble (1 * z))
    end.
Proof.
  intros Hd. destruct d as [|l|l|l|l|l|l|l|l|l|l]; [congruence|..]; try reflexivity.
  destruct l; reflexivity.
Qed.

Lemma parseInt_uint (d : Decimal.uint) :
  d <> Decimal.Nil ->
  parseInt (NilEmpty.string_of_uint d) = Some (toDouble (Z.of_N (Pos.of_uint d))).
Proof.
  intros Hd. rewrite (parseInt_digits d Hd), digitsValue_uint.
  destruct d; [congruence|..]; cbn [NilEmpty.string_of_uint String.length];
    do 2 f_equal; lia.
Qed.

Lemma parseInt_showZ (z : Z) : (0 < z)%Z -> parseInt (showZ z) = Some (toDouble z).
Proof.
  intros Hz. destruct z as [|p|p]; try lia.
  unfold showZ. change (Z.to_int (Zpos p)) with (Decimal.Pos (Pos.to_uint p)).
  cbn [NilEmpty.string_of_int].
  rewrite parseInt_uint by apply DecimalPos.Unsigned.to_uint_nonnil.
  now rewrite DecimalPos.Unsigned.of_to.
Qed.

Lemma parseInt_letter (c : ascii) (r : string) :
  is_lower c || is_upper c = true -> parseInt (String c r) = None.
Proof.
  destruct c as [[|] [|] [|] [|] [|] [|] [|] [|]]; intros Hc; try discriminate Hc; reflexivity.
Qed.

(** Below [2^53] an integer is a double. *)
Lemma toDouble_exact (z : Z) : (Z.abs z < 2 ^ 53)%Z -> toDouble z = Finite z.
Proof.
  intros Hz. unfold toDouble. cbv zeta.
  destruct (Z.abs z <? 2 ^ 53)%Z eqn:Hlt; [reflexivity|]. apply Z.ltb_ge in Hlt. lia.
Qed.

(** The double nearest to a positive integer is not zero. *)
Lemma toDouble_positive (z : Z) : (0 < z)%Z -> toDouble z <> Finite 0.
Proof.
  intros Hz. unfold toDouble. cbv zeta.
  destruct (Z.abs z <? 2 ^ 53)%Z eqn:Hlt; [intros [= ->]; lia|].
  apply Z.ltb_ge in Hlt. rewrite Z.abs_eq in * by lia.
  destruct (_ >=? _)%Z; [discriminate|].
  set (e := (Z.log2 z - 52)%Z).
  assert (He : (0 <= e)%Z).
  { assert (Z.log2 (2 ^ 53) <= Z.log2 z)%Z by (apply Z.log2_le_mono; lia).
    rewrite Z.log2_pow2 in H by lia. subst e. lia. }
  assert (Hq : (2 ^ 52 <= Z.shiftr z e)%Z).
  { rewrite Z.shiftr_div_pow2 by exact He.
    apply Z.div_le_lower_bound; [lia|].
    rewrite <- Z.pow_add_r by lia. replace (e + 52)%Z with (Z.log2 z) by (subst e; lia).
    apply Z.log2_spec. lia. }
  intros [= Hv]. rewrite Z.sgn_pos in Hv by lia.
  rewrite Z.shiftl_mul_pow2 in Hv by exact He.
  assert (0 < 2 ^ e)%Z by lia.
  destruct (_ || _); nia.
Qed.

Lemma showNumber_exact (z : Z) :
  (0 <= z < 2 ^ 53)%Z -> showNumber (Finite z) = showZ z.
Proof.
  intros [Hz Hlt]. unfold showNumber, showMagnitude.
  destruct (z <? 0)%Z eqn:Hneg; [apply Z.ltb_lt in Hneg; lia|].
  destruct (z <? 2 ^ 53)%Z eqn:Hsmall; [reflexivity|]. apply Z.ltb_ge in Hsmall. lia.
Qed.

Section Wait.

Context {pg : Page}.

Lemma wait_run (st : Step) (s : Session) :
  ops (session (wait st s)) = ops s ++ [waitForTimeout (waitDuration st)] /\
  value (wait st s)
  = match acts (ops s) (waitForTimeout (waitDuration st)) with
    | None => inl (showNumber (waitDuration st))
    | Some msg => inr msg
    end.
Proof.
  rewrite run_session, run_value. unfold wait. cbv zeta. run_simpl.
  destruct (acts _ _); split; reflexivity.
Qed.

(** How long [wait] waits, and what it returns.  A payload that is the
    decimal numeral of a positive integer gives the double nearest to that
    integer: the integer itself below 2^53, and from there on a rounded
    value (the numeral 9007199254740993 waits 9007199254740992 ms).  No
    payload, the numeral [0] and text that starts with a letter give 1000.
    The wait is the only page call; when it completes, the value returned is
    the duration as a template literal prints it, and when it throws, so
    does [wait]. *)
Theorem wait_duration (st : Step) (s : Session) :
  (forall z, (0 < z)%Z -> data st = DataStr (showZ z) ->
     ops (session (wait st s)) = ops s ++ [waitForTimeout (toDouble z)] /\
     value (wait st s)
     = match acts (ops s) (waitForTimeout (toDouble z)) with
       | None => inl (showNumber (toDouble z))
       | Some msg => inr msg
       end) /\
  (forall z, (0 < z < 2 ^ 53)%Z ->
     waitForTimeout (toDouble z) = WaitForTimeout z /\
     showNumber (toDouble z) = showZ z) /\
  (waitForTimeout (toDouble 9007199254740993) = WaitForTimeout 9007199254740992 /\
   showNumber (toDouble 9007199254740993) = "9007199254740992") /\
  (data st = DataNull \/ data st = DataStr "0" \/
   (exists c r, data st = DataStr (String c r) /\ is_lower c || is_upper c = true) ->
     ops (session (wait st s)) = ops s ++ [WaitForTimeout 1000] /\
     value (wait st s)
     = match acts (ops s) (WaitForTimeout 1000) with
       | None => inl "1000"
       | Some msg => inr msg
       end).
Proof.
  split; [|split; [|split]].
  - intros z Hz Hd.
    assert (Hdur : waitDuration st = toDouble z).
    { unfold waitDuration. rewrite Hd. cbn [dataText]. rewrite (parseInt_showZ z Hz).
      pose proof (toDouble_positive z Hz) as Hnz.
      destruct (toDouble z) as [[|p|p]|neg]; congruence. }
    rewrite <- Hdur. apply wait_run.
  - intros z [Hz Hlt]. rewrite toDouble_exact by lia. split; [reflexivity|].
    apply showNumber_exact. lia.
  - split; vm_compute; reflexivity.
  - intros Hd.
    assert (Hdur : waitDuration st = Finite 1000).
    { unfold waitDuration.
      destruct Hd as [->|[->|(c & r & -> & Hc)]]; [reflexivity | reflexivity |].
      cbn [dataText]. rewrite parseInt_letter by exact Hc. reflexivity. }
    pose proof (wait_run st s) as Hrun. rewrite Hdur in Hrun. exact Hrun.
Qed.

End Wait.



(** *** Cutting the JSON out of a reply *)

Lemma splitOn_absent (c : ascii) (pat s : string) :
  all_chars (fun x => negb (Ascii.eqb x c)) s = true ->
  splitOn (String c pat) s = None.
Proof.
  induction s as [|x s IH]; intros Hs; [reflexivity|].
  cbn [all_chars] in Hs. apply andb_true_iff in Hs as [Hx Hs].
  cbn [splitOn matches_at]. apply negb_true_iff in Hx.
  rewrite Ascii.eqb_sym, Hx. cbn [andb]. now rewrite IH.
Qed.

Definition notChar (c : ascii) (x : ascii) : bool := negb (Ascii.eqb x c).

(** A reply without code fence is searched for a JSON object: what is parsed
    is the text from the first opening brace to the last closing brace, so
    prose before and after the object is dropped; a reply with no opening
    brace is parsed as it stands. *)
Theorem extractJson_strips_prose (pre body post : string) :
  all_chars (notChar "`") (pre +:+ body +:+ post) = true ->
  all_chars (notChar "{") pre = true ->
  all_chars (notChar "}") post = true ->
  extractJson (pre +:+ "{" +:+ body +:+ "}" +:+ post) = "{" +:+ body +:+ "}" /\
  extractJson pre = pre.
Proof.
  intros Htick Hpre Hpost.
  rewrite !all_chars_append in Htick.
  apply andb_true_iff in Htick as [Htpre Htick]. apply andb_true_iff in Htick as [Htbody Htpost].
  split.
  - unfold extractJson, fencedJson.
    change fenceOpen with (String "`" ("``json" +:+ newline)).
    rewrite splitOn_absent
      by (rewrite !all_chars_append; cbn [all_chars String.append];
          rewrite ?all_chars_append; cbn [all_chars];
          fold (notChar "`"); rewrite Htpre, Htbody, Htpost; reflexivity).
    unfold bracedJson. cbn [String.append].
    destruct (takeWhile_append (fun c => negb (Ascii.eqb c "{")) pre "{"
                (body +:+ String "}" post) Hpre eq_refl) as [_ ->].
    unfold throughLastBrace.
    rewrite rev_append, rev_cons.
    replace ((String.rev post +:+ "}") +:+ String.rev body)
      with (String.rev post +:+ String "}" (String.rev body))
      by (rewrite append_assoc; reflexivity).
    destruct (takeWhile_append (fun c => negb (Ascii.eqb c "}")) (String.rev post) "}"
                (String.rev body)) as [_ ->];
      [now rewrite all_chars_rev | reflexivity |].
    rewrite rev_cons, rev_rev. reflexivity.
  - unfold extractJson, fencedJson.
    change fenceOpen with (String "`" ("``json" +:+ newline)).
    rewrite splitOn_absent by exact Htpre.
    unfold bracedJson.
    assert (Hd : dropWhile (fun c => negb (Ascii.eqb c "{")) pre = EmptyString).
    { clear -Hpre. induction pre as [|c pre IH]; [reflexivity|].
      cbn [all_chars] in Hpre. apply andb_true_iff in Hpre as [Hc Hpre].
      cbn [dropWhile]. unfold notChar in Hc. rewrite Hc. now apply IH. }
    now rewrite Hd.
Qed.

(** *** The locate phase of click *)

Section Locate.

Context {pg : Page}.
Hypothesis Hlocator : forall h sel, acts h (Locator sel) = None.

Definition notGeneric (op : PageOp) : Prop := forall sel, op <> LocatorAll sel.

Lemma tryAlternatives_holds (alts : list string) : forall st s,
  element st <> None ->
  exists st' l,
    run (tryAlternatives alts st) s
      = (inl st', {| ops := ops s ++ l; asked := asked s |}) /\
    element st' <> None /\ Forall notGeneric l.
Proof.
  induction alts as [|alt rest IH]; intros st s Hst.
  - exists st, []. rewrite app_nil_r. destruct s. repeat split; auto.
  - cbn [tryAlternatives]. run_simpl. rewrite Hlocator. cbn [fst snd]. cbv iota.
    run_simpl. cbn [fst snd].
    destruct (acts (ops (record (Locator (Some alt)) s)) (WaitFor (Some alt) "attached" 2000)).
    + edestruct (IH {| element := Some (Some alt); finalSelector := finalSelector st |}
                    (record (WaitFor (Some alt) "attached" 2000) (record (Locator (Some alt)) s)))
        as (st' & l & Hrun & Hel & Hall); [discriminate|].
      rewrite Hrun. exists st', ([Locator (Some alt); WaitFor (Some alt) "attached" 2000] ++ l).
      unfold record. cbn [ops asked]. rewrite <- ?app_assoc. repeat split; auto.
      repeat constructor; auto; intros sel; discriminate.
    + run_simpl. eexists _, [Locator (Some alt); WaitFor (Some alt) "attached" 2000].
      unfold record. cbn [ops asked]. rewrite <- ?app_assoc. repeat split; try discriminate.
      repeat constructor; intros sel; discriminate.
Qed.

(** When building a locator does not throw (in Playwright it is lazy and
    does not touch the page), the locate phase of [click] always ends
    holding a locator: it never runs the generic button detection and never
    fails with [Could not find clickable element], even when every wait for
    the element timed out. *)
Theorem locate_always_holds (sel : option string) (s : Session) :
  exists loc l,
    run (locate sel) s = (inl loc, {| ops := ops s ++ l; asked := asked s |}) /\
    element loc <> None /\ Forall notGeneric l.
Proof.
  unfold locate. run_simpl. rewrite Hlocator. cbn [fst snd]. cbv iota. run_simpl. cbn [fst snd].
  destruct (acts (ops (record (Locator sel) s)) (WaitFor sel "attached" 5000)).
  - unfold locateFallback. run_simpl. cbn [finalSelector element].
    destruct (isTextSelector sel).
    + edestruct (tryAlternatives_holds (textAlternatives (orEmpty sel))
                   {| element := Some sel;
                      finalSelector := if truthyOpt sel then orEmpty sel else EmptyString |}
                   (record (WaitFor sel "attached" 5000) (record (Locator sel) s)))
        as (st' & l & Hrun & Hel & Hall); [discriminate|].
      rewrite Hrun. cbv iota. destruct (element st') eqn:He; [|congruence].
      run_simpl. rewrite He. run_simpl.
      exists st', ([Locator sel; WaitFor sel "attached" 5000] ++ l).
      unfold record. cbn [ops asked]. rewrite <- ?app_assoc. repeat split; auto; [congruence|].
      repeat constructor; auto; intros x; discriminate.
    + run_simpl. cbn [element]. run_simpl.
      eexists _, [Locator sel; WaitFor sel "attached" 5000].
      unfold record. cbn [ops asked]. rewrite <- ?app_assoc. repeat split; try discriminate.
      repeat constructor; intros x; discriminate.
  - run_simpl. eexists _, [Locator sel; WaitFor sel "attached" 5000].
    unfold record. cbn [ops asked]. rewrite <- ?app_assoc. repeat split; try discriminate.
    repeat constructor; intros x; discriminate.
Qed.

End Locate.


(** *** Sample runs *)

Lemma executeStep_ignores_advice_witness :
  session (executeStep (W := Fixtures.sureWorld) Fixtures.clickOk 0 start)
    = session (executeStep (W := withOracle Fixtures.sureWorld Fixtures.unsureOracle)
                 Fixtures.clickOk 0 start) /\
  value (executeStep (W := Fixtures.sureWorld) Fixtures.clickOk 0 start)
    = value (executeStep (W := withOracle Fixtures.sureWorld Fixtures.unsureOracle)
               Fixtures.clickOk 0 start).
Proof.
  apply (executeStep_ignores_advice Fixtures.sureWorld Fixtures.unsureOracle
           Fixtures.clickOk 0 start).
  intros a q. cbn. split; [split; discriminate|]. repeat split.
Defined.

Lemma domRetries_no_pause_on_error_witness :
  ops (session (domRetries (pg := closedPage) "Dashboard" maxRetries start))
    = repeat (textCheck "Dashboard") 5.
Proof.
  apply (domRetries_no_pause_on_error (pg := closedPage) "Dashboard" maxRetries start).
  intros h sel. eexists. reflexivity.
Defined.

Lemma validateExists_after_five_rounds_witness :
  ops (session (validateExists (W := proseThenJson) "Dashboard" start))
    = ops start ++ missedRounds "Dashboard" 5 ++ [Screenshot] /\
  value (validateExists (W := proseThenJson) "Dashboard" start)
    = inr "Vision AI returned invalid JSON".
Proof.
  destruct (validateExists_after_five_rounds (W := proseThenJson) "Dashboard" start
              (fun _ _ => eq_refl) (fun _ _ => eq_refl)) as [_ Hon].
  destruct (Hon eq_refl) as (Hops & _ & _ & _).
  split; [exact Hops | reflexivity].
Defined.

Lemma extractJson_strips_prose_witness :
  extractJson ("Here is the element: " +:+ "{" +:+ (quoted "found" +:+ ":true") +:+ "}"
               +:+ " as requested.")
    = "{" +:+ (quoted "found" +:+ ":true") +:+ "}".
Proof.
  apply (extractJson_strips_prose "Here is the element: " (quoted "found" +:+ ":true")
           " as requested."); reflexivity.
Defined.

Lemma locate_always_holds_witness :
  exists loc l,
    run (locate (pg := blankPage) (Some "#ok")) start
      = (inl loc, {| ops := ops start ++ l; asked := asked start |}) /\
    element loc <> None.
Proof.
  destruct (locate_always_holds (pg := blankPage) (fun _ _ => eq_refl) (Some "#ok") start)
    as (loc & l & Hrun & Hel & _).
  exists loc, l. split; [exact Hrun | exact Hel].
Defined.

End ExecutorFacts.

(** ** Features, the suite and the exit status *)

Module SuiteFacts.
Import Orchestrator OrchestratorFacts Suite.

(** Counting recorded Orchestrator.results. *)
Definition passedResults (l : list StepResult) : nat :=
  length (List.filter (fun r => success r) l).
Definition failedResults (l : list StepResult) : nat :=
  length (List.filter (fun r => negb (success r)) l).

Definition isPassed (s : Status) : bool := match s with passed => true | _ => false end.
Definition isErrored (s : Status) : bool := match s with errored => true | _ => false end.

(** Scenarios that did not pass, scenarios that ended in an exception, and
    step Orchestrator.results by outcome, over a list of scenario Orchestrator.results. *)
Definition notPassed (l : list ScenarioResult) : nat :=
  length (List.filter (fun s => negb (isPassed (status s))) l).
Definition threw (l : list ScenarioResult) : nat :=
  length (List.filter (fun s => isErrored (status s)) l).
Definition passedIn (l : list ScenarioResult) : nat :=
  list_sum (map (fun s => passedResults (rsteps s)) l).
Definition failedIn (l : list ScenarioResult) : nat :=
  list_sum (map (fun s => failedResults (rsteps s)) l).
Definition recordedIn (l : list ScenarioResult) : nat :=
  list_sum (map (fun s => length (rsteps s)) l).

Definition scenariosOf (l : list FeatureResult) : list ScenarioResult :=
  flat_map fscenarios l.

Lemma passedResults_app (a b : list StepResult) :
  passedResults (a ++ b) = passedResults a + passedResults b.
Proof. unfold passedResults. now rewrite List.filter_app, length_app. Qed.

Lemma failedResults_app (a b : list StepResult) :
  failedResults (a ++ b) = failedResults a + failedResults b.
Proof. unfold failedResults. now rewrite List.filter_app, length_app. Qed.

Section Counting.

Context {World : Type} {agents : Collaborators World}.

(** What one run of the step loop adds to the counters. *)
Lemma stepLoop_counts (sc : Scenario) (todo : list Step) : forall i st,
  lstatus st = running ->
  let out := stepLoop sc todo i st in
  totalSteps (stats out) + length (calls st) = totalSteps (stats st) + length (calls out) /\
  passedSteps (stats out) + passedResults (Orchestrator.results st)
    = passedSteps (stats st) + passedResults (Orchestrator.results out) /\
  failedSteps (stats out)
    = failedSteps (stats st) + (if isPassed (match lstatus out with running => passed | x => x end)
                                then 0 else 1) /\
  failedResults (Orchestrator.results out)
    = failedResults (Orchestrator.results st) + (match lstatus out with failed => 1 | _ => 0 end) /\
  length (calls out) + length (Orchestrator.results st)
    = length (calls st) + length (Orchestrator.results out) + (if isErrored (lstatus out) then 1 else 0).
Proof.
  induction todo as [|s rest IH]; intros i st Hrun; cbn zeta.
  - cbn [stepLoop]. rewrite Hrun. cbn. lia.
  - cbn [stepLoop]. destruct (executeStep s i (world st)) as [[r|msg] w1].
    + destruct (success r) eqn:Hs.
      * match goal with
        | |- context [stepLoop sc rest (S i) ?st1] =>
            specialize (IH (S i) st1 Hrun); cbn zeta in IH;
            destruct IH as (IT & IP & IF & IN & IC)
        end.
        cbn [stats calls Orchestrator.results bump_total bump_passed totalSteps passedSteps failedSteps] in *.
        rewrite passedResults_app, failedResults_app, !length_app in *.
        unfold passedResults, failedResults in *. cbn [List.filter length] in *.
        rewrite Hs in *. cbn [negb length] in *. repeat split; lia.
      * destruct (analyzeFailed r sc w1) as [r' w2] eqn:Han.
        pose proof (analyzeFailed_success r sc w1) as Hsame. rewrite Han in Hsame.
        cbn [fst] in Hsame.
        cbn [stats calls Orchestrator.results lstatus bump_total bump_failed totalSteps passedSteps
             failedSteps isPassed isErrored].
        rewrite passedResults_app, failedResults_app, !length_app.
        unfold passedResults, failedResults. cbn [List.filter length].
        rewrite Hsame, Hs. cbn [negb length]. repeat split; lia.
    + cbn [stats calls Orchestrator.results lstatus bump_total bump_failed totalSteps passedSteps
           failedSteps isPassed isErrored].
      rewrite !length_app. cbn [length]. repeat split; lia.
Qed.

(** The counters after one scenario, in terms of its result. *)
Lemma runScenario_counts (sc : Scenario) (stats0 : OverallStats) (w : World) :
  let out := runLoop sc stats0 w in
  let res := runScenario sc stats0 w in
  passedSteps (stats out) = passedSteps stats0 + passedResults (rsteps res) /\
  failedSteps (stats out) = failedSteps stats0 + (if isPassed (status res) then 0 else 1) /\
  totalSteps (stats out)
    = totalSteps stats0 + length (rsteps res) + (if isErrored (status res) then 1 else 0) /\
  failedResults (rsteps res) = (match status res with failed => 1 | _ => 0 end) /\
  status res <> running.
Proof.
  cbn zeta. unfold runScenario, runLoop.
  match goal with
  | |- context [stepLoop sc (steps sc) 0 ?st0] =>
      destruct (stepLoop_counts sc (steps sc) 0 st0 eq_refl) as (IT & IP & IF & IN & IC)
  end.
  cbn [stats calls Orchestrator.results lstatus length rsteps status] in *.
  unfold passedResults, failedResults in *. cbn [List.filter length] in *.
  destruct (lstatus _) eqn:Hst; cbn [isPassed isErrored] in *; repeat split;
    lia || discriminate.
Qed.

End Counting.

Section Features.

Context {World : Type} {agents : Agents World}.

(** The step counters agree with the recorded Orchestrator.results. *)
Definition accounted (st : RunState World) : Prop :=
  passedSteps (stepStats (counters st)) = passedIn (scenariosOf (features st)) /\
  failedSteps (stepStats (counters st)) = notPassed (scenariosOf (features st)) /\
  totalSteps (stepStats (counters st))
    = recordedIn (scenariosOf (features st)) + threw (scenariosOf (features st)) /\
  failedIn (scenariosOf (features st)) + threw (scenariosOf (features st))
    = notPassed (scenariosOf (features st)).

Lemma notPassed_app a b : notPassed (a ++ b) = notPassed a + notPassed b.
Proof. unfold notPassed. now rewrite List.filter_app, length_app. Qed.
Lemma threw_app a b : threw (a ++ b) = threw a + threw b.
Proof. unfold threw. now rewrite List.filter_app, length_app. Qed.
Lemma passedIn_app a b : passedIn (a ++ b) = passedIn a + passedIn b.
Proof. unfold passedIn. now rewrite map_app, list_sum_app. Qed.
Lemma failedIn_app a b : failedIn (a ++ b) = failedIn a + failedIn b.
Proof. unfold failedIn. now rewrite map_app, list_sum_app. Qed.
Lemma recordedIn_app a b : recordedIn (a ++ b) = recordedIn a + recordedIn b.
Proof. unfold recordedIn. now rewrite map_app, list_sum_app. Qed.

Lemma scenariosOf_app a b : scenariosOf (a ++ b) = scenariosOf a ++ scenariosOf b.
Proof. unfold scenariosOf. apply flat_map_app. Qed.

(** The scenario loop of [runFeature]: every scenario is run, in order, and
    the counters follow the Orchestrator.results. *)
Lemma scenarioLoop_spec (e : Executor World) (todo : list Scenario) :
  forall done st tr w,
  match scenarioLoop e todo done st tr w with
  | (scs, st', tr', _) =>
      exists added,
        scs = done ++ added /\
        map rname added = map name todo /\
        tr' = tr ++ map Scenario_ (map name todo) /\
        passedSteps st' = passedSteps st + passedIn added /\
        failedSteps st' = failedSteps st + notPassed added /\
        totalSteps st' = totalSteps st + recordedIn added + threw added /\
        failedIn added + threw added = notPassed added
  end.
Proof.
  induction todo as [|sc rest IH]; intros done st tr w.
  - cbn [scenarioLoop]. exists []. rewrite !app_nil_r. cbn. repeat split; lia.
  - cbn [scenarioLoop].
    pose proof (runScenario_counts (agents := collaborators e) sc st w) as Hc.
    cbn zeta in Hc. destruct Hc as (HP & HF & HT & HN & Hrun).
    set (res := runScenario sc st w) in *. set (loop := runLoop sc st w) in *.
    specialize (IH (done ++ [res]) (stats loop) (tr ++ [Scenario_ (name sc)]) (world loop)).
    destruct (scenarioLoop e rest (done ++ [res]) (stats loop)
                (tr ++ [Scenario_ (name sc)]) (world loop)) as [[[scs st'] tr'] w'].
    destruct IH as (added & -> & Hnames & -> & IP & IF & IT & IN).
    exists (res :: added). rewrite <- !app_assoc. cbn [app map].
    split; [reflexivity|]. split; [now rewrite Hnames|]. split; [reflexivity|].
    change (res :: added) with ([res] ++ added).
    rewrite passedIn_app, notPassed_app, recordedIn_app, threw_app, failedIn_app.
    assert (H1 : passedIn [res] = passedResults (rsteps res)) by (cbn; lia).
    assert (H2 : recordedIn [res] = length (rsteps res)) by (cbn; lia).
    assert (H3 : failedIn [res] = failedResults (rsteps res)) by (cbn; lia).
    assert (H4 : notPassed [res] = if isPassed (status res) then 0 else 1)
      by (unfold notPassed; cbn [List.filter]; now destruct (isPassed (status res))).
    assert (H5 : threw [res] = if isErrored (status res) then 1 else 0)
      by (unfold threw; cbn [List.filter]; now destruct (isErrored (status res))).
    rewrite H1, H2, H3, H4, H5, IP, IF, IT, HP, HF, HT, HN.
    destruct (status res); [congruence|..]; cbn [isPassed isErrored]; repeat split; lia.
Qed.

Lemma allPassed_Forall (l : list ScenarioResult) :
  allPassed l = true <-> Forall (fun s => status s = passed) l.
Proof.
  unfold allPassed. rewrite forallb_forall, List.Forall_forall.
  split; intros H s Hs; specialize (H s Hs); now destruct (status s).
Qed.

(** [ran e st w todo scs st' w']: the scenarios [todo] were run one after
    the other with [runScenario] on the executor [e], the first with the
    counters [st] in the world [w] and each of the others with the counters
    and in the world the one before it left, whatever its status; [scs] are
    their results, [st'] and [w'] the counters and the world at the end. *)
Inductive ran (e : Executor World)
  : OverallStats -> World -> list Scenario -> list ScenarioResult
    -> OverallStats -> World -> Prop :=
| ran_nil st w : ran e st w [] [] st w
| ran_cons st w sc rest scs st' w' :
    ran e (stats (runLoop (agents := collaborators e) sc st w))
          (world (runLoop (agents := collaborators e) sc st w)) rest scs st' w' ->
    ran e st w (sc :: rest) (runScenario (agents := collaborators e) sc st w :: scs) st' w'.

Lemma scenarioLoop_ran (e : Executor World) (todo : list Scenario) :
  forall done st tr w,
  exists scs st' w',
    ran e st w todo scs st' w' /\
    scenarioLoop e todo done st tr w
    = (done ++ scs, st', tr ++ map Scenario_ (map name todo), w').
Proof.
  induction todo as [|sc rest IH]; intros done st tr w.
  - exists [], st, w. split; [constructor|]. cbn. now rewrite !app_nil_r.
  - cbn [scenarioLoop].
    destruct (IH (done ++ [runScenario (agents := collaborators e) sc st w])
                 (stats (runLoop (agents := collaborators e) sc st w))
                 (tr ++ [Scenario_ (name sc)])
                 (world (runLoop (agents := collaborators e) sc st w)))
      as (scs & st' & w' & Hran & Heq).
    exists (runScenario (agents := collaborators e) sc st w :: scs), st', w'.
    split; [now constructor|]. rewrite Heq, <- !app_assoc. reflexivity.
Qed.

Lemma ran_names (e : Executor World) st w todo scs st' w' :
  ran e st w todo scs st' w' -> map rname scs = map name todo.
Proof. induction 1; [reflexivity|]. cbn. now f_equal. Qed.

(** A feature whose plan is compiled and whose executor starts.  Every
    scenario of the plan is run with [runScenario], in plan order, each one
    in the world the one before it left and whatever the outcome of the
    scenarios before it; the executor is initialised once before the first.
    After the last scenario the executor is cleaned up, once, in the world
    that scenario left.  The feature result holds the results of all the
    scenarios; it carries the message of the cleanup when the cleanup throws,
    and then its status is [error]; otherwise it has no message and its
    status is [passed] when every scenario passed and [failed] when one did
    not.  So the feature passes exactly when the cleanup did not throw and
    every scenario passed. *)
Theorem runFeature_runs_every_scenario (file : string) (st : RunState World)
  (testPlan : ExecutionPlan) (w1 w2 : World) :
  gherkin file (sworld st) = (inl testPlan, w1) ->
  initialize (selectExecutor (type testPlan)) w1 = (None, w2) ->
  exists scs steps' w3 fr,
    ran (selectExecutor (type testPlan)) (stepStats (counters st)) w2
        (scenarios testPlan) scs steps' w3 /\
    features (runFeature file st) = features st ++ [fr] /\
    featureFile fr = file /\
    fscenarios fr = scs /\
    map rname scs = map name (scenarios testPlan) /\
    ferror fr = fst (cleanup (selectExecutor (type testPlan)) w3) /\
    sworld (runFeature file st) = snd (cleanup (selectExecutor (type testPlan)) w3) /\
    (fstatus fr = errored <-> fst (cleanup (selectExecutor (type testPlan)) w3) <> None) /\
    (fstatus fr = passed <->
     fst (cleanup (selectExecutor (type testPlan)) w3) = None /\
     Forall (fun s => status s = passed) scs) /\
    (fstatus fr = failed <->
     fst (cleanup (selectExecutor (type testPlan)) w3) = None /\
     ~ Forall (fun s => status s = passed) scs) /\
    trace (runFeature file st)
      = trace st ++ [Parse file; Initialize (type testPlan)]
        ++ map Scenario_ (map name (scenarios testPlan)) ++ [Cleanup (type testPlan)] /\
    stepStats (counters (runFeature file st)) = steps' /\
    totalScenarios (counters (runFeature file st))
      = totalScenarios (counters st) + length (scenarios testPlan).
Proof.
  intros Hplan Hinit. unfold runFeature. rewrite Hplan, Hinit.
  cbn [stepStats withScenarios].
  destruct (scenarioLoop_ran (selectExecutor (type testPlan)) (scenarios testPlan) []
              (stepStats (counters st))
              ((trace st ++ [Parse file]) ++ [Initialize (type testPlan)]) w2)
    as (scs & steps' & w3 & Hran & Heq).
  rewrite Heq. cbn [app].
  exists scs, steps', w3.
  pose proof (allPassed_Forall scs) as Hall.
  destruct (cleanup (selectExecutor (type testPlan)) w3) as [[msg|] w4];
    eexists; cbn [features featureFile fscenarios fstatus ferror trace counters sworld
                  totalScenarios stepStats withScenarios fst snd];
    (split; [exact Hran|]); (split; [reflexivity|]); (split; [reflexivity|]);
    (split; [reflexivity|]); (split; [exact (ran_names _ _ _ _ _ _ _ Hran)|]);
    (split; [reflexivity|]); (split; [reflexivity|]).
  - split; [split; [discriminate | reflexivity]|].
    split; [split; [discriminate | intros [H _]; discriminate]|].
    split; [split; [discriminate | intros [H _]; discriminate]|].
    split; [now rewrite <- !app_assoc|]. split; [reflexivity | lia].
  - split; [split; [destruct (allPassed scs); discriminate | intros H; now contradiction H]|].
    split.
    { rewrite <- Hall. destruct (allPassed scs); split; try tauto; try discriminate.
      intros [_ H]; discriminate. }
    split.
    { rewrite <- Hall. destruct (allPassed scs); split; try discriminate.
      - intros [_ H]. now contradiction H.
      - intros _. split; [reflexivity | discriminate].
      - reflexivity. }
    split; [now rewrite <- !app_assoc|]. split; [reflexivity | lia].
Qed.

(** A feature that cannot be compiled, or whose executor cannot be started,
    is recorded with status [error] and without scenarios.  No step is run
    and no step counter changes; the executor is not cleaned up, and when the
    plan could not be compiled it is not even initialised.  The scenarios of
    a compiled plan are counted although none is run. *)
Theorem runFeature_setup_failure (file : string) (st : RunState World) :
  (forall msg w1, gherkin file (sworld st) = (inr msg, w1) ->
     runFeature file st
     = {| features := features st ++ [{| featureFile := file; fscenarios := [];
                                         fstatus := errored; ferror := Some msg |}];
          counters := counters st; trace := trace st ++ [Parse file]; sworld := w1 |}) /\
  (forall testPlan w1 msg w2,
     gherkin file (sworld st) = (inl testPlan, w1) ->
     initialize (selectExecutor (type testPlan)) w1 = (Some msg, w2) ->
     features (runFeature file st)
       = features st ++ [{| featureFile := file; fscenarios := [];
                            fstatus := errored; ferror := Some msg |}] /\
     trace (runFeature file st) = trace st ++ [Parse file; Initialize (type testPlan)] /\
     stepStats (counters (runFeature file st)) = stepStats (counters st) /\
     totalScenarios (counters (runFeature file st))
       = totalScenarios (counters st) + length (scenarios testPlan) /\
     sworld (runFeature file st) = w2).
Proof.
  split.
  - intros msg w1 Hplan. unfold runFeature. now rewrite Hplan.
  - intros testPlan w1 msg w2 Hplan Hinit. unfold runFeature. rewrite Hplan, Hinit.
    cbn. rewrite <- app_assoc. repeat split.
Qed.

(** [runFeature] keeps the counters in step with the recorded results. *)
Lemma runFeature_accounted (file : string) (st : RunState World) :
  accounted st -> accounted (runFeature file st).
Proof.
  intros (HP & HF & HT & HN). unfold runFeature.
  destruct (gherkin file (sworld st)) as [[testPlan|msg] w1].
  - destruct (initialize (selectExecutor (type testPlan)) w1) as [[msg|] w2].
    + unfold accounted. cbn [features counters stepStats withScenarios].
      rewrite scenariosOf_app. cbn [scenariosOf flat_map fscenarios]. rewrite !app_nil_r.
      auto.
    + cbn [stepStats withScenarios].
      pose proof (scenarioLoop_spec (selectExecutor (type testPlan)) (scenarios testPlan) []
                    (stepStats (counters st))
                    ((trace st ++ [Parse file]) ++ [Initialize (type testPlan)]) w2) as Hloop.
      destruct (scenarioLoop _ _ _ _ _ _) as [[[scs steps'] tr2] w3].
      destruct Hloop as (added & -> & _ & _ & IP & IF & IT & IN). cbn [app] in *.
      destruct (cleanup (selectExecutor (type testPlan)) w3) as [[msg|] w4];
        unfold accounted; cbn [features counters stepStats withScenarios];
        rewrite scenariosOf_app; cbn [scenariosOf flat_map fscenarios]; rewrite !app_nil_r;
        fold (scenariosOf (features st));
        rewrite passedIn_app, notPassed_app, recordedIn_app, threw_app, failedIn_app;
        repeat split; lia.
  - unfold accounted. cbn [features counters stepStats].
    rewrite scenariosOf_app. cbn [scenariosOf flat_map fscenarios]. rewrite !app_nil_r.
    auto.
Qed.

Lemma runFeature_features (file : string) (st : RunState World) :
  map featureFile (features (runFeature file st)) = map featureFile (features st) ++ [file].
Proof.
  unfold runFeature.
  destruct (gherkin file (sworld st)) as [[testPlan|msg] w1]; [|cbn; now rewrite map_app].
  destruct (initialize _ w1) as [[msg|] w2]; [cbn; now rewrite map_app|].
  destruct (scenarioLoop _ _ _ _ _ _) as [[[scs steps'] tr2] w3].
  destruct (cleanup _ w3) as [[msg|] w4]; cbn; now rewrite map_app.
Qed.

Lemma runFeature_totalFeatures (file : string) (st : RunState World) :
  totalFeatures (counters (runFeature file st)) = totalFeatures (counters st).
Proof.
  unfold runFeature.
  destruct (gherkin file (sworld st)) as [[testPlan|msg] w1]; [|reflexivity].
  destruct (initialize _ w1) as [[msg|] w2]; [reflexivity|].
  destruct (scenarioLoop _ _ _ _ _ _) as [[[scs steps'] tr2] w3].
  destruct (cleanup _ w3) as [[msg|] w4]; reflexivity.
Qed.

Lemma fold_runFeature (files : list string) : forall st,
  accounted st ->
  accounted (fold_left (fun acc file => runFeature file acc) files st) /\
  map featureFile (features (fold_left (fun acc file => runFeature file acc) files st))
    = map featureFile (features st) ++ files /\
  totalFeatures (counters (fold_left (fun acc file => runFeature file acc) files st))
    = totalFeatures (counters st).
Proof.
  induction files as [|file rest IH]; intros st Hst; cbn [fold_left].
  - now rewrite app_nil_r.
  - destruct (IH (runFeature file st) (runFeature_accounted file st Hst))
      as (Hacc & Hfiles & Htotal).
    split; [exact Hacc|]. split.
    + rewrite Hfiles, runFeature_features, <- app_assoc. reflexivity.
    + now rewrite Htotal, runFeature_totalFeatures.
Qed.

Lemma fold_sum (A : Type) (f : A -> nat) (l : list A) : forall n,
  fold_left (fun sum a => sum + f a) l n = n + list_sum (map f l).
Proof.
  induction l as [|a l IH]; intros n; simpl; [lia|].
  rewrite IH. lia.
Qed.

Lemma scenario_sum (f : list ScenarioResult -> nat) (l : list FeatureResult) :
  (forall a b, f (a ++ b) = f a + f b) -> f [] = 0 ->
  f (scenariosOf l) = list_sum (map (fun fr => f (fscenarios fr)) l).
Proof.
  intros Happ Hnil. induction l as [|fr l IH]; [exact Hnil|].
  simpl. rewrite Happ. f_equal. exact IH.
Qed.

(** The report of a suite started on a new orchestrator, in terms of the
    state the features left. *)
Lemma runTestSuite_report (featureFiles : list string) (w : World) (report : Report)
  (st' : RunState World) :
  runTestSuite featureFiles (fresh w) = (inl report, st') ->
  exists st1,
    accounted st1 /\ results report = features st1 /\
    map featureFile (features st1) = featureFiles /\
    sfeatures (summary report) = length featureFiles /\
    spassed (summary report) = passedSteps (stepStats (counters st1)) /\
    sfailed (summary report) = failedSteps (stepStats (counters st1)) /\
    stotalSteps (summary report) = totalSteps (stepStats (counters st1)).
Proof.
  unfold runTestSuite. cbn [fresh features counters trace sworld totalScenarios stepStats].
  match goal with
  | |- context [fold_left ?f featureFiles ?st0] =>
      assert (Hst0 : accounted st0) by (unfold accounted; cbn; lia);
      destruct (fold_runFeature featureFiles st0 Hst0) as (Hacc & Hfiles & Hfeat);
      set (st1 := fold_left f featureFiles st0) in *
  end.
  cbn [counters totalFeatures features map app] in Hfeat, Hfiles.
  destruct (writeReports (features st1) (sworld st1)) as [[msg|] w']; [discriminate|].
  intros [= <- _]. exists st1. cbn [summary results sfeatures spassed sfailed stotalSteps].
  split; [exact Hacc|]. split; [reflexivity|]. split; [exact Hfiles|].
  split; [exact Hfeat|]. repeat split.
Qed.

(** The suite, started on a new orchestrator.  One result is recorded per
    feature file, in the order given.  In the report, [passed] is the number
    of successful step results recorded; [failed] is the number of scenarios
    that did not pass, whether a step failed or threw; and [totalSteps] is
    their sum.  The summaries written per feature are computed from the
    recorded results, and do not see a step that threw: over all features
    their [passed] add up to the overall [passed], while their [failed] and
    [totalSteps] fall short of the overall ones by the number of scenarios
    that ended in an exception. *)
Theorem runTestSuite_counters (featureFiles : list string) (w : World) (report : Report)
  (st' : RunState World) :
  runTestSuite featureFiles (fresh w) = (inl report, st') ->
  map featureFile (results report) = featureFiles /\
  sfeatures (summary report) = length featureFiles /\
  spassed (summary report) = passedIn (scenariosOf (results report)) /\
  sfailed (summary report) = notPassed (scenariosOf (results report)) /\
  stotalSteps (summary report) = spassed (summary report) + sfailed (summary report) /\
  spassed (summary report)
    = list_sum (map (fun fr => fsPassed (featureSummary fr)) (results report)) /\
  sfailed (summary report)
    = list_sum (map (fun fr => fsFailed (featureSummary fr)) (results report))
      + threw (scenariosOf (results report)) /\
  stotalSteps (summary report)
    = list_sum (map (fun fr => fsTotalSteps (featureSummary fr)) (results report))
      + threw (scenariosOf (results report)).
Proof.
  intros Hrun.
  destruct (runTestSuite_report featureFiles w report st' Hrun)
    as (st1 & (HP & HF & HT & HN) & -> & Hfiles & Hfeat & -> & -> & ->).
  assert (Hp : passedIn (scenariosOf (features st1))
               = list_sum (map (fun fr => fsPassed (featureSummary fr)) (features st1))).
  { rewrite (scenario_sum passedIn) by (apply passedIn_app || reflexivity).
    f_equal. apply map_ext. intros fr. unfold featureSummary, passedIn, passedResults.
    cbn [fsPassed]. now rewrite fold_sum. }
  assert (Hf : failedIn (scenariosOf (features st1))
               = list_sum (map (fun fr => fsFailed (featureSummary fr)) (features st1))).
  { rewrite (scenario_sum failedIn) by (apply failedIn_app || reflexivity).
    f_equal. apply map_ext. intros fr. unfold featureSummary, failedIn, failedResults.
    cbn [fsFailed]. now rewrite fold_sum. }
  assert (Hr : recordedIn (scenariosOf (features st1))
               = list_sum (map (fun fr => fsTotalSteps (featureSummary fr)) (features st1))).
  { rewrite (scenario_sum recordedIn) by (apply recordedIn_app || reflexivity).
    f_equal. apply map_ext. intros fr. unfold featureSummary, recordedIn.
    cbn [fsTotalSteps]. now rewrite fold_sum. }
  assert (Hsplit : recordedIn (scenariosOf (features st1))
                   = passedIn (scenariosOf (features st1)) + failedIn (scenariosOf (features st1))).
  { generalize (scenariosOf (features st1)). intros l.
    induction l as [|sc l IH]; [reflexivity|].
    unfold recordedIn, passedIn, failedIn in *. simpl. rewrite IH.
    assert (Hpart : length (rsteps sc) = passedResults (rsteps sc) + failedResults (rsteps sc)).
    { unfold passedResults, failedResults. generalize (rsteps sc). intros rs.
      induction rs as [|r rs IHr]; [reflexivity|]. cbn [List.filter length].
      destruct (success r); cbn [negb length]; lia. }
    lia. }
  repeat split; try assumption; try lia.
Qed.

(** The exit status of a run on a new orchestrator is [0] exactly when the
    reports were written and every scenario that was run passed.  A feature
    that ended in an error before any scenario ran (its plan could not be
    compiled, say) has no bearing on the exit status. *)
Theorem exitCode_zero_iff (featureFiles : list string) (w : World) :
  exitCode (fst (runTestSuite featureFiles (fresh w))) = 0 <->
  exists report,
    fst (runTestSuite featureFiles (fresh w)) = inl report /\
    forall fr sc, In fr (results report) -> In sc (fscenarios fr) -> status sc = passed.
Proof.
  destruct (runTestSuite featureFiles (fresh w)) as [[report|msg] st'] eqn:Hrun; cbn [fst exitCode].
  - destruct (runTestSuite_report featureFiles w report st' Hrun)
      as (st1 & (_ & HF & _) & Hres & _ & _ & _ & Hfailed & _).
    rewrite HF, <- Hres in Hfailed. clear HF Hres st1.
    assert (Hiff : notPassed (scenariosOf (results report)) = 0 <->
                   forall fr sc, In fr (results report) -> In sc (fscenarios fr) ->
                                 status sc = passed).
    { unfold notPassed, scenariosOf. rewrite length_zero_iff_nil. split.
      - intros Hnil fr sc Hfr Hsc.
        assert (Hin : In sc (flat_map fscenarios (results report)))
          by (apply in_flat_map; eauto).
        destruct (isPassed (status sc)) eqn:Hp; [now destruct (status sc)|].
        assert (Hbad : In sc (List.filter (fun s => negb (isPassed (status s)))
                                (flat_map fscenarios (results report))))
          by (apply List.filter_In; split; [exact Hin | now rewrite Hp]).
        rewrite Hnil in Hbad. contradiction.
      - intros Hall.
        destruct (List.filter _ _) as [|sc l] eqn:Hf; [reflexivity|].
        assert (Hin : In sc (List.filter (fun s => negb (isPassed (status s)))
                               (flat_map fscenarios (results report))))
          by (rewrite Hf; now left).
        apply List.filter_In in Hin as [Hin Hbad]. apply in_flat_map in Hin as (fr & Hfr & Hsc).
        rewrite (Hall fr sc Hfr Hsc) in Hbad. discriminate. }
    rewrite Hfailed. split.
    + intros Hzero. exists report. split; [reflexivity|]. apply Hiff.
      destruct (notPassed _); [reflexivity | discriminate].
    + intros (rep & [= <-] & Hall). apply Hiff in Hall. now rewrite Hall.
  - split; [discriminate|]. intros (rep & Hrep & _). discriminate.
Qed.

End Features.


(** A feature of two scenarios on an executor whose cleanup throws: the
    second step of the first scenario fails, the second scenario is run all
    the same and passes, both results are kept, and the feature ends in
    [error] with the message of the cleanup. *)
Lemma runFeature_runs_every_scenario_witness :
  exists fr,
    features (runFeature (agents := Fixtures.shopAgents) "shop.feature"
                (fresh [Some true; Some false; Some true]))
      = [fr] /\
    map rname (fscenarios fr) = ["Login"; "Logout"] /\
    map status (fscenarios fr) = [failed; passed] /\
    fstatus fr = errored /\
    ferror fr = Some "Target page, context or browser has been closed".
Proof.
  destruct (runFeature_runs_every_scenario (agents := Fixtures.shopAgents) "shop.feature"
              (fresh [Some true; Some false; Some true]) Fixtures.shopPlan
              [Some true; Some false; Some true] [Some true; Some false; Some true]
              eq_refl eq_refl)
    as (scs & steps' & w3 & fr & _ & Hfeatures & _ & Hscs & Hnames & _).
  exists fr. split; [exact Hfeatures|].
  split; [rewrite Hscs; exact Hnames|].
  vm_compute in Hfeatures. injection Hfeatures as <-.
  repeat split.
Defined.

(** A suite of a file that cannot be parsed and a file whose second step
    fails. *)
Lemma runTestSuite_counters_witness :
  exists report st',
    runTestSuite (agents := Fixtures.scriptedAgents) ["broken.feature"; "login.feature"]
      (fresh [Some true; Some false; Some true]) = (inl report, st') /\
    map featureFile (results report) = ["broken.feature"; "login.feature"] /\
    stotalSteps (summary report) = spassed (summary report) + sfailed (summary report).
Proof.
  destruct (runTestSuite (agents := Fixtures.scriptedAgents) ["broken.feature"; "login.feature"]
              (fresh [Some true; Some false; Some true])) as [[report|msg] st'] eqn:Hrun.
  - exists report, st'. split; [reflexivity|].
    destruct (runTestSuite_counters (agents := Fixtures.scriptedAgents) _ _ _ _ Hrun)
      as (Hfiles & _ & _ & _ & Htotal & _).
    split; [exact Hfiles | exact Htotal].
  - vm_compute in Hrun. discriminate.
Defined.

End SuiteFacts.

(** ** More on plan compilation *)

Module PlanFacts.
Import Text TextFacts Placeholders PlaceholdersFacts Outline Heuristic Cache Compiler Samples.
Import CacheFacts CompilerFacts PlanCheck.

Section Shape.

Variable E : Entropy.

Lemma replacePlaceholder_clean (v : string) (n : nat) :
  markerFree v = true -> replacePlaceholder E v n = (v, n).
Proof.
  unfold markerFree, replacePlaceholder.
  now destruct (firstMatching emailPatterns v).
Qed.

Lemma forEachSt_id {A : Type} (f : A -> nat -> A * nat) (ok : A -> bool) (l : list A) (n : nat) :
  (forall a m, ok a = true -> f a m = (a, m)) ->
  forallb ok l = true -> forEachSt f l n = (l, n).
Proof.
  intros Hf. induction l as [|a l IH]; intros Hl; [reflexivity|].
  cbn [forallb] in Hl. apply andb_true_iff in Hl as [Ha Hl].
  cbn [forEachSt]. now rewrite (Hf a n Ha), (IH Hl).
Qed.

Lemma processData_clean (d : Data) (n : nat) :
  cleanData d = true -> processData E d n = (d, n).
Proof.
  destruct d as [|s|items|fields]; cbn [cleanData processData]; intros Hd.
  - reflexivity.
  - destruct (truthy s); [|reflexivity]. now rewrite (replacePlaceholder_clean s n Hd).
  - now rewrite (forEachSt_id (replacePlaceholder E) markerFree items n replacePlaceholder_clean Hd).
  - rewrite (forEachSt_id (processField E) cleanField fields n); [reflexivity| |exact Hd].
    intros [k [sel v|s|]] m Hk; unfold cleanField in Hk; cbn [snd] in Hk; cbn [processField].
    + destruct (truthy v); [|reflexivity]. now rewrite (replacePlaceholder_clean v m Hk).
    + now rewrite (replacePlaceholder_clean s m Hk).
    + reflexivity.
Qed.

(** A plan whose payloads hold no email marker comes out of the substitution
    pass as it went in, and no random value is drawn for it. *)
Theorem substitution_identity_without_markers (p : ExecutionPlan) (n : nat) :
  cleanPlan p = true -> processDynamicPlaceholders E p n = (p, n).
Proof.
  intros Hp. rewrite processDynamicPlaceholders_eq.
  unfold cleanPlan in Hp.
  rewrite (forEachSt_id (processScenario E)
             (fun sc => forallb (fun s => cleanData (data s)) (steps sc)) (scenarios p) n);
    [now destruct p| |exact Hp].
  intros sc m Hsc. rewrite processScenario_eq.
  rewrite (forEachSt_id (processStep E) (fun s => cleanData (data s)) (steps sc) m);
    [now destruct sc| |exact Hsc].
  intros s k Hs. rewrite processStep_eq, (processData_clean (data s) k Hs). now destruct s.
Qed.

(** The substitution pass changes payloads only.  The plan keeps its
    feature, description, type, tags and language, its scenarios keep their
    names, contexts and order, and every step keeps its text, action,
    selector, description and validation; the draw counter never goes
    back. *)
Theorem substitution_changes_payloads_only (p : ExecutionPlan) (n : nat) :
  let p' := fst (processDynamicPlaceholders E p n) in
  feature p' = feature p /\ pdescription p' = pdescription p /\ type p' = type p /\
  tags p' = tags p /\ language p' = language p /\
  map name (scenarios p') = map name (scenarios p) /\
  map context (scenarios p') = map context (scenarios p) /\
  map (fun sc => map withoutData (steps sc)) (scenarios p')
    = map (fun sc => map withoutData (steps sc)) (scenarios p) /\
  n <= snd (processDynamicPlaceholders E p n).
Proof.
  cbn zeta. rewrite processDynamicPlaceholders_eq. cbn [fst snd feature pdescription type tags
    language scenarios].
  repeat split.
  - apply substitution_keeps_names.
  - apply forEachSt_map. intros sc m. now rewrite processScenario_eq.
  - apply substitution_keeps. intros s m. now rewrite processStep_eq.
  - apply forEachSt_mono. apply processScenario_mono.
Qed.

Lemma checkScenarios_map (l l' : list Scenario) :
  map name l' = map name l ->
  map (fun sc => length (steps sc)) l' = map (fun sc => length (steps sc)) l ->
  checkScenarios l' = checkScenarios l.
Proof.
  revert l'. induction l as [|sc l IH]; intros [|sc' l'] Hn Hs; try discriminate; [reflexivity|].
  cbn [map] in Hn, Hs. injection Hn as Hn Hn'. injection Hs as Hs Hs'.
  cbn [checkScenarios]. destruct (steps sc), (steps sc'); try discriminate.
  - now rewrite Hn.
  - now apply IH.
Qed.

(** [validatePlan] accepts a plan exactly when it has a scenario and every
    scenario has a step.  The error of a rejected plan with scenarios names
    the first scenario without steps.  The verdict is the same before and
    after the substitution pass. *)
Theorem validatePlan_spec (p : ExecutionPlan) (n : nat) :
  (valid (validatePlan p) = true <->
   scenarios p <> [] /\ Forall (fun sc => steps sc <> []) (scenarios p)) /\
  (valid (validatePlan p) = true <-> verror (validatePlan p) = None) /\
  (forall before sc after,
     scenarios p = before ++ sc :: after ->
     Forall (fun x => steps x <> []) before -> steps sc = [] ->
     validatePlan p
     = {| valid := false;
          verror := Some ("Scenario " +:+ quoted (name sc) +:+ " has no steps") |}) /\
  validatePlan (fst (processDynamicPlaceholders E p n)) = validatePlan p.
Proof.
  assert (Hcheck : forall l, (valid (checkScenarios l) = true <->
                              Forall (fun sc => steps sc <> []) l) /\
                             (valid (checkScenarios l) = true <->
                              verror (checkScenarios l) = None)).
  { induction l as [|sc l [IH1 IH2]]; cbn [checkScenarios].
    - cbn. split; split; auto.
    - destruct (steps sc) eqn:Hs; cbn [valid verror].
      + split; split; try discriminate. intros H. inversion H; subst. congruence.
      + split; [|exact IH2]. rewrite IH1. split.
        * intros H. constructor; [congruence | exact H].
        * intros H. now inversion H. }
  split; [|split; [|split]].
  - unfold validatePlan. destruct (scenarios p) as [|sc l] eqn:Hp.
    + cbn. split; [discriminate | intros [H _]; congruence].
    + rewrite (proj1 (Hcheck (sc :: l))). split; [intros H; split; [discriminate | exact H]|tauto].
  - unfold validatePlan. destruct (scenarios p) as [|sc l] eqn:Hp.
    + cbn. split; discriminate.
    + apply Hcheck.
  - intros before sc after Hp Hbefore Hsc. unfold validatePlan. rewrite Hp.
    assert (Hloop : checkScenarios (before ++ sc :: after)
                    = {| valid := false;
                         verror := Some ("Scenario " +:+ quoted (name sc) +:+ " has no steps") |}).
    { clear Hp. induction Hbefore as [|x before Hx _ IH]; cbn [app checkScenarios].
      - now rewrite Hsc.
      - destruct (steps x); [congruence | exact IH]. }
    destruct before; cbn [app] in *; exact Hloop.
  - assert (Hn : map name (scenarios (fst (processDynamicPlaceholders E p n)))
                 = map name (scenarios p))
      by (rewrite processDynamicPlaceholders_eq; apply substitution_keeps_names).
    assert (Hs : map (fun sc => map withoutData (steps sc))
                     (scenarios (fst (processDynamicPlaceholders E p n)))
                 = map (fun sc => map withoutData (steps sc)) (scenarios p)).
    { rewrite processDynamicPlaceholders_eq. apply substitution_keeps.
      intros s m. now rewrite processStep_eq. }
    unfold validatePlan.
    set (p' := fst (processDynamicPlaceholders E p n)) in *.
    assert (Hlen : map (fun sc => length (steps sc)) (scenarios p')
                   = map (fun sc => length (steps sc)) (scenarios p)).
    { clear -Hs. revert Hs. generalize (scenarios p'). generalize (scenarios p).
      induction l as [|sc l IH]; intros [|sc' l'] Hs; try discriminate; [reflexivity|].
      cbn [map] in Hs |- *. injection Hs as Hhead Htail.
      apply (f_equal (@length Step)) in Hhead. rewrite !length_map in Hhead.
      now rewrite Hhead, (IH l' Htail). }
    rewrite (checkScenarios_map (scenarios p) (scenarios p') Hn Hlen).
    apply (f_equal (@length _)) in Hn. rewrite !length_map in Hn.
    destruct (scenarios p'), (scenarios p); try discriminate; reflexivity.
Qed.

End Shape.


Section CacheRounds.

Context {engine : RegExpEngine} {lib : Library} {svc : Services}.

(** Writing a plan and looking it up again with the same text gives the plan
    back for seven days; a text with another hash misses, and so does any
    lookup once seven days have passed. *)
Lemma saved_then_looked_up (fs0 : FileSystem) (path content content' : string)
  (p : ExecutionPlan) (saved now : Z) :
  readOnly fs0 = false ->
  getCachedPlan (saveToCache fs0 path content p saved) path content' now =
  if negb (String.eqb (generateHash content) (generateHash content')) then None
  else if (now - saved >? maxAge)%Z then None else Some p.
Proof.
  intros Hrw. unfold saveToCache. rewrite Hrw.
  rewrite (getCachedPlan_stored _ _ _ _
             {| featureFile := basename path; contentHash := generateHash content;
                timestamp := saved; plan := p |}); [reflexivity|].
  cbn [files]. apply lookup_insert_eq.
Qed.

(** A second compilation of the same text within seven days is served from
    the cache.  The first, a miss with caching on and a writable cache
    directory, returns the substitution of a plan [plan0]; the second returns
    the substitution of the same [plan0] with the draws that follow, leaves
    the cache as it is, and is the same whatever the parser and the oracle
    would answer now. *)
Theorem parseAndPlan_second_run (cfg : Config) (path content : string) (clk clk2 : Clock)
  (st st1 : State) (p : ExecutionPlan) :
  enableCache cfg = true -> forceRegenerate cfg = false -> readOnly (fs st) = false ->
  cacheLookup cfg st path content clk = None ->
  parseAndPlan cfg path content clk st = (inl p, st1) ->
  (lookupTime clk2 - saveTime clk <= maxAge)%Z ->
  exists plan0,
    p = fst (processDynamicPlaceholders entropy plan0 (drawn st)) /\
    drawn st1 = snd (processDynamicPlaceholders entropy plan0 (drawn st)) /\
    forall svc' : Services,
      @entropy svc' = @entropy svc ->
      parseAndPlan (svc := svc') cfg path content clk2 st1
      = (inl (fst (processDynamicPlaceholders entropy plan0 (drawn st1))),
         {| fs := fs st1;
            drawn := snd (processDynamicPlaceholders entropy plan0 (drawn st1)) |}).
Proof.
  intros Hon Hforce Hrw Hmiss Hrun Hage.
  destruct (parseAndPlan_returns _ _ _ _ _ _ _ Hrun)
    as [[cached Hhit] | (_ & f & i & Hparse & Hint)]; [congruence|].
  rewrite (parseAndPlan_miss _ _ _ _ _ _ _ Hmiss Hparse Hint) in Hrun.
  injection Hrun as Hp Hst. exists (freshPlan f i).
  split; [now rewrite <- Hp|]. split; [now rewrite <- Hst|].
  intros svc' Hentropy.
  assert (Hhit : cacheLookup cfg st1 path content clk2 = Some (freshPlan f i)).
  { unfold cacheLookup. rewrite Hon, Hforce. cbn [andb negb]. rewrite <- Hst. cbn [fs].
    rewrite Hon, (saved_then_looked_up _ _ _ _ _ _ _ Hrw), String.eqb_refl. cbn [negb].
    destruct (lookupTime clk2 - saveTime clk >? maxAge)%Z eqn:Hgt; [lia | reflexivity]. }
  rewrite (parseAndPlan_hit (svc := svc') _ _ _ _ _ _ Hhit). now rewrite Hentropy.
Qed.

(** A compilation that stops at the source or at the request fails cleanly.
    When the Gherkin parser throws, [parseGherkinFile] throws the parser's
    message behind the prefix [Failed to parse Gherkin: ].  On a cache miss,
    when [parseGherkinFile] throws (the parser threw, or the document holds
    no feature), compilation throws the same message; when the request for
    the oracle cannot be built, compilation throws as well.  In both cases
    the cache and the count of random draws are left as they were, and the
    oracle is not consulted: the outcome is the same whatever the oracle,
    the reading of its reply and the random supply are.  With regeneration
    forced the cache is not read: the outcome is the same whatever the cache
    directory holds. *)
Theorem parseAndPlan_failure_is_clean (cfg : Config) (path content : string) (clk : Clock)
  (st : State) :
  (forall msg, parser_parse content = inr msg ->
     parseGherkinFile content = inr ("Failed to parse Gherkin: " +:+ msg)) /\
  (cacheLookup cfg st path content clk = None ->
   (forall msg, parseGherkinFile content = inr msg ->
      parseAndPlan cfg path content clk st = (inr msg, st)) /\
   (forall f, parseGherkinFile content = inl f -> buildInterpretationPrompt f = None ->
      exists msg, parseAndPlan cfg path content clk st = (inr msg, st)) /\
   ((exists msg, parseGherkinFile content = inr msg) \/
    (exists f, parseGherkinFile content = inl f /\ buildInterpretationPrompt f = None) ->
    forall other : Services,
      @parser_parse other = @parser_parse svc ->
      @parseAndPlan engine lib other cfg path content clk st
      = @parseAndPlan engine lib svc cfg path content clk st)) /\
  (forceRegenerate cfg = true ->
   forall fs',
     fst (parseAndPlan cfg path content clk st)
     = fst (parseAndPlan cfg path content clk {| fs := fs'; drawn := drawn st |})).
Proof.
  split; [|split].
  - intros msg Hp. unfold parseGherkinFile. now rewrite Hp.
  - intros Hmiss.
    assert (Hfail : forall msg, parseGherkinFile content = inr msg ->
                      parseAndPlan cfg path content clk st = (inr msg, st)).
    { intros msg Hparse. unfold parseAndPlan. now rewrite Hmiss, Hparse. }
    assert (Hprompt : forall f, parseGherkinFile content = inl f ->
                        buildInterpretationPrompt f = None ->
                        parseAndPlan cfg path content clk st
                        = (inr "Invalid regular expression", st)).
    { intros f Hparse Hnone. unfold parseAndPlan. rewrite Hmiss, Hparse.
      unfold interpretWithAI. now rewrite Hnone. }
    split; [exact Hfail|]. split; [intros f Hparse Hnone; eexists; eauto|].
    intros Hstop other Hparser.
    assert (Hsame : @parseGherkinFile other content = @parseGherkinFile svc content)
      by (unfold parseGherkinFile; now rewrite Hparser).
    destruct Hstop as [(msg & Hparse)|(f & Hparse & Hnone)].
    + rewrite (Hfail msg Hparse). unfold parseAndPlan.
      change (@cacheLookup lib cfg st path content clk) with (cacheLookup cfg st path content clk).
      now rewrite Hmiss, Hsame, Hparse.
    + rewrite (Hprompt f Hparse Hnone). unfold parseAndPlan.
      now rewrite Hmiss, Hsame, Hparse; unfold interpretWithAI; rewrite Hnone.
  - intros Hforce fs'. unfold parseAndPlan, cacheLookup. rewrite Hforce, andb_false_r.
    cbn [drawn].
    destruct (parseGherkinFile content) as [f|e]; [|reflexivity].
    destruct (interpretWithAI f) as [i|e]; [|reflexivity].
    destruct (processDynamicPlaceholders entropy (freshPlan f i) (drawn st)). reflexivity.
Qed.

End CacheRounds.


Lemma substitution_identity_without_markers_witness :
  processDynamicPlaceholders sampleEntropy Fixtures.plainPlan 7 = (Fixtures.plainPlan, 7).
Proof.
  apply (substitution_identity_without_markers sampleEntropy Fixtures.plainPlan 7).
  reflexivity.
Defined.

(** A text the parser rejects: the message of the parser comes back behind
    the prefix, and the state is the one before the call. *)
Lemma parseAndPlan_failure_is_clean_witness :
  parseAndPlan (engine := literalEngine) (lib := library) (svc := eagerOracle)
    cachingOn "orphan.feature" "Scenario: orphan" noon freshState
  = (inr ("Failed to parse Gherkin: Parser errors: (1:1): expected: #EOF, #Language, "
          +:+ "#TagLine, #FeatureLine, #Comment, #Empty"),
     freshState) /\
  parseAndPlan (engine := literalEngine) (lib := library) (svc := downOracle)
    cachingOn "orphan.feature" "Scenario: orphan" noon freshState
  = parseAndPlan (engine := literalEngine) (lib := library) (svc := eagerOracle)
      cachingOn "orphan.feature" "Scenario: orphan" noon freshState.
Proof.
  destruct (proj1 (proj2 (parseAndPlan_failure_is_clean
                            (engine := literalEngine) (lib := library) (svc := eagerOracle)
                            cachingOn "orphan.feature" "Scenario: orphan" noon freshState))
                  eq_refl)
    as (Hfail & _ & Hsame).
  split.
  - apply Hfail. reflexivity.
  - apply Hsame; [left; eexists; reflexivity | reflexivity].
Defined.

(** Compiled with the oracle at hand, then again a second later with the
    oracle out of reach. *)
Lemma parseAndPlan_second_run_witness :
  exists plan0 p st1,
    parseAndPlan (engine := literalEngine) (lib := library) (svc := eagerOracle)
      cachingOn "register.feature" featureText noon freshState = (inl p, st1) /\
    parseAndPlan (engine := literalEngine) (lib := library) (svc := downOracle)
      cachingOn "register.feature" featureText Fixtures.afterNoon st1
    = (inl (fst (processDynamicPlaceholders sampleEntropy plan0 (drawn st1))),
       {| fs := fs st1;
          drawn := snd (processDynamicPlaceholders sampleEntropy plan0 (drawn st1)) |}).
Proof.
  destruct (parseAndPlan (engine := literalEngine) (lib := library) (svc := eagerOracle)
              cachingOn "register.feature" featureText noon freshState)
    as [[p|msg] st1] eqn:Hrun; [|vm_compute in Hrun; discriminate].
  destruct (parseAndPlan_second_run (engine := literalEngine) (lib := library)
              (svc := eagerOracle) cachingOn "register.feature" featureText noon
              Fixtures.afterNoon freshState st1 p eq_refl eq_refl eq_refl eq_refl Hrun)
    as (plan0 & _ & _ & Hsecond).
  - vm_compute. discriminate.
  - exists plan0, p, st1. split; [reflexivity|]. exact (Hsecond downOracle eq_refl).
Defined.

End PlanFacts.

(** ** The migration cache and generated file names *)

Module ReverseFacts.
Import Text TextFacts PlaceholdersFacts RevFacts Reverse.

Section MigrationCache.

Context {env : Env}.

(** Recording a processed file and asking again.  Right after
    [updateCache], the file does not need processing, unless regeneration is
    forced.  Entries are keyed by base name: a file with another base name
    is judged as before, and a file with the same base name, in whatever
    directory, is skipped exactly when its content has the recorded hash. *)
Theorem updateCache_then_needsProcessing (sourceFile : string) (files : list string)
  (now : Z) (cache cache' : MigrationCache) :
  updateCache sourceFile files now cache = Some cache' ->
  needsProcessing false sourceFile cache' = Some false /\
  needsProcessing true sourceFile cache' = Some true /\
  (forall other, basename other <> basename sourceFile ->
     needsProcessing false other cache' = needsProcessing false other cache) /\
  (forall other content content',
     basename other = basename sourceFile ->
     readFile sourceFile = Some content -> readFile other = Some content' ->
     needsProcessing false other cache'
     = Some (negb (String.eqb (sha256 content') (sha256 content)))).
Proof.
  unfold updateCache, calculateFileHash.
  destruct (readFile sourceFile) as [content|] eqn:Hread; [|discriminate].
  intros [= <-]. split; [|split; [reflexivity|split]].
  - unfold needsProcessing, calculateFileHash. rewrite (lookup_insert_eq cache), Hread.
    cbn [hash]. now rewrite String.eqb_refl.
  - intros other Hother. unfold needsProcessing.
    rewrite (lookup_insert_ne cache) by congruence. reflexivity.
  - intros other c c' Hsame [= <-] Hother. unfold needsProcessing, calculateFileHash.
    rewrite Hsame, (lookup_insert_eq cache), Hother. reflexivity.
Qed.

End MigrationCache.

(** *** File names *)

Definition nameChar (c : ascii) : bool := fileChar c || isDash c.

(** No two dashes in a row. *)
Fixpoint singleDashes (s : string) : bool :=
  match s with
  | String a (String b _ as rest) => negb (isDash a && isDash b) && singleDashes rest
  | _ => true
  end.

Definition startsWithDash (s : string) : bool :=
  match s with
  | String c _ => isDash c
  | EmptyString => false
  end.

Lemma fileChar_not_dash (c : ascii) : fileChar c = true -> isDash c = false.
Proof.
  unfold fileChar, isDash, is_lower, is_digit. intros Hc.
  destruct (Ascii.eqb c "-") eqn:He; [|reflexivity].
  apply Ascii.eqb_eq in He. subst c. discriminate.
Qed.

Lemma dashRuns_shape (s : string) : forall inRun,
  all_chars nameChar (dashRuns inRun s) = true /\
  singleDashes (dashRuns inRun s) = true /\
  (inRun = true -> startsWithDash (dashRuns inRun s) = false).
Proof.
  induction s as [|c s IH]; intros inRun; [repeat split|].
  cbn [dashRuns]. destruct (fileChar c) eqn:Hc.
  - destruct (IH false) as (Hall & Hsingle & _).
    cbn [all_chars startsWithDash]. unfold nameChar at 1. rewrite Hc. cbn [orb andb].
    repeat split; [exact Hall| |intros _; now apply fileChar_not_dash].
    cbn [singleDashes]. destruct (dashRuns false s) eqn:Hd; [reflexivity|].
    rewrite (fileChar_not_dash c Hc). cbn [andb negb]. exact Hsingle.
  - destruct (IH true) as (Hall & Hsingle & Hstart). destruct inRun.
    + repeat split; auto.
    + cbn [all_chars startsWithDash]. repeat split; [exact Hall| |discriminate].
      cbn [singleDashes]. specialize (Hstart eq_refl).
      destruct (dashRuns true s) eqn:Hd; [reflexivity|].
      cbn [startsWithDash] in Hstart. rewrite Hstart, andb_false_r. cbn [negb andb].
      exact Hsingle.
Qed.

Lemma singleDashes_tail (c : ascii) (s : string) :
  singleDashes (String c s) = true -> singleDashes s = true.
Proof.
  cbn [singleDashes]. destruct s; [reflexivity|]. intros H.
  now apply andb_true_iff in H as [_ H].
Qed.

Lemma dropWhile_shape (p : ascii -> bool) (s : string) :
  all_chars nameChar s = true -> singleDashes s = true ->
  all_chars nameChar (dropWhile p s) = true /\ singleDashes (dropWhile p s) = true.
Proof.
  induction s as [|c s IH]; intros Hall Hsingle; [auto|].
  cbn [dropWhile]. destruct (p c); [|auto].
  cbn [all_chars] in Hall. apply andb_true_iff in Hall as [_ Hall].
  apply IH; [exact Hall | now apply (singleDashes_tail c)].
Qed.

Lemma dropWhile_start (s : string) : startsWithDash (dropWhile isDash s) = false.
Proof.
  induction s as [|c s IH]; [reflexivity|].
  cbn [dropWhile]. destruct (isDash c) eqn:Hc; [exact IH | exact Hc].
Qed.

Lemma singleDashes_prefix (a b : string) :
  singleDashes (a +:+ b) = true -> singleDashes a = true.
Proof.
  induction a as [|x a IH]; [reflexivity|]. intros H.
  destruct a as [|y a]; [reflexivity|].
  cbn [String.append] in H. cbn [singleDashes] in H |- *.
  apply andb_true_iff in H as [Hxy Hrest]. rewrite Hxy. apply IH. exact Hrest.
Qed.

(** A string without its last characters: a prefix. *)
Definition prefixOf (a s : string) : Prop := exists b, s = a +:+ b.

Lemma prefix_shape (a s : string) :
  prefixOf a s ->
  all_chars nameChar s = true -> singleDashes s = true -> startsWithDash s = false ->
  all_chars nameChar a = true /\ singleDashes a = true /\ startsWithDash a = false.
Proof.
  intros (b & ->) Hall Hsingle Hstart.
  rewrite all_chars_append in Hall. apply andb_true_iff in Hall as [Hall _].
  split; [exact Hall|]. split.
  - now apply (singleDashes_prefix a b).
  - destruct a; [reflexivity | exact Hstart].
Qed.

Lemma dropWhile_suffix (p : ascii -> bool) (s : string) :
  exists a, s = a +:+ dropWhile p s.
Proof.
  induction s as [|c s (a & IH)]; [now exists EmptyString|].
  cbn [dropWhile]. destruct (p c); [|now exists EmptyString].
  exists (String c a). cbn [String.append]. now rewrite <- IH.
Qed.

Lemma dropWhileEnd_prefix (p : ascii -> bool) (s : string) : prefixOf (dropWhileEnd p s) s.
Proof.
  unfold dropWhileEnd, prefixOf.
  destruct (dropWhile_suffix p (String.rev s)) as (a & Ha).
  exists (String.rev a).
  rewrite <- (rev_rev s) at 1. rewrite Ha at 1. apply rev_append.
Qed.

Lemma take_prefix (n : nat) (s : string) : prefixOf (take n s) s.
Proof.
  revert s. induction n as [|n IH]; intros s; [now exists s|].
  destruct s as [|c s]; [now exists EmptyString|].
  destruct (IH s) as (b & Hb). exists b. cbn [take String.append]. now rewrite <- Hb.
Qed.

Lemma take_length (n : nat) (s : string) : String.length (take n s) <= n.
Proof.
  revert s. induction n as [|n IH]; intros s; [cbn; lia|].
  destruct s as [|c s]; cbn [take String.length]; [lia|]. specialize (IH s). lia.
Qed.

(** A generated file name has at most fifty characters, all of them lower
    case letters, digits or dashes; it does not begin with a dash and holds
    no two dashes in a row.  It can end with a dash: the cut to fifty
    characters comes after the trailing dashes are removed. *)
Theorem sanitizeFileName_shape :
  (forall name,
     String.length (sanitizeFileName name) <= 50 /\
     all_chars nameChar (sanitizeFileName name) = true /\
     startsWithDash (sanitizeFileName name) = false /\
     singleDashes (sanitizeFileName name) = true) /\
  (exists name, startsWithDash (String.rev (sanitizeFileName name)) = true).
Proof.
  split.
  - intros name. unfold sanitizeFileName.
    set (s0 := removeTags 0 (toLowerCase name)).
    destruct (dashRuns_shape s0 false) as (Hall & Hsingle & _).
    destruct (dropWhile_shape isDash _ Hall Hsingle) as (Hall1 & Hsingle1).
    pose proof (dropWhile_start (dashRuns false s0)) as Hstart1.
    destruct (prefix_shape _ _ (dropWhileEnd_prefix isDash _) Hall1 Hsingle1 Hstart1)
      as (Hall2 & Hsingle2 & Hstart2).
    destruct (prefix_shape _ _ (take_prefix 50 _) Hall2 Hsingle2 Hstart2)
      as (Hall3 & Hsingle3 & Hstart3).
    split; [apply take_length|]. auto.
  - exists "the customer completes the checkout of the basket and receives a confirmation".
    vm_compute. reflexivity.
Qed.


Lemma updateCache_then_needsProcessing_witness :
  exists cache',
    updateCache (env := Fixtures.sampleEnv) "a/login.spec.ts" ["login.feature"] 0 ∅
      = Some cache' /\
    needsProcessing (env := Fixtures.sampleEnv) false "a/login.spec.ts" cache' = Some false.
Proof.
  destruct (updateCache (env := Fixtures.sampleEnv) "a/login.spec.ts" ["login.feature"] 0 ∅)
    as [cache'|] eqn:Hup; [|discriminate].
  exists cache'. split; [reflexivity|].
  exact (proj1 (updateCache_then_needsProcessing (env := Fixtures.sampleEnv)
                  "a/login.spec.ts" ["login.feature"] 0 ∅ cache' Hup)).
Defined.

End ReverseFacts.
